(** * ceph_crypto: reference-counted libcrypto lifecycle and the EVP digest wrapper

    A shallow embedding of [src/common/ceph_crypto.cc] (the branch compiled
    for OpenSSL older than 1.1.0, where the locking shims exist).

    - the file-scope globals ([crypto_refs], [ssl_mutexes], [ssl_num_locks],
      [init_records.tids]) are the fields of one [state] record, threaded
      explicitly through [init] and [shutdown];
    - several threads inside [init] and [shutdown] are a list of program
      points over that one record, moved one step at a time by a schedule;
    - every call into libcrypto or pthreads is appended to a [trace], so that
      "which calls were made, how often and in which order" is a statement
      about a list;
    - the calls the code cannot survive (the always-false assertion, a
      dereference outside an array) are the non-[Ok] cases of [result];
    - libcrypto and pthreads themselves are outside the file: what the code
      needs from them is a parameter ([libcrypto], [evp_backend]) or a small
      model of the documented behaviour ([pthread_mutex_lock]). *)

From Stdlib Require Import ZArith List Lia String Bool.
From stdpp Require Import base list.
Import ListNotations.

Local Open Scope Z_scope.

(** ** Outcomes of a call *)

Inductive result (A : Type) : Type :=
| Ok (a : A)                    (* the call returned *)
| AssertFail (msg : string)     (* ceph_assert_always fired: the process aborts *)
| Fault.                        (* access outside an object: undefined behaviour *)

Arguments Ok {A} a.
Arguments AssertFail {A} msg.
Arguments Fault {A}.

Definition bind {A B : Type} (r : result A) (k : A -> result B) : result B :=
  match r with
  | Ok a => k a
  | AssertFail msg => AssertFail msg
  | Fault => Fault
  end.

Notation "'do' x <- r ; k" := (bind r (fun x => k))
  (at level 10, x name, r at level 100, k at level 200).

(** ** pthreads: the part of the mutex interface the file uses *)

Inductive mutex_type : Type :=
| PTHREAD_MUTEX_DEFAULT
| PTHREAD_MUTEX_RECURSIVE.

Record pthread_mutexattr_t : Type := { attr_type : mutex_type }.

Definition pthread_mutexattr_init : pthread_mutexattr_t :=
  {| attr_type := PTHREAD_MUTEX_DEFAULT |}.

Definition pthread_mutexattr_settype (a : pthread_mutexattr_t) (ty : mutex_type)
  : pthread_mutexattr_t :=
  {| attr_type := ty |}.

(** Thread identities are numbers ([ssl_get_thread_id] returns
    [unsigned long]). *)
Definition CRYPTO_THREADID : Type := Z.

Inductive pthread_mutex_t : Type :=
| MutexRaw                                   (* storage from new[], never initialised *)
| MutexLive (ty : mutex_type) (owner : option CRYPTO_THREADID) (depth : nat)
| MutexDestroyed.

Definition pthread_mutex_init (a : pthread_mutexattr_t) : pthread_mutex_t :=
  MutexLive (attr_type a) None 0.

Definition pthread_mutex_destroy (m : pthread_mutex_t) : pthread_mutex_t :=
  MutexDestroyed.

(** What a lock attempt does to the caller.  A recursive mutex counts the
    acquisitions of its owner; a default one, locked again by its owner,
    never returns.  [pthread_mutex_lock] is the mutex below its maximum
    recursion count; [pthread_mutex_lock_upto] after it has the maximum. *)
Inductive lock_outcome : Type :=
| Acquired (m : pthread_mutex_t)
| Blocks                        (* held by another thread: the caller waits *)
| Deadlock                      (* held by the caller, not recursive *)
| LockError.                    (* not a live mutex: an error code comes back *)

Definition pthread_mutex_lock (self : CRYPTO_THREADID) (m : pthread_mutex_t)
  : lock_outcome :=
  match m with
  | MutexLive ty None _ => Acquired (MutexLive ty (Some self) 1)
  | MutexLive ty (Some o) d =>
      if Z.eqb o self then
        match ty with
        | PTHREAD_MUTEX_RECURSIVE => Acquired (MutexLive ty (Some o) (S d))
        | PTHREAD_MUTEX_DEFAULT => Deadlock
        end
      else Blocks
  | _ => LockError
  end.

Definition pthread_mutex_unlock (self : CRYPTO_THREADID) (m : pthread_mutex_t)
  : option pthread_mutex_t :=
  match m with
  | MutexLive ty (Some o) d =>
      if Z.eqb o self then
        match d with
        | S (S d') => Some (MutexLive ty (Some o) (S d'))
        | _ => Some (MutexLive ty None 0)
        end
      else None
  | _ => None
  end.

(** A recursive mutex counts the acquisitions of its owner up to a
    maximum that the implementation fixes; at the maximum
    [pthread_mutex_lock] takes nothing and returns [EAGAIN].
    [pthread_mutex_lock] above is the mutex below its maximum; this is
    the mutex with its maximum, [max_depth]. *)
Definition pthread_mutex_lock_upto (max_depth : nat) (self : CRYPTO_THREADID)
    (m : pthread_mutex_t) : lock_outcome :=
  match m with
  | MutexLive PTHREAD_MUTEX_RECURSIVE (Some o) d =>
      if Z.eqb o self then
        if (d <? max_depth)%nat
        then Acquired (MutexLive PTHREAD_MUTEX_RECURSIVE (Some o) (S d))
        else LockError
      else Blocks
  | _ => pthread_mutex_lock self m
  end.

(** ** Calls into libcrypto and pthreads, as they appear in the trace *)

Inductive call : Type :=
| E_OpenSSL_add_all_algorithms
| E_ERR_load_crypto_strings
| E_CRYPTO_num_locks
| E_new_mutexes (n : Z)
| E_pthread_mutexattr_init
| E_pthread_mutexattr_settype (ty : mutex_type)
| E_pthread_mutex_init (i : Z)
| E_CRYPTO_set_locking_callback (installed : bool)
| E_CRYPTO_set_id_callback (installed : bool)
| E_OPENSSL_config
| E_CRYPTO_THREADID_current (tid : CRYPTO_THREADID)
| E_ERR_remove_thread_state (tid : CRYPTO_THREADID)
| E_ENGINE_cleanup
| E_CONF_modules_free
| E_CONF_modules_unload (all : Z)
| E_ERR_free_strings
| E_EVP_cleanup
| E_CRYPTO_cleanup_all_ex_data
| E_pthread_mutex_destroy (i : Z)
| E_delete_mutexes
| E_lock_init_records
| E_unlock_init_records.

(** ** The globals of the translation unit *)

Record state : Type := mkState {
  crypto_refs : Z;                               (* std::atomic_uint32_t *)
  ssl_mutexes : option (list pthread_mutex_t);   (* None is nullptr *)
  ssl_num_locks : Z;                             (* size_t *)
  tids : list CRYPTO_THREADID;                   (* init_records.tids *)
  locking_callback : bool;                       (* libcrypto's registered callbacks: *)
  id_callback : bool;                            (* ours (true) or nullptr (false)    *)
  trace : list call
}.

(** Static storage is zero-initialised. *)
Definition initial_state : state :=
  {| crypto_refs := 0; ssl_mutexes := None; ssl_num_locks := 0; tids := [];
     locking_callback := false; id_callback := false; trace := [] |}.

Definition set_crypto_refs (v : Z) (g : state) : state :=
  {| crypto_refs := v; ssl_mutexes := ssl_mutexes g;
     ssl_num_locks := ssl_num_locks g; tids := tids g;
     locking_callback := locking_callback g; id_callback := id_callback g;
     trace := trace g |}.

Definition set_ssl_mutexes (p : option (list pthread_mutex_t)) (g : state) : state :=
  {| crypto_refs := crypto_refs g; ssl_mutexes := p;
     ssl_num_locks := ssl_num_locks g; tids := tids g;
     locking_callback := locking_callback g; id_callback := id_callback g;
     trace := trace g |}.

Definition set_ssl_num_locks (n : Z) (g : state) : state :=
  {| crypto_refs := crypto_refs g; ssl_mutexes := ssl_mutexes g;
     ssl_num_locks := n; tids := tids g;
     locking_callback := locking_callback g; id_callback := id_callback g;
     trace := trace g |}.

Definition set_tids (l : list CRYPTO_THREADID) (g : state) : state :=
  {| crypto_refs := crypto_refs g; ssl_mutexes := ssl_mutexes g;
     ssl_num_locks := ssl_num_locks g; tids := l;
     locking_callback := locking_callback g; id_callback := id_callback g;
     trace := trace g |}.

Definition set_callbacks (lk id : bool) (g : state) : state :=
  {| crypto_refs := crypto_refs g; ssl_mutexes := ssl_mutexes g;
     ssl_num_locks := ssl_num_locks g; tids := tids g;
     locking_callback := lk; id_callback := id;
     trace := trace g |}.

Definition log (evs : list call) (g : state) : state :=
  {| crypto_refs := crypto_refs g; ssl_mutexes := ssl_mutexes g;
     ssl_num_locks := ssl_num_locks g; tids := tids g;
     locking_callback := locking_callback g; id_callback := id_callback g;
     trace := trace g ++ evs |}.

(** ** What the code asks of libcrypto and of the allocator *)

Record libcrypto : Type := {
  CRYPTO_num_locks : Z;      (* the int that CRYPTO_num_locks() returns *)
  new_succeeds : bool        (* whether new pthread_mutex_t[n] returns or throws *)
}.

(** Arithmetic of [std::atomic_uint32_t]. *)
Definition uint32_modulus : Z := 2 ^ 32.

Definition wrap32 (z : Z) : Z := z mod uint32_modulus.

(** [++crypto_refs] and [--crypto_refs]: one atomic read-modify-write each.
    The value the caller compares is the new one, which is what the field
    holds right after the step. *)
Definition incr_crypto_refs (g : state) : state :=
  set_crypto_refs (wrap32 (crypto_refs g + 1)) g.

Definition decr_crypto_refs (g : state) : state :=
  set_crypto_refs (wrap32 (crypto_refs g - 1)) g.

(** ** The lock table *)

(** [ssl_mutexes[i]] read and written in place; outside the array (or
    through nullptr) there is nothing to read. *)
Definition update_mutex (i : Z) (f : pthread_mutex_t -> pthread_mutex_t) (g : state)
  : result state :=
  match ssl_mutexes g with
  | None => Fault
  | Some tbl =>
      if 0 <=? i then
        match tbl !! Z.to_nat i with
        | Some m => Ok (set_ssl_mutexes (Some (<[Z.to_nat i := f m]> tbl)) g)
        | None => Fault
        end
      else Fault
  end.

(** [for (size_t i = 0; i < ssl_num_locks; i++) body(i)], entered with
    [n] iterations left and the index at [i]. *)
Fixpoint for_each_slot (body : Z -> state -> result state) (n : nat) (i : Z)
    (g : state) : result state :=
  match n with
  | O => Ok g
  | S n' => do g1 <- body i g; for_each_slot body n' (i + 1) g1
  end.

(** [new pthread_mutex_t[ssl_num_locks]] inside the try block: either the
    array, or the handler with its always-false assertion. *)
Definition new_mutexes (e : libcrypto) (g : state) : result state :=
  if new_succeeds e then
    Ok (set_ssl_mutexes (Some (replicate (Z.to_nat (ssl_num_locks g)) MutexRaw))
          (log [E_new_mutexes (ssl_num_locks g)] g))
  else AssertFail "can't allocate memory for OpenSSL init".

(** ** Statements and loops

    The two one-time blocks are straight-line code around one [for] loop
    over the lock slots.  They are kept as lists of statements, so that the
    same text can be run in one go by a single thread ([solo]) and one
    statement at a time when several threads are around ([instr_step]). *)

Inductive instr : Type :=
| Do (f : state -> result state)
| ForSlot (body : Z -> state -> result state) (i : Z).

(** A single thread running a statement list to its end.  A loop entered
    at index [i] makes [ssl_num_locks - i] turns: its body leaves the bound
    alone, and nobody else is there to change it. *)
Fixpoint solo (k : list instr) (g : state) : result state :=
  match k with
  | [] => Ok g
  | Do f :: k' => do g1 <- f g; solo k' g1
  | ForSlot body i :: k' =>
      do g1 <- for_each_slot body (Z.to_nat (ssl_num_locks g - i)) i g; solo k' g1
  end.

(** One statement, or one turn of a loop with its test [i < ssl_num_locks]. *)
Definition instr_step (k : list instr) (g : state) : result (list instr * state) :=
  match k with
  | [] => Ok ([], g)
  | Do f :: k' => do g1 <- f g; Ok (k', g1)
  | ForSlot body i :: k' =>
      if i <? ssl_num_locks g
      then do g1 <- body i g; Ok (ForSlot body (i + 1) :: k', g1)
      else Ok (k', g)
  end.

(** ** init *)

(** The block guarded by [++crypto_refs == 1], statement by statement. *)
Definition setup_prog (e : libcrypto) : list instr :=
  let pthread_mutex_attr :=
    pthread_mutexattr_settype pthread_mutexattr_init PTHREAD_MUTEX_RECURSIVE in
  [ Do (fun g => Ok (log [E_OpenSSL_add_all_algorithms] g));
    Do (fun g => Ok (log [E_ERR_load_crypto_strings] g));
    Do (fun g => Ok (set_ssl_num_locks (Z.max (CRYPTO_num_locks e) 0)
                       (log [E_CRYPTO_num_locks] g)));
    Do (fun g => if 0 <? ssl_num_locks g then new_mutexes e g else Ok g);
    Do (fun g => Ok (log [E_pthread_mutexattr_init] g));
    Do (fun g => Ok (log [E_pthread_mutexattr_settype PTHREAD_MUTEX_RECURSIVE] g));
    ForSlot (fun i g => update_mutex i (fun _ => pthread_mutex_init pthread_mutex_attr)
                          (log [E_pthread_mutex_init i] g)) 0;
    Do (fun g => Ok (set_callbacks true (id_callback g)
                       (log [E_CRYPTO_set_locking_callback true] g)));
    Do (fun g => Ok (set_callbacks (locking_callback g) true
                       (log [E_CRYPTO_set_id_callback true] g)));
    Do (fun g => Ok (log [E_OPENSSL_config] g)) ].

Definition init_setup (e : libcrypto) (g : state) : result state :=
  solo (setup_prog e) g.

(** The block under [std::lock_guard l(init_records.lock)]; [self] is the
    identity [CRYPTO_THREADID_current] stores for the calling thread.
    This is the block when [emplace_back] gets the memory it asks for;
    [init_record_or_throw] below has the other path as well. *)
Definition init_record (self : CRYPTO_THREADID) (g : state) : state :=
  let g := log [E_lock_init_records] g in
  let tmp := self in
  let g := log [E_CRYPTO_THREADID_current tmp] g in
  let g := set_tids (tids g ++ [tmp]) g in
  log [E_unlock_init_records] g.

Definition init (e : libcrypto) (self : CRYPTO_THREADID) (g : state) : result state :=
  let g := incr_crypto_refs g in
  do g <- (if crypto_refs g =? 1 then init_setup e g else Ok g);
  Ok (init_record self g).

(** *** init when the registry cannot grow

    [init_records.tids.emplace_back] may have to allocate.  [init_record]
    and [init] above are the call with memory to be had; when the
    allocation fails, [emplace_back] throws [std::bad_alloc] and leaves
    the vector as it was, the [lock_guard] releases the registry's lock
    while the stack unwinds, and the exception leaves [init]: no handler
    in the file is around it (the one of the setup block covers the
    [new[]] only). *)

Inductive outcome : Type :=
| Finished (r : result state)    (* returned, asserted or faulted, as above *)
| Throws (g : state).            (* std::bad_alloc reaches the caller; the globals then *)

(** The block under the lock; [emplace_back_succeeds] says whether the
    vector gets its memory. *)
Definition init_record_or_throw (emplace_back_succeeds : bool) (self : CRYPTO_THREADID)
    (g : state) : outcome :=
  let g := log [E_lock_init_records] g in
  let tmp := self in
  let g := log [E_CRYPTO_THREADID_current tmp] g in
  if emplace_back_succeeds then
    let g := set_tids (tids g ++ [tmp]) g in
    Finished (Ok (log [E_unlock_init_records] g))
  else Throws (log [E_unlock_init_records] g).

Definition init_or_throw (e : libcrypto) (emplace_back_succeeds : bool)
    (self : CRYPTO_THREADID) (g : state) : outcome :=
  let g := incr_crypto_refs g in
  match (if crypto_refs g =? 1 then init_setup e g else Ok g) with
  | Ok g => init_record_or_throw emplace_back_succeeds self g
  | AssertFail msg => Finished (AssertFail msg)
  | Fault => Finished Fault
  end.

(** ** shutdown *)

(** The block under the lock: one [ERR_remove_thread_state] per recorded
    identity, in the vector's order. *)
Definition shutdown_drain (g : state) : state :=
  let g := log [E_lock_init_records] g in
  let g := log (map E_ERR_remove_thread_state (tids g)) g in
  log [E_unlock_init_records] g.

(** Everything after that block, statement by statement. *)
Definition cleanup_prog : list instr :=
  [ Do (fun g => Ok (set_callbacks false (id_callback g)
                       (log [E_CRYPTO_set_locking_callback false] g)));
    Do (fun g => Ok (set_callbacks (locking_callback g) false
                       (log [E_CRYPTO_set_id_callback false] g)));
    Do (fun g => Ok (log [E_ENGINE_cleanup] g));
    Do (fun g => Ok (log [E_CONF_modules_free] g));
    Do (fun g => Ok (log [E_CONF_modules_unload 1] g));
    Do (fun g => Ok (log [E_ERR_free_strings] g));
    Do (fun g => Ok (log [E_EVP_cleanup] g));
    Do (fun g => Ok (log [E_CRYPTO_cleanup_all_ex_data] g));
    ForSlot (fun i g => update_mutex i pthread_mutex_destroy
                          (log [E_pthread_mutex_destroy i] g)) 0;
    Do (fun g => Ok (log [E_delete_mutexes] g));
    Do (fun g => Ok (set_ssl_mutexes None g)) ].

Definition shutdown_cleanup (g : state) : result state :=
  solo cleanup_prog g.

Definition shutdown (g : state) : result state :=
  let g := decr_crypto_refs g in
  if negb (crypto_refs g =? 0) then Ok g
  else shutdown_cleanup (shutdown_drain g).

(** ** The callbacks handed to libcrypto *)

(** Whether a call that returned at all came back, still waits for another
    thread, or can never come back. *)
Inductive progress (A : Type) : Type :=
| Returns (a : A)
| Waits
| Hangs.

Arguments Returns {A} a.
Arguments Waits {A}.
Arguments Hangs {A}.

(** [mode & 1] selects lock or unlock; the return value of the pthread
    call is dropped. *)
Definition ssl_locking_callback (self : CRYPTO_THREADID) (mode mutex_num : Z)
    (g : state) : result (progress state) :=
  match ssl_mutexes g with
  | None => Fault
  | Some tbl =>
      if 0 <=? mutex_num then
        match tbl !! Z.to_nat mutex_num with
        | None => Fault
        | Some m =>
            if negb (Z.land mode 1 =? 0) then
              match pthread_mutex_lock self m with
              | Acquired m' =>
                  Ok (Returns (set_ssl_mutexes (Some (<[Z.to_nat mutex_num := m']> tbl)) g))
              | Blocks => Ok Waits
              | Deadlock => Ok Hangs
              | LockError => Ok (Returns g)
              end
            else
              match pthread_mutex_unlock self m with
              | Some m' =>
                  Ok (Returns (set_ssl_mutexes (Some (<[Z.to_nat mutex_num := m']> tbl)) g))
              | None => Ok (Returns g)
              end
        end
      else Fault
  end.

(** The callback over mutexes with a maximum recursion count: [EAGAIN]
    is dropped like any other result of the pthread call. *)
Definition ssl_locking_callback_upto (max_depth : nat) (self : CRYPTO_THREADID)
    (mode mutex_num : Z) (g : state) : result (progress state) :=
  match ssl_mutexes g with
  | None => Fault
  | Some tbl =>
      if 0 <=? mutex_num then
        match tbl !! Z.to_nat mutex_num with
        | None => Fault
        | Some m =>
            if negb (Z.land mode 1 =? 0) then
              match pthread_mutex_lock_upto max_depth self m with
              | Acquired m' =>
                  Ok (Returns (set_ssl_mutexes (Some (<[Z.to_nat mutex_num := m']> tbl)) g))
              | Blocks => Ok Waits
              | Deadlock => Ok Hangs
              | LockError => Ok (Returns g)
              end
            else
              match pthread_mutex_unlock self m with
              | Some m' =>
                  Ok (Returns (set_ssl_mutexes (Some (<[Z.to_nat mutex_num := m']> tbl)) g))
              | None => Ok (Returns g)
              end
        end
      else Fault
  end.

(** [memcpy] of the [pthread_t] into a zeroed [unsigned long] at least as
    wide: the same bits, read as a number. *)
Definition ssl_get_thread_id (pthread_self : Z) : Z := pthread_self.

Definition CRYPTO_LOCK : Z := 1.
Definition CRYPTO_UNLOCK : Z := 2.

(** ** Caller memory, as the digest wrapper sees it *)

(** An address holds a byte or is not mapped. *)
Definition memory : Type := Z -> option Byte.byte.

(** Reading [n] bytes from [p] upwards; nothing comes back when one of the
    addresses is not mapped. *)
Fixpoint load (m : memory) (p : Z) (n : nat) : option (list Byte.byte) :=
  match n with
  | O => Some []
  | S n' =>
      match m p, load m (p + 1) n' with
      | Some b, Some bs => Some (b :: bs)
      | _, _ => None
      end
  end.

Definition poke (m : memory) (p : Z) (b : Byte.byte) : memory :=
  fun a => if a =? p then Some b else m a.

Fixpoint store (m : memory) (p : Z) (bs : list Byte.byte) : option memory :=
  match bs with
  | [] => Some m
  | b :: bs' =>
      match m p with
      | Some _ => store (poke m p b) (p + 1) bs'
      | None => None
      end
  end.

(** ** The EVP digest interface of libcrypto *)

Record evp_backend : Type := {
  EVP_MD : Type;                 (* what a [const EVP_MD *] designates *)
  EVP_MD_CTX : Type;             (* what an [EVP_MD_CTX *] designates *)
  EVP_MD_size : EVP_MD -> Z;     (* the digest length of an algorithm *)
  EVP_MD_CTX_create : EVP_MD_CTX;
  EVP_DigestInit_ex : EVP_MD_CTX -> EVP_MD -> EVP_MD_CTX;
  EVP_DigestUpdate : EVP_MD_CTX -> list Byte.byte -> EVP_MD_CTX;
  (* the context afterwards, the bytes put at [md], the number put in [*s] *)
  EVP_DigestFinal_ex : EVP_MD_CTX -> EVP_MD_CTX * list Byte.byte * Z
}.

Inductive evp_call : Type :=
| E_EVP_MD_CTX_create
| E_EVP_DigestInit_ex
| E_EVP_DigestUpdate (input length : Z)
| E_EVP_DigestFinal_ex (digest : Z).

Section Digest.

Context {B : evp_backend}.

Record OpenSSLDigest : Type := {
  mpContext : EVP_MD_CTX B;
  mpType : EVP_MD B;
  evp_calls : list evp_call      (* the calls made on [mpContext] so far *)
}.

Definition Restart (d : OpenSSLDigest) : OpenSSLDigest :=
  {| mpContext := EVP_DigestInit_ex B (mpContext d) (mpType d);
     mpType := mpType d;
     evp_calls := evp_calls d ++ [E_EVP_DigestInit_ex] |}.

(** The constructor. *)
Definition OpenSSLDigest_new (_type : EVP_MD B) : OpenSSLDigest :=
  Restart {| mpContext := EVP_MD_CTX_create B;
             mpType := _type;
             evp_calls := [E_EVP_MD_CTX_create] |}.

(** [Update(input, length)]: libcrypto reads [length] bytes at [input],
    and only when [length] is not zero. *)
Definition Update (d : OpenSSLDigest) (m : memory) (input length : Z)
  : result OpenSSLDigest :=
  if negb (length =? 0) then
    match load m input (Z.to_nat length) with
    | Some bytes =>
        Ok {| mpContext := EVP_DigestUpdate B (mpContext d) bytes;
              mpType := mpType d;
              evp_calls := evp_calls d ++ [E_EVP_DigestUpdate input length] |}
    | None => Fault
    end
  else Ok d.

(** [Final(digest)]: libcrypto writes at [digest] and sets the local [s],
    which goes out of scope unread. *)
Definition Final (d : OpenSSLDigest) (m : memory) (digest : Z)
  : result (OpenSSLDigest * memory) :=
  let '(ctx, md, s) := EVP_DigestFinal_ex B (mpContext d) in
  match store m digest md with
  | Some m' =>
      Ok ({| mpContext := ctx;
             mpType := mpType d;
             evp_calls := evp_calls d ++ [E_EVP_DigestFinal_ex digest] |}, m')
  | None => Fault
  end.

(** A sequence of [Update] calls, each with its own buffer and length. *)
Fixpoint Updates (d : OpenSSLDigest) (m : memory) (calls : list (Z * Z))
  : result OpenSSLDigest :=
  match calls with
  | [] => Ok d
  | (input, length) :: rest => do d1 <- Update d m input length; Updates d1 m rest
  end.

End Digest.

Arguments OpenSSLDigest B : clear implicits.

(** The memory a finished call leaves behind. *)
Definition output {A : Type} (r : result (A * memory)) : result memory :=
  do x <- r; Ok (snd x).

(** ** Several threads inside init and shutdown

    A thread inside [init] or [shutdown] advances one step at a time, and
    between two of its steps any other thread may run.  A step is: the
    atomic update of [crypto_refs] together with the test of the value it
    returned; one statement of a one-time block, or one turn of its loop;
    a whole block under [init_records.lock], which that mutex makes
    indivisible for every other thread that touches the registry. *)

Inductive pc : Type :=
| InitEntry                          (* about to execute ++crypto_refs == 1 *)
| InitSetup (k : list instr)         (* saw 1: [k] is left of the one-time block *)
| InitRecord                         (* about to record its identity *)
| ShutdownEntry                      (* about to execute --crypto_refs != 0 *)
| ShutdownDrain                      (* saw 0: about to walk init_records.tids *)
| ShutdownCleanup (k : list instr)   (* [k] is left of the cleanup *)
| Returned.

Definition thread_step (e : libcrypto) (self : CRYPTO_THREADID) (p : pc) (g : state)
  : result (pc * state) :=
  match p with
  | InitEntry =>
      let g := incr_crypto_refs g in
      Ok (if crypto_refs g =? 1 then InitSetup (setup_prog e) else InitRecord, g)
  | InitSetup [] => Ok (InitRecord, g)
  | InitSetup k => do r <- instr_step k g; Ok (InitSetup (fst r), snd r)
  | InitRecord => Ok (Returned, init_record self g)
  | ShutdownEntry =>
      let g := decr_crypto_refs g in
      Ok (if negb (crypto_refs g =? 0) then Returned else ShutdownDrain, g)
  | ShutdownDrain => Ok (ShutdownCleanup cleanup_prog, shutdown_drain g)
  | ShutdownCleanup [] => Ok (Returned, g)
  | ShutdownCleanup k => do r <- instr_step k g; Ok (ShutdownCleanup (fst r), snd r)
  | Returned => Ok (Returned, g)
  end.

(** [m] steps of one thread with nobody else around. *)
Fixpoint steps (e : libcrypto) (self : CRYPTO_THREADID) (m : nat) (p : pc) (g : state)
  : result (pc * state) :=
  match m with
  | O => Ok (p, g)
  | S m' => do r <- thread_step e self p g; steps e self m' (fst r) (snd r)
  end.

Record config : Type := {
  threads : list (CRYPTO_THREADID * pc);
  shared : state
}.

(** The scheduler picks thread [i] for its next step; picking a thread
    that has returned (or no thread at all) changes nothing. *)
Definition sched_step (e : libcrypto) (i : nat) (c : config) : result config :=
  match threads c !! i with
  | Some (self, p) =>
      do r <- thread_step e self p (shared c);
      Ok {| threads := <[i := (self, fst r)]> (threads c); shared := snd r |}
  | None => Ok c
  end.

Fixpoint run (e : libcrypto) (sched : list nat) (c : config) : result config :=
  match sched with
  | [] => Ok c
  | i :: rest => do c1 <- sched_step e i c; run e rest c1
  end.

(** One thread per identity in [ids], all at the same entry point. *)
Definition spawn (entry : pc) (ids : list CRYPTO_THREADID) (g : state) : config :=
  {| threads := map (fun t => (t, entry)) ids; shared := g |}.

Definition has_returned (t : CRYPTO_THREADID * pc) : bool :=
  match snd t with Returned => true | _ => false end.

Definition all_returned (c : config) : bool := forallb has_returned (threads c).

(** The thread list when the first [j] threads have run to the end, one
    after the other, and the others have not started. *)
Definition lined_up (entry : pc) (ids : list CRYPTO_THREADID) (j : nat)
  : list (CRYPTO_THREADID * pc) :=
  map (fun t => (t, Returned)) (take j ids) ++ map (fun t => (t, entry)) (drop j ids).

(** ** The call sequences of the two one-time blocks *)

Definition slots (n : Z) : list Z := map Z.of_nat (seq 0 (Z.to_nat n)).

Definition setup_calls (e : libcrypto) : list call :=
  let n := Z.max (CRYPTO_num_locks e) 0 in
  [E_OpenSSL_add_all_algorithms; E_ERR_load_crypto_strings; E_CRYPTO_num_locks]
  ++ (if 0 <? n then [E_new_mutexes n] else [])
  ++ [E_pthread_mutexattr_init; E_pthread_mutexattr_settype PTHREAD_MUTEX_RECURSIVE]
  ++ map E_pthread_mutex_init (slots n)
  ++ [E_CRYPTO_set_locking_callback true; E_CRYPTO_set_id_callback true;
      E_OPENSSL_config].

Definition record_calls (self : CRYPTO_THREADID) : list call :=
  [E_lock_init_records; E_CRYPTO_THREADID_current self; E_unlock_init_records].

Definition drain_calls (ids : list CRYPTO_THREADID) : list call :=
  [E_lock_init_records] ++ map E_ERR_remove_thread_state ids
  ++ [E_unlock_init_records].

Definition uninstall_calls : list call :=
  [E_CRYPTO_set_locking_callback false; E_CRYPTO_set_id_callback false].

Definition library_cleanup_calls : list call :=
  [E_ENGINE_cleanup; E_CONF_modules_free; E_CONF_modules_unload 1;
   E_ERR_free_strings; E_EVP_cleanup; E_CRYPTO_cleanup_all_ex_data].

Definition free_table_calls (n : Z) : list call :=
  map E_pthread_mutex_destroy (slots n) ++ [E_delete_mutexes].

Definition shutdown_calls (ids : list CRYPTO_THREADID) (n : Z) : list call :=
  drain_calls ids ++ uninstall_calls ++ library_cleanup_calls ++ free_table_calls n.

(** The calls that only serve the bookkeeping of [init_records]. *)
Definition is_bookkeeping (c : call) : bool :=
  match c with
  | E_lock_init_records | E_unlock_init_records | E_CRYPTO_THREADID_current _ => true
  | _ => false
  end.

Definition lifecycle (evs : list call) : list call :=
  List.filter (fun c => negb (is_bookkeeping c)) evs.

(** A lock table as [init_setup] leaves it. *)
Definition fresh_mutex : pthread_mutex_t := MutexLive PTHREAD_MUTEX_RECURSIVE None 0.

Definition lock_table (g : state) : list pthread_mutex_t :=
  match ssl_mutexes g with
  | Some tbl => tbl
  | None => []
  end.

(** ** States the one-time blocks lead to *)

(** The globals once [init_setup] has run through. *)
Definition after_setup (e : libcrypto) (g : state) : state :=
  let n := Z.max (CRYPTO_num_locks e) 0 in
  {| crypto_refs := crypto_refs g;
     ssl_mutexes := if 0 <? n then Some (replicate (Z.to_nat n) fresh_mutex)
                    else ssl_mutexes g;
     ssl_num_locks := n;
     tids := tids g;
     locking_callback := true;
     id_callback := true;
     trace := trace g ++ setup_calls e |}.

(** The table has a mutex for every index below [ssl_num_locks]. *)
Definition table_ready (g : state) : Prop :=
  (Z.to_nat (ssl_num_locks g) <= length (lock_table g))%nat.

(** The globals once [shutdown_cleanup] has run through. *)
Definition after_cleanup (g : state) : state :=
  {| crypto_refs := crypto_refs g;
     ssl_mutexes := None;
     ssl_num_locks := ssl_num_locks g;
     tids := tids g;
     locking_callback := false;
     id_callback := false;
     trace := trace g ++ uninstall_calls ++ library_cleanup_calls
                ++ free_table_calls (ssl_num_locks g) |}.

(** ** Counting the threads at a program point *)

Inductive place : Type :=
| AtInitEntry | AtInitSetup | AtInitRecord
| AtShutdownEntry | AtShutdownDrain | AtShutdownCleanup | AtReturned.

Definition place_of (p : pc) : place :=
  match p with
  | InitEntry => AtInitEntry
  | InitSetup _ => AtInitSetup
  | InitRecord => AtInitRecord
  | ShutdownEntry => AtShutdownEntry
  | ShutdownDrain => AtShutdownDrain
  | ShutdownCleanup _ => AtShutdownCleanup
  | Returned => AtReturned
  end.

Definition place_eqb (a b : place) : bool :=
  match a, b with
  | AtInitEntry, AtInitEntry | AtInitSetup, AtInitSetup | AtInitRecord, AtInitRecord
  | AtShutdownEntry, AtShutdownEntry | AtShutdownDrain, AtShutdownDrain
  | AtShutdownCleanup, AtShutdownCleanup | AtReturned, AtReturned => true
  | _, _ => false
  end.

Fixpoint count_at (q : place) (ts : list (CRYPTO_THREADID * pc)) : nat :=
  match ts with
  | [] => 0
  | t :: rest => ((if place_eqb (place_of (snd t)) q then 1 else 0) + count_at q rest)%nat
  end.

(** ** What the other threads cannot change under a one-time block

    While one thread is inside a one-time block, the others only move
    [crypto_refs] and append to the registry and to its part of the trace.
    Two states that differ in nothing else are the same to the block. *)

Definition same_core (g h : state) : Prop :=
  ssl_mutexes g = ssl_mutexes h
  /\ ssl_num_locks g = ssl_num_locks h
  /\ locking_callback g = locking_callback h
  /\ id_callback g = id_callback h
  /\ lifecycle (trace g) = lifecycle (trace h).

Definition same_outcome (r s : result state) : Prop :=
  match r, s with
  | Ok g, Ok h => same_core g h
  | AssertFail a, AssertFail b => a = b
  | Fault, Fault => True
  | _, _ => False
  end.

Definition respects_core (f : state -> result state) : Prop :=
  forall g h, same_core g h -> same_outcome (f g) (f h).

(** The counter and the registry are not the block's business. *)
Definition keeps_registry (f : state -> result state) : Prop :=
  forall g g1, f g = Ok g1 -> crypto_refs g1 = crypto_refs g /\ tids g1 = tids g.

(** A statement the other threads cannot disturb, and that does not
    disturb them; a loop body moreover leaves the loop bound alone. *)
Definition steady (i : instr) : Prop :=
  match i with
  | Do f => respects_core f /\ keeps_registry f
  | ForSlot body _ =>
      (forall j, respects_core (body j) /\ keeps_registry (body j))
      /\ (forall j g g1, body j g = Ok g1 -> ssl_num_locks g1 = ssl_num_locks g)
  end.

(** ** Invariants of [N] threads inside init, and of [N] threads inside shutdown *)

(** What the one-time setup has achieved once it is through. *)
Definition setup_done (e : libcrypto) (g0 g : state) : Prop :=
  lifecycle (trace g) = lifecycle (trace g0) ++ setup_calls e
  /\ ssl_num_locks g = Z.max (CRYPTO_num_locks e) 0
  /\ table_ready g.

(** What is left of the one-time setup leads to [setup_done], if it does
    not end in the failed assertion; and it does not, when the table can
    be allocated. *)
Definition setup_pending (e : libcrypto) (g0 : state) (k : list instr) (g : state)
  : Prop :=
  Forall steady k
  /\ (forall g', solo k g = Ok g' -> setup_done e g0 g')
  /\ (new_succeeds e = true \/ CRYPTO_num_locks e <= 0 -> exists g', solo k g = Ok g').

(** What is left of the cleanup runs through and completes the shutdown
    sequence. *)
Definition cleanup_pending (g1 : state) (k : list instr) (g : state) : Prop :=
  Forall steady k
  /\ exists g', solo k g = Ok g'
               /\ lifecycle (trace g')
                  = lifecycle (trace g1)
                      ++ lifecycle (shutdown_calls (tids g1) (ssl_num_locks g1)).

(** While the threads of [spawn InitEntry ids g0] run: either nobody has
    incremented yet; or the thread that saw 1 is somewhere in the one-time
    block; or the block has run, once. *)
Definition init_stage (e : libcrypto) (g0 : state) (N : nat) (c : config) : Prop :=
  (count_at AtInitEntry (threads c) = N
   /\ count_at AtInitSetup (threads c) = 0%nat
   /\ lifecycle (trace (shared c)) = lifecycle (trace g0))
  \/
  ((count_at AtInitEntry (threads c) < N)%nat
   /\ count_at AtInitSetup (threads c) = 1%nat
   /\ forall t k, In (t, InitSetup k) (threads c) ->
         setup_pending e g0 k (shared c))
  \/
  ((count_at AtInitEntry (threads c) < N)%nat
   /\ count_at AtInitSetup (threads c) = 0%nat
   /\ setup_done e g0 (shared c)).

Record init_inv (e : libcrypto) (g0 : state) (N : nat) (c : config) : Prop := {
  init_inv_length : length (threads c) = N;
  init_inv_pcs :
    count_at AtShutdownEntry (threads c) = 0%nat
    /\ count_at AtShutdownDrain (threads c) = 0%nat
    /\ count_at AtShutdownCleanup (threads c) = 0%nat;
  init_inv_refs :
    crypto_refs (shared c) = Z.of_nat (N - count_at AtInitEntry (threads c));
  init_inv_stage : init_stage e g0 N c
}.

(** While the threads of [spawn ShutdownEntry ids g1] run: either some
    thread has not decremented yet; or the thread that saw 0 is about to
    walk the registry; or it is somewhere in the cleanup; or the sequence
    has run, once. *)
Definition shutdown_stage (g1 : state) (c : config) : Prop :=
  ((0 < count_at AtShutdownEntry (threads c))%nat
   /\ count_at AtShutdownDrain (threads c) = 0%nat
   /\ count_at AtShutdownCleanup (threads c) = 0%nat
   /\ lifecycle (trace (shared c)) = lifecycle (trace g1)
   /\ ssl_num_locks (shared c) = ssl_num_locks g1
   /\ tids (shared c) = tids g1
   /\ table_ready (shared c))
  \/
  (count_at AtShutdownEntry (threads c) = 0%nat
   /\ count_at AtShutdownDrain (threads c) = 1%nat
   /\ count_at AtShutdownCleanup (threads c) = 0%nat
   /\ lifecycle (trace (shared c)) = lifecycle (trace g1)
   /\ ssl_num_locks (shared c) = ssl_num_locks g1
   /\ tids (shared c) = tids g1
   /\ table_ready (shared c))
  \/
  (count_at AtShutdownEntry (threads c) = 0%nat
   /\ count_at AtShutdownDrain (threads c) = 0%nat
   /\ count_at AtShutdownCleanup (threads c) = 1%nat
   /\ forall t k, In (t, ShutdownCleanup k) (threads c) ->
         cleanup_pending g1 k (shared c))
  \/
  (count_at AtShutdownEntry (threads c) = 0%nat
   /\ count_at AtShutdownDrain (threads c) = 0%nat
   /\ count_at AtShutdownCleanup (threads c) = 0%nat
   /\ lifecycle (trace (shared c))
      = lifecycle (trace g1)
          ++ lifecycle (shutdown_calls (tids g1) (ssl_num_locks g1))).

Record shutdown_inv (g1 : state) (N : nat) (c : config) : Prop := {
  shutdown_inv_length : length (threads c) = N;
  shutdown_inv_pcs :
    count_at AtInitEntry (threads c) = 0%nat
    /\ count_at AtInitSetup (threads c) = 0%nat
    /\ count_at AtInitRecord (threads c) = 0%nat;
  shutdown_inv_refs :
    crypto_refs (shared c) = Z.of_nat (count_at AtShutdownEntry (threads c));
  shutdown_inv_stage : shutdown_stage g1 c
}.

(** ** Concrete environments for the examples *)

(** A libcrypto asking for three lock slots, with memory to spare. *)
Definition three_locks : libcrypto :=
  {| CRYPTO_num_locks := 3; new_succeeds := true |}.

(** The same libcrypto in a process that has run out of memory. *)
Definition out_of_memory : libcrypto :=
  {| CRYPTO_num_locks := 3; new_succeeds := false |}.

(** Zero-filled memory on the addresses [lo <= a < hi], nothing elsewhere. *)
Definition ram (lo hi : Z) : memory :=
  fun a => if (lo <=? a) && (a <? hi) then Some Byte.x00 else None.

Definition byte_of_Z (z : Z) : Byte.byte :=
  match Byte.of_N (Z.to_N z) with
  | Some b => b
  | None => Byte.x00
  end.

Definition sum8 (acc : Z) (bytes : list Byte.byte) : Z :=
  fold_left (fun a b => (a + Z.of_N (Byte.to_N b)) mod 256) bytes acc.

(** A one-byte additive checksum behind the EVP interface: a digest simple
    enough to run inside the examples. *)
Definition sum8_backend : evp_backend :=
  {| EVP_MD := unit;
     EVP_MD_CTX := Z;
     EVP_MD_size := fun _ => 1;
     EVP_MD_CTX_create := 0;
     EVP_DigestInit_ex := fun _ _ => 0;
     EVP_DigestUpdate := sum8;
     EVP_DigestFinal_ex := fun c => (c, [byte_of_Z c], 1) |}.

(** The same checksum registered as a 16-byte algorithm: its finalizer
    still puts one byte at [md] and 1 in [*s]. *)
Definition short_backend : evp_backend :=
  {| EVP_MD := unit;
     EVP_MD_CTX := Z;
     EVP_MD_size := fun _ => 16;
     EVP_MD_CTX_create := 0;
     EVP_DigestInit_ex := fun _ _ => 0;
     EVP_DigestUpdate := sum8;
     EVP_DigestFinal_ex := fun c => (c, [byte_of_Z c], 1) |}.

(** What libcrypto's finalizer writes and reports for a digest object. *)
Definition final_bytes {B : evp_backend} (d : OpenSSLDigest B) : list Byte.byte :=
  snd (fst (EVP_DigestFinal_ex B (mpContext d))).

Definition final_size {B : evp_backend} (d : OpenSSLDigest B) : Z :=
  snd (EVP_DigestFinal_ex B (mpContext d)).

(** What [Update] passes on to libcrypto: nothing at all for no bytes. *)
Definition feed {B : evp_backend} (c : EVP_MD_CTX B) (bytes : list Byte.byte)
  : EVP_MD_CTX B :=
  match bytes with
  | [] => c
  | _ :: _ => EVP_DigestUpdate B c bytes
  end.

(** libcrypto digests a stream: two calls with non-empty inputs amount to
    one call with their concatenation. *)
Definition streaming (B : evp_backend) : Prop :=
  forall (c : EVP_MD_CTX B) (a b : list Byte.byte),
    a <> [] -> b <> [] ->
    EVP_DigestUpdate B (EVP_DigestUpdate B c a) b = EVP_DigestUpdate B c (a ++ b).

Definition state_of (r : result state) : state :=
  match r with
  | Ok g => g
  | _ => initial_state
  end.

Definition config_of (r : result config) : config :=
  match r with
  | Ok c => c
  | _ => spawn Returned [] initial_state
  end.

(** A fresh process after one acquire by thread 7, after a second one by
    thread 8, and after thread 7's acquire has been released again. *)
Definition one_holder : state :=
  Eval vm_compute in state_of (init three_locks 7 initial_state).

Definition two_holders : state :=
  Eval vm_compute in state_of (init three_locks 8 one_holder).

Definition drained : state :=
  Eval vm_compute in state_of (shutdown one_holder).

(** Three threads in init.  Thread 12 increments first and so owns the
    one-time block; 13 records itself and returns while 12 is still
    allocating the table, 11 while 12 is in the middle of the loop. *)
Definition three_inits : list nat :=
  [1; 0; 1; 2; 1; 1; 2; 1; 1; 1; 1; 0; 1; 1; 1; 1; 1; 1; 1; 1; 1]%nat.

Definition after_three_inits : config :=
  Eval vm_compute in
    config_of (run three_locks three_inits (spawn InitEntry [11; 12; 13] initial_state)).

(** Three threads in shutdown; the last to decrement runs both blocks. *)
Definition three_shutdowns : list nat := ([2; 0] ++ repeat 1 17)%nat.

Definition after_three_shutdowns : config :=
  Eval vm_compute in
    config_of (run three_locks three_shutdowns
                 (spawn ShutdownEntry [12; 13; 11] (shared after_three_inits))).

(** Five message bytes at addresses 100..104 and a zeroed buffer at
    200..215; nothing is mapped anywhere else. *)
Definition message : list Byte.byte :=
  [Byte.x01; Byte.x02; Byte.x03; Byte.x04; Byte.x05].

Definition example_memory : memory :=
  fun a =>
    if a =? 100 then Some Byte.x01
    else if a =? 101 then Some Byte.x02
    else if a =? 102 then Some Byte.x03
    else if a =? 103 then Some Byte.x04
    else if a =? 104 then Some Byte.x05
    else ram 200 216 a.

(** * The callers' side: histories of calls, lock requests, object lifetimes *)

(** ** The public entry points

    [ceph::crypto::init] and [ceph::crypto::shutdown] forward to the two
    functions above; the flag of the second is not used. *)

Definition ceph_crypto_init (e : libcrypto) (self : CRYPTO_THREADID) (g : state)
  : result state :=
  init e self g.

Definition ceph_crypto_shutdown (shared : bool) (g : state) : result state :=
  shutdown g.

(** A caller's history: calls of the public entry points made one after
    the other, each by the thread named in it. *)
Inductive api_call : Type :=
| call_init (self : CRYPTO_THREADID)
| call_shutdown (shared : bool).

Definition api_step (e : libcrypto) (a : api_call) (g : state) : result state :=
  match a with
  | call_init self => ceph_crypto_init e self g
  | call_shutdown shared => ceph_crypto_shutdown shared g
  end.

Fixpoint api_run (e : libcrypto) (h : list api_call) (g : state) : result state :=
  match h with
  | [] => Ok g
  | a :: rest => do g1 <- api_step e a g; api_run e rest g1
  end.

(** The holders a history leaves on top of [n], when none of its releases
    comes without a holder. *)
Fixpoint holders (n : nat) (h : list api_call) : option nat :=
  match h with
  | [] => Some n
  | call_init _ :: rest => holders (S n) rest
  | call_shutdown _ :: rest =>
      match n with
      | O => None
      | S k => holders k rest
      end
  end.

(** The threads that called [init], in the order of their calls. *)
Fixpoint callers (h : list api_call) : list CRYPTO_THREADID :=
  match h with
  | [] => []
  | call_init self :: rest => self :: callers rest
  | call_shutdown _ :: rest => callers rest
  end.

(** The same call, up to the flag passed to [shutdown]. *)
Definition same_call (a b : api_call) : Prop :=
  match a, b with
  | call_init self, call_init self' => self = self'
  | call_shutdown _, call_shutdown _ => True
  | _, _ => False
  end.

(** No lock table and no callback of ours registered: a fresh process, or
    one whose last holder has released. *)
Definition at_rest (g : state) : Prop :=
  ssl_mutexes g = None /\ locking_callback g = false /\ id_callback g = false.

(** Both callbacks registered over a table of [max(CRYPTO_num_locks(), 0)]
    initialised mutexes that nobody holds. *)
Definition live (e : libcrypto) (g : state) : Prop :=
  locking_callback g = true
  /\ id_callback g = true
  /\ ssl_num_locks g = Z.max (CRYPTO_num_locks e) 0
  /\ lock_table g = replicate (Z.to_nat (Z.max (CRYPTO_num_locks e) 0)) fresh_mutex.

(** The setup calls of a libcrypto that asks for no lock slot. *)
Definition setup_calls_without_table : list call :=
  [E_OpenSSL_add_all_algorithms; E_ERR_load_crypto_strings; E_CRYPTO_num_locks;
   E_pthread_mutexattr_init; E_pthread_mutexattr_settype PTHREAD_MUTEX_RECURSIVE;
   E_CRYPTO_set_locking_callback true; E_CRYPTO_set_id_callback true;
   E_OPENSSL_config].

(** ** The locking callback, called several times in a row *)

(** [k] calls by the same thread with the same arguments, as long as each
    one returns. *)
Fixpoint callback_times (k : nat) (self : CRYPTO_THREADID) (mode mutex_num : Z)
    (g : state) : result (progress state) :=
  match k with
  | O => Ok (Returns g)
  | S k' =>
      match ssl_locking_callback self mode mutex_num g with
      | Ok (Returns g1) => callback_times k' self mode mutex_num g1
      | r => r
      end
  end.

(** The globals with slot [i] of the lock table replaced. *)
Definition with_slot (i : Z) (m : pthread_mutex_t) (g : state) : state :=
  set_ssl_mutexes (Some (<[Z.to_nat i := m]> (lock_table g))) g.

(** [ceph::crypto::init] lets the exception of [init] through. *)
Definition ceph_crypto_init_or_throw (e : libcrypto) (emplace_back_succeeds : bool)
    (self : CRYPTO_THREADID) (g : state) : outcome :=
  init_or_throw e emplace_back_succeeds self g.

(** The globals that the first acquire leaves behind when the registry
    cannot grow. *)
Definition after_throw : state :=
  Eval vm_compute in
    match init_or_throw three_locks false 7 initial_state with
    | Throws g => g
    | Finished _ => initial_state
    end.

(** [k] calls in a row of the callback over mutexes with a maximum
    recursion count. *)
Fixpoint callback_times_upto (max_depth k : nat) (self : CRYPTO_THREADID)
    (mode mutex_num : Z) (g : state) : result (progress state) :=
  match k with
  | O => Ok (Returns g)
  | S k' =>
      match ssl_locking_callback_upto max_depth self mode mutex_num g with
      | Ok (Returns g1) => callback_times_upto max_depth k' self mode mutex_num g1
      | r => r
      end
  end.

(** The globals with slot [i] held [d] times over by thread [t]. *)
Definition held_by (t : CRYPTO_THREADID) (i : Z) (d : nat) (g : state) : state :=
  with_slot i (MutexLive PTHREAD_MUTEX_RECURSIVE (Some t) d) g.

(** ** The thread identity, byte by byte *)

(** [memcpy(dst, src, n)] on object representations: the first [n] bytes
    of [dst] are replaced by the first [n] bytes of [src]. *)
Definition memcpy (dst src : list Byte.byte) (n : nat) : list Byte.byte :=
  take n src ++ drop n dst.

(** [ssl_get_thread_id] on the bytes [t] of the [pthread_t] that
    [pthread_self()] returns, for an [unsigned long] of [sizeof_ulong]
    bytes: [ret] starts as zero and receives [sizeof(pthread_t)] bytes.
    The [static_assert] lets the file compile only when
    [length t <= sizeof_ulong]. *)
Definition ssl_get_thread_id_bytes (sizeof_ulong : nat) (t : list Byte.byte)
  : list Byte.byte :=
  let ret := replicate sizeof_ulong Byte.x00 in
  memcpy ret t (length t).

(** The number that an object representation stands for on a
    little-endian machine. *)
Fixpoint little_endian (bs : list Byte.byte) : Z :=
  match bs with
  | [] => 0
  | b :: rest => Z.of_N (Byte.to_N b) + 256 * little_endian rest
  end.

(** ** The registry while acquires and releases overlap *)

Definition at_entry (t : CRYPTO_THREADID * pc) : bool :=
  match snd t with
  | InitEntry | ShutdownEntry => true
  | _ => false
  end.

(** Whether a thread that started at [p0] and is now at [p] has been
    through [init]. *)
Definition init_returned (p0 p : pc) : bool :=
  match p0, p with
  | InitEntry, Returned => true
  | _, _ => false
  end.

(** The threads of [ts0] that entered [init] and have returned in [ts]. *)
Fixpoint recorded (ts0 ts : list (CRYPTO_THREADID * pc)) : list CRYPTO_THREADID :=
  match ts0, ts with
  | t0 :: r0, t :: r =>
      if init_returned (snd t0) (snd t) then fst t0 :: recorded r0 r
      else recorded r0 r
  | _, _ => []
  end.

(** The threads of [ts0] that are about to enter [init]. *)
Definition init_callers (ts0 : list (CRYPTO_THREADID * pc)) : list CRYPTO_THREADID :=
  map fst (List.filter (fun t => init_returned (snd t) Returned) ts0).

(** Where a thread that started at [p0] can be found later. *)
Definition on_path (p0 p : pc) : Prop :=
  match p0, p with
  | InitEntry, (InitEntry | InitRecord | Returned) => True
  | InitEntry, InitSetup k => Forall steady k
  | ShutdownEntry, (ShutdownEntry | ShutdownDrain | Returned) => True
  | ShutdownEntry, ShutdownCleanup k => Forall steady k
  | _, _ => False
  end.

Definition same_thread (t0 t : CRYPTO_THREADID * pc) : Prop :=
  fst t0 = fst t /\ on_path (snd t0) (snd t).

(** Every mutex of the lock table is an initialised recursive one. *)
Definition recursive_table (g : state) : Prop :=
  Forall (fun m => exists o d, m = MutexLive PTHREAD_MUTEX_RECURSIVE o d) (lock_table g).

(** ** The locking callback and the table it works on

    libcrypto may call the locking callback from the moment it is
    registered until it is unregistered, also while the thread that runs a
    one-time block is half-way through it. *)

(** Every slot below [ssl_num_locks] holds an initialised mutex that
    nobody holds. *)
Definition initialised_table (g : state) : Prop :=
  forall j : nat,
    (j < Z.to_nat (ssl_num_locks g))%nat -> lock_table g !! j = Some fresh_mutex.

(** A statement that returns and leaves the lock table and its size
    alone. *)
Definition keeps_table (i : instr) : Prop :=
  match i with
  | Do f =>
      forall g, exists g1,
        f g = Ok g1
        /\ ssl_mutexes g1 = ssl_mutexes g /\ ssl_num_locks g1 = ssl_num_locks g
  | ForSlot body _ =>
      forall j g, exists g1,
        body j g = Ok g1
        /\ ssl_mutexes g1 = ssl_mutexes g /\ ssl_num_locks g1 = ssl_num_locks g
  end.

(** A statement that does not register the locking callback. *)
Definition quiet (i : instr) : Prop :=
  match i with
  | Do f =>
      forall g g1, f g = Ok g1 -> locking_callback g = false -> locking_callback g1 = false
  | ForSlot body _ =>
      forall j g g1,
        body j g = Ok g1 -> locking_callback g = false -> locking_callback g1 = false
  end.

(** From the first statement that may register the locking callback on,
    the table is left alone. *)
Fixpoint table_before_callback (k : list instr) : Prop :=
  match k with
  | [] => True
  | i :: k' =>
      (quiet i \/ (keeps_table i /\ Forall keeps_table k')) /\ table_before_callback k'
  end.

(** A thread that has [k] left of the one-time setup: either the callback
    is not registered yet and the statements left will have initialised
    the table before they register it; or the table is initialised and
    the statements left do not touch it. *)
Definition setup_covered (k : list instr) (g : state) : Prop :=
  (locking_callback g = false
   /\ table_before_callback k
   /\ Forall steady k
   /\ forall h, solo k g = Ok h -> initialised_table h)
  \/ (initialised_table g /\ Forall keeps_table k).

(** A thread that has [k] left of the cleanup: either it has not begun
    and the table is the one the release found; or the callback has been
    unregistered and the statements left do not register it again. *)
Definition cleanup_covered (g1 : state) (k : list instr) (g : state) : Prop :=
  (k = cleanup_prog /\ ssl_mutexes g = ssl_mutexes g1)
  \/ (locking_callback g = false /\ Forall quiet k).

Record init_cover (N : nat) (c : config) : Prop := {
  init_cover_before :
    count_at AtInitEntry (threads c) = N -> locking_callback (shared c) = false;
  init_cover_during :
    forall t k, In (t, InitSetup k) (threads c) -> setup_covered k (shared c);
  init_cover_after :
    (count_at AtInitEntry (threads c) < N)%nat ->
    count_at AtInitSetup (threads c) = 0%nat ->
    initialised_table (shared c)
}.

Record shutdown_cover (g1 : state) (c : config) : Prop := {
  shutdown_cover_before :
    (0 < count_at AtShutdownEntry (threads c) + count_at AtShutdownDrain (threads c))%nat ->
    ssl_mutexes (shared c) = ssl_mutexes g1;
  shutdown_cover_during :
    forall t k, In (t, ShutdownCleanup k) (threads c) -> cleanup_covered g1 k (shared c);
  shutdown_cover_after :
    count_at AtShutdownEntry (threads c) = 0%nat ->
    count_at AtShutdownDrain (threads c) = 0%nat ->
    count_at AtShutdownCleanup (threads c) = 0%nat ->
    locking_callback (shared c) = false
}.

(** ** Sequences of operations on a digest object *)

Inductive digest_op : Type :=
| op_Restart
| op_Update (input length : Z)
| op_Final (digest : Z).

(** libcrypto re-initialises a context for an algorithm whatever the
    context held before. *)
Definition reinitialises (B : evp_backend) : Prop :=
  forall (c c' : EVP_MD_CTX B) (t : EVP_MD B),
    EVP_DigestInit_ex B c t = EVP_DigestInit_ex B c' t.

Section DigestObjects.

Context {B : evp_backend}.

Definition apply_op (d : OpenSSLDigest B) (m : memory) (op : digest_op)
  : result (OpenSSLDigest B * memory) :=
  match op with
  | op_Restart => Ok (Restart d, m)
  | op_Update input length => do d' <- Update d m input length; Ok (d', m)
  | op_Final digest => Final d m digest
  end.

Fixpoint apply_ops (d : OpenSSLDigest B) (m : memory) (ops : list digest_op)
  : result (OpenSSLDigest B * memory) :=
  match ops with
  | [] => Ok (d, m)
  | op :: rest => do r <- apply_op d m op; apply_ops (fst r) (snd r) rest
  end.

(** *** The object and the context it owns

    [mpContext] is a pointer.  The context it designates lives in
    libcrypto's heap from [EVP_MD_CTX_create] to [EVP_MD_CTX_destroy];
    here the heap is a list of cells, an address is an index, and a
    destroyed context leaves an empty cell behind.  A libcrypto call on an
    address that holds no context is a fault. *)

Definition evp_heap : Type := list (option (EVP_MD_CTX B)).

Record digest_object : Type := {
  context_at : nat;              (* mpContext, the address *)
  type_of : EVP_MD B             (* mpType *)
}.

Definition heap_create (h : evp_heap) : nat * evp_heap :=
  (length h, h ++ [Some (EVP_MD_CTX_create B)]).

Definition heap_call (p : nat) (f : EVP_MD_CTX B -> EVP_MD_CTX B) (h : evp_heap)
  : result evp_heap :=
  match h !! p with
  | Some (Some c) => Ok (<[p := Some (f c)]> h)
  | _ => Fault
  end.

Definition heap_destroy (p : nat) (h : evp_heap) : result evp_heap :=
  match h !! p with
  | Some (Some _) => Ok (<[p := None]> h)
  | _ => Fault
  end.

Definition object_Restart (o : digest_object) (h : evp_heap) : result evp_heap :=
  heap_call (context_at o) (fun c => EVP_DigestInit_ex B c (type_of o)) h.

(** The constructor: [mpContext(EVP_MD_CTX_create())], [mpType(_type)],
    then [this->Restart()]. *)
Definition object_new (_type : EVP_MD B) (h : evp_heap)
  : result (digest_object * evp_heap) :=
  let created := heap_create h in
  let o := {| context_at := fst created; type_of := _type |} in
  do h' <- object_Restart o (snd created); Ok (o, h').

(** The destructor: [EVP_MD_CTX_destroy(mpContext)]. *)
Definition object_delete (o : digest_object) (h : evp_heap) : result evp_heap :=
  heap_destroy (context_at o) h.

Definition object_Update (o : digest_object) (m : memory) (input length : Z)
    (h : evp_heap) : result evp_heap :=
  if negb (length =? 0) then
    match load m input (Z.to_nat length) with
    | Some bytes => heap_call (context_at o) (fun c => EVP_DigestUpdate B c bytes) h
    | None => Fault
    end
  else Ok h.

Definition object_Final (o : digest_object) (m : memory) (digest : Z) (h : evp_heap)
  : result (evp_heap * memory) :=
  match h !! context_at o with
  | Some (Some c) =>
      let '(ctx, md, s) := EVP_DigestFinal_ex B c in
      match store m digest md with
      | Some m' => Ok (<[context_at o := Some ctx]> h, m')
      | None => Fault
      end
  | _ => Fault
  end.

Definition object_op (o : digest_object) (op : digest_op) (h : evp_heap) (m : memory)
  : result (evp_heap * memory) :=
  match op with
  | op_Restart => do h' <- object_Restart o h; Ok (h', m)
  | op_Update input length => do h' <- object_Update o m input length h; Ok (h', m)
  | op_Final digest => object_Final o m digest h
  end.

Fixpoint object_ops (o : digest_object) (ops : list digest_op) (h : evp_heap)
    (m : memory) : result (evp_heap * memory) :=
  match ops with
  | [] => Ok (h, m)
  | op :: rest => do r <- object_op o op h m; object_ops o rest (fst r) (snd r)
  end.

(** The object at value level that [o] stands for while its context is
    [c]. *)
Definition object_value (o : digest_object) (c : EVP_MD_CTX B) (calls : list evp_call)
  : OpenSSLDigest B :=
  {| mpContext := c; mpType := type_of o; evp_calls := calls |}.

End DigestObjects.

Arguments evp_heap B : clear implicits.
Arguments digest_object B : clear implicits.

(** ** Further concrete inputs for the examples *)

(** A libcrypto that asks for no lock slot, in a process without memory. *)
Definition no_locks : libcrypto :=
  {| CRYPTO_num_locks := 0; new_succeeds := false |}.

(** Two holders that come and go, then a third cycle begun by thread 9. *)
Definition example_history : list api_call :=
  [call_init 7; call_init 8; call_shutdown true; call_shutdown false; call_init 9].

(** The globals after thread 7's acquire, with slot 1 taken once by
    thread 7 through the locking callback. *)
Definition slot_1_held : state :=
  Eval vm_compute in with_slot 1 (MutexLive PTHREAD_MUTEX_RECURSIVE (Some 7) 1) one_holder.

(** With two holders, thread 7 releases while thread 9 acquires; thread 9
    increments first. *)
Definition overlapping : config :=
  {| threads := [(7, ShutdownEntry); (9, InitEntry)]; shared := two_holders |}.

Definition after_overlapping : config :=
  Eval vm_compute in config_of (run three_locks [1; 0; 1]%nat overlapping).

(** A four-byte thread handle. *)
Definition handle_bytes : list Byte.byte :=
  [Byte.x78; Byte.x56; Byte.x34; Byte.x12].

(** An object of the checksum backend whose context lies at address 1,
    between the contexts of two other objects. *)
Definition example_heap : evp_heap sum8_backend := [Some 40; Some 0; Some 41].

Definition example_object : digest_object sum8_backend :=
  {| context_at := 1; type_of := (tt : EVP_MD sum8_backend) |}.

Definition example_ops : list digest_op :=
  [op_Update 100 2; op_Update 0 0; op_Final 200; op_Restart; op_Update 102 3; op_Final 201].

(** ** A release that overlapped an acquire, at a concrete input

    One holder is left.  Thread 7 enters [shutdown] and decrements to 0;
    thread 9 then goes through its whole [init], setup included; thread 7
    then runs the shutdown sequence.  Scheduling a thread that has
    returned changes nothing. *)
Definition raced_schedule : list nat :=
  ([0] ++ repeat 1 20 ++ repeat 0 20)%nat.

Definition raced : config :=
  Eval vm_compute in
    config_of (run three_locks raced_schedule
                 {| threads := [(7, ShutdownEntry); (9, InitEntry)];
                    shared := one_holder |}).

(** * Proofs *)

(** ** The two one-time blocks, run by one thread *)

Lemma log_nil g : log [] g = g.
Proof. destruct g; unfold log; cbn. by rewrite app_nil_r. Qed.

Lemma for_each_slot_update (f : pthread_mutex_t -> pthread_mutex_t) (ev : Z -> call) :
  forall (k i : nat) (g : state) (tbl : list pthread_mutex_t),
    ssl_mutexes g = Some tbl ->
    (i + k <= length tbl)%nat ->
    for_each_slot (fun j h => update_mutex j f (log [ev j] h)) k (Z.of_nat i) g
    = Ok (set_ssl_mutexes
            (Some (take i tbl ++ map f (take k (drop i tbl)) ++ drop (i + k) tbl))
            (log (map ev (map Z.of_nat (seq i k))) g)).
Proof.
  induction k as [|k IH]; intros i g tbl Htbl Hlen; cbn [for_each_slot].
  - rewrite Nat.add_0_r. rewrite take_0. cbn [map app]. rewrite take_drop, log_nil.
    f_equal. destruct g; cbn in *; by subst.
  - destruct (lookup_lt_is_Some_2 tbl i) as [m Hm]; [lia|].
    unfold update_mutex at 1. cbn [ssl_mutexes log].
    rewrite Htbl.
    replace (0 <=? Z.of_nat i) with true by (symmetry; apply Z.leb_le; lia).
    rewrite Nat2Z.id, Hm. cbn [bind].
    replace (Z.of_nat i + 1) with (Z.of_nat (S i)) by lia.
    erewrite IH; [| reflexivity | rewrite length_insert; lia].
    f_equal.
    rewrite (take_S_r _ _ (f m)) by (apply list_lookup_insert_eq; eapply lookup_lt_Some; eauto).
    rewrite take_insert_ge by lia.
    rewrite !drop_insert_lt by lia.
    rewrite (drop_S tbl m i Hm). rewrite firstn_cons. cbn [map seq].
    replace (S i + k)%nat with (i + S k)%nat by lia.
    rewrite <- (drop_drop tbl (S k) i), (drop_S tbl m i Hm).
    rewrite skipn_cons, drop_drop.
    destruct g; unfold set_ssl_mutexes, log; cbn.
    f_equal.
    + f_equal. rewrite <- !app_assoc. cbn. repeat f_equal.
    + rewrite <- app_assoc. reflexivity.
Qed.

Lemma map_replicate {A C : Type} (f : A -> C) (n : nat) (x : A) :
  map f (replicate n x) = replicate n (f x).
Proof. induction n as [|n IH]; cbn; [reflexivity | by rewrite IH]. Qed.

Lemma state_ext (g h : state) :
  crypto_refs g = crypto_refs h ->
  ssl_mutexes g = ssl_mutexes h ->
  ssl_num_locks g = ssl_num_locks h ->
  tids g = tids h ->
  locking_callback g = locking_callback h ->
  id_callback g = id_callback h ->
  trace g = trace h ->
  g = h.
Proof. destruct g, h; cbn; intros; subst; reflexivity. Qed.

(** Projections of updated globals, reduced one field at a time. *)
Ltac fields :=
  cbn [crypto_refs ssl_mutexes ssl_num_locks tids locking_callback id_callback trace
       set_crypto_refs set_ssl_mutexes set_ssl_num_locks set_tids set_callbacks log
       incr_crypto_refs decr_crypto_refs init_record shutdown_drain
       after_setup after_cleanup].

Ltac fields_in H :=
  cbn [crypto_refs ssl_mutexes ssl_num_locks tids locking_callback id_callback trace
       set_crypto_refs set_ssl_mutexes set_ssl_num_locks set_tids set_callbacks log
       incr_crypto_refs decr_crypto_refs init_record shutdown_drain
       after_setup after_cleanup] in H.

Lemma init_setup_eq (e : libcrypto) (g : state) :
  init_setup e g = solo (setup_prog e) g.
Proof. reflexivity. Qed.

Lemma shutdown_cleanup_eq (g : state) : shutdown_cleanup g = solo cleanup_prog g.
Proof. reflexivity. Qed.

Lemma init_setup_ok (e : libcrypto) (g : state) :
  new_succeeds e = true \/ CRYPTO_num_locks e <= 0 ->
  init_setup e g = Ok (after_setup e g).
Proof.
  intros Hnew. unfold init_setup, setup_prog, after_setup, setup_calls.
  set (n := Z.max (CRYPTO_num_locks e) 0).
  cbn [solo bind]. fields.
  destruct (0 <? n) eqn:Hn.
  - apply Z.ltb_lt in Hn.
    assert (new_succeeds e = true) as Hok by (destruct Hnew; [assumption | lia]).
    unfold new_mutexes. rewrite Hok. cbn [bind]. fields. rewrite Z.sub_0_r.
    rewrite (for_each_slot_update _ E_pthread_mutex_init (Z.to_nat n) 0 _
               (replicate (Z.to_nat n) MutexRaw)).
    + cbn [bind]. rewrite take_0, drop_0, Nat.add_0_l.
      rewrite firstn_all2 by (rewrite length_replicate; lia).
      rewrite drop_ge by (rewrite length_replicate; lia).
      rewrite map_replicate, app_nil_r. cbn [app].
      f_equal. apply state_ext; fields; try reflexivity.
      unfold slots. rewrite <- !app_assoc. reflexivity.
    + reflexivity.
    + rewrite length_replicate. lia.
  - apply Z.ltb_ge in Hn. cbn [bind]. fields. rewrite Z.sub_0_r.
    replace (Z.to_nat n) with 0%nat by lia.
    cbn [bind for_each_slot].
    f_equal. apply state_ext; fields; try reflexivity.
    unfold slots. replace (Z.to_nat n) with 0%nat by lia.
    rewrite <- !app_assoc. reflexivity.
Qed.

Lemma init_setup_abort (e : libcrypto) (g : state) :
  new_succeeds e = false -> 0 < CRYPTO_num_locks e ->
  init_setup e g = AssertFail "can't allocate memory for OpenSSL init".
Proof.
  intros Hnew Hpos. unfold init_setup, setup_prog.
  cbn [solo bind]. fields.
  replace (0 <? Z.max (CRYPTO_num_locks e) 0) with true
    by (symmetry; apply Z.ltb_lt; lia).
  unfold new_mutexes. rewrite Hnew. reflexivity.
Qed.

Lemma shutdown_cleanup_ok (g : state) :
  table_ready g -> shutdown_cleanup g = Ok (after_cleanup g).
Proof.
  unfold table_ready, lock_table, shutdown_cleanup, cleanup_prog, after_cleanup.
  intros Hready. cbn [solo bind]. fields. rewrite Z.sub_0_r.
  destruct (ssl_mutexes g) as [tbl|] eqn:Htbl.
  - rewrite (for_each_slot_update _ E_pthread_mutex_destroy
               (Z.to_nat (ssl_num_locks g)) 0 _ tbl);
      [| fields; assumption | lia].
    cbn [bind]. f_equal. apply state_ext; fields; try reflexivity.
    unfold uninstall_calls, library_cleanup_calls, free_table_calls, slots.
    rewrite <- !app_assoc. reflexivity.
  - cbn [length] in Hready.
    replace (Z.to_nat (ssl_num_locks g)) with 0%nat by lia.
    cbn [for_each_slot bind]. f_equal. apply state_ext; fields; try reflexivity.
    unfold uninstall_calls, library_cleanup_calls, free_table_calls, slots.
    replace (Z.to_nat (ssl_num_locks g)) with 0%nat by lia.
    rewrite <- !app_assoc. reflexivity.
Qed.

Lemma after_setup_table_ready e g : table_ready (after_setup e g).
Proof.
  unfold table_ready, lock_table, after_setup. cbn.
  destruct (0 <? Z.max (CRYPTO_num_locks e) 0) eqn:Hn.
  - rewrite length_replicate. lia.
  - apply Z.ltb_ge in Hn. lia.
Qed.

(** ** Threads per program point *)

Lemma count_at_insert (q : place) (ts : list (CRYPTO_THREADID * pc)) :
  forall (i : nat) (t : CRYPTO_THREADID) (p p' : pc),
    ts !! i = Some (t, p) ->
    (count_at q (<[i := (t, p')]> ts) + (if place_eqb (place_of p) q then 1 else 0)
     = count_at q ts + (if place_eqb (place_of p') q then 1 else 0))%nat.
Proof.
  induction ts as [|[t0 p0] rest IH]; intros i t p p' Hi.
  - destruct i; discriminate.
  - destruct i as [|i].
    + injection Hi as -> ->. cbn.
      destruct (place_eqb (place_of p) q), (place_eqb (place_of p') q); lia.
    + specialize (IH i t p p' Hi).
      change (<[S i := (t, p')]> ((t0, p0) :: rest))
        with ((t0, p0) :: <[i := (t, p')]> rest).
      cbn [count_at snd].
      destruct (place_eqb (place_of p0) q), (place_eqb (place_of p) q), (place_eqb (place_of p') q); lia.
Qed.

Lemma count_at_total (ts : list (CRYPTO_THREADID * pc)) :
  (count_at AtInitEntry ts + count_at AtInitSetup ts + count_at AtInitRecord ts
   + count_at AtShutdownEntry ts + count_at AtShutdownDrain ts
   + count_at AtShutdownCleanup ts + count_at AtReturned ts = length ts)%nat.
Proof.
  induction ts as [|[t p] rest IH]; [reflexivity|].
  destruct p; cbn; lia.
Qed.

Lemma count_at_spawn (q : place) (entry : pc) (ids : list CRYPTO_THREADID) :
  count_at q (map (fun t => (t, entry)) ids)
  = if place_eqb (place_of entry) q then length ids else 0%nat.
Proof.
  induction ids as [|t ids IH]; cbn.
  - by destruct (place_eqb (place_of entry) q).
  - rewrite IH. by destruct (place_eqb (place_of entry) q).
Qed.

Lemma all_returned_count (c : config) :
  all_returned c = true -> count_at AtReturned (threads c) = length (threads c).
Proof.
  unfold all_returned. induction (threads c) as [|[t p] rest IH]; [reflexivity|].
  cbn. unfold has_returned at 1. cbn.
  destruct p; cbn; try discriminate. intros H. rewrite (IH H). reflexivity.
Qed.

(** ** The trace without the registry's bookkeeping *)

Lemma lifecycle_app (a b : list call) : lifecycle (a ++ b) = lifecycle a ++ lifecycle b.
Proof. unfold lifecycle. apply List.filter_app. Qed.

Lemma lifecycle_map_id (f : Z -> call) (l : list Z) :
  (forall i, is_bookkeeping (f i) = false) -> lifecycle (map f l) = map f l.
Proof.
  intros Hf. induction l as [|x l IH]; [reflexivity|].
  unfold lifecycle in *. cbn. rewrite Hf. cbn. by rewrite IH.
Qed.

Lemma lifecycle_setup_calls (e : libcrypto) : lifecycle (setup_calls e) = setup_calls e.
Proof.
  unfold setup_calls. rewrite !lifecycle_app.
  rewrite (lifecycle_map_id E_pthread_mutex_init) by reflexivity.
  by destruct (0 <? Z.max (CRYPTO_num_locks e) 0).
Qed.

Lemma lifecycle_record_calls (t : CRYPTO_THREADID) : lifecycle (record_calls t) = [].
Proof. reflexivity. Qed.

Lemma lifecycle_drain_calls (ids : list CRYPTO_THREADID) :
  lifecycle (drain_calls ids) = map E_ERR_remove_thread_state ids.
Proof.
  unfold drain_calls. rewrite !lifecycle_app.
  rewrite (lifecycle_map_id E_ERR_remove_thread_state) by reflexivity.
  cbn. by rewrite app_nil_r.
Qed.

Lemma lifecycle_free_table_calls (n : Z) :
  lifecycle (free_table_calls n) = free_table_calls n.
Proof.
  unfold free_table_calls. rewrite lifecycle_app.
  by rewrite (lifecycle_map_id E_pthread_mutex_destroy) by reflexivity.
Qed.

Create Rewrite HintDb lifecycle.

#[global] Hint Rewrite lifecycle_app lifecycle_setup_calls lifecycle_record_calls
  lifecycle_drain_calls lifecycle_free_table_calls : lifecycle.

Lemma lifecycle_shutdown_calls (ids : list CRYPTO_THREADID) (n : Z) :
  lifecycle (shutdown_calls ids n)
  = map E_ERR_remove_thread_state ids ++ uninstall_calls ++ library_cleanup_calls
      ++ free_table_calls n.
Proof.
  unfold shutdown_calls. by autorewrite with lifecycle.
Qed.

(** ** What the blocks do to the globals *)

Lemma init_setup_inv (e : libcrypto) (g g' : state) :
  init_setup e g = Ok g' -> g' = after_setup e g.
Proof.
  intros H.
  destruct (new_succeeds e) eqn:Hnew.
  - rewrite init_setup_ok in H by auto. congruence.
  - destruct (Z_lt_le_dec 0 (CRYPTO_num_locks e)) as [Hpos|Hle].
    + rewrite init_setup_abort in H by assumption. discriminate.
    + rewrite init_setup_ok in H by auto. congruence.
Qed.

Lemma trace_init_record (t : CRYPTO_THREADID) (g : state) :
  trace (init_record t g) = trace g ++ record_calls t.
Proof. destruct g; cbn. by rewrite <- !app_assoc. Qed.

Lemma trace_shutdown_drain (g : state) :
  trace (shutdown_drain g) = trace g ++ drain_calls (tids g).
Proof. destruct g; cbn. by rewrite <- !app_assoc. Qed.

(** ** One-time blocks and the other threads *)

Lemma same_core_refl (g : state) : same_core g g.
Proof. repeat split. Qed.

Lemma same_core_sym (g h : state) : same_core g h -> same_core h g.
Proof. intros (?&?&?&?&?). repeat split; congruence. Qed.

Lemma same_core_trans (g h k : state) : same_core g h -> same_core h k -> same_core g k.
Proof. intros (?&?&?&?&?) (?&?&?&?&?). repeat split; congruence. Qed.

Lemma same_core_incr (g : state) : same_core (incr_crypto_refs g) g.
Proof. repeat split. Qed.

Lemma same_core_decr (g : state) : same_core (decr_crypto_refs g) g.
Proof. repeat split. Qed.

Lemma same_core_init_record (t : CRYPTO_THREADID) (g : state) :
  same_core (init_record t g) g.
Proof.
  repeat split.
  rewrite trace_init_record. autorewrite with lifecycle. apply app_nil_r.
Qed.

Create HintDb steady.

#[global] Hint Resolve same_core_refl same_core_incr same_core_decr
  same_core_init_record : steady.

Lemma same_outcome_refl (r : result state) : same_outcome r r.
Proof. destruct r; cbn; auto using same_core_refl. Qed.

Lemma same_outcome_Ok (r : result state) (h : state) :
  same_outcome r (Ok h) -> exists g, r = Ok g /\ same_core g h.
Proof. destruct r; cbn; intros H; try contradiction. eauto. Qed.

Lemma same_core_log (evs : list call) (g h : state) :
  same_core g h -> same_core (log evs g) (log evs h).
Proof.
  intros (?&?&?&?&Htr). repeat split; fields; try assumption.
  by rewrite !lifecycle_app, Htr.
Qed.

Lemma respects_log (evs : list call) : respects_core (fun g => Ok (log evs g)).
Proof. intros g h H. cbn [same_outcome]. by apply same_core_log. Qed.

Lemma respects_update_mutex (f : pthread_mutex_t -> pthread_mutex_t) (ev : Z -> call)
    (j : Z) :
  respects_core (fun g => update_mutex j f (log [ev j] g)).
Proof.
  intros g h H. apply (same_core_log [ev j]) in H.
  destruct H as (Hm & Hn & Hl & Hi & Htr).
  unfold update_mutex. rewrite <- Hm.
  destruct (ssl_mutexes (log [ev j] g)) as [tbl|]; [|exact I].
  destruct (0 <=? j); [|exact I].
  destruct (tbl !! Z.to_nat j); [|exact I].
  repeat split; assumption.
Qed.

Lemma update_mutex_num_locks (f : pthread_mutex_t -> pthread_mutex_t) (ev : Z -> call)
    (j : Z) (g g1 : state) :
  update_mutex j f (log [ev j] g) = Ok g1 -> ssl_num_locks g1 = ssl_num_locks g.
Proof.
  unfold update_mutex. intros H.
  destruct (ssl_mutexes (log [ev j] g)) as [tbl|]; try discriminate.
  destruct (0 <=? j); try discriminate.
  destruct (tbl !! Z.to_nat j); try discriminate.
  injection H as <-. reflexivity.
Qed.

Ltac core_fields H :=
  let Hm := fresh "Hm" in let Hn := fresh "Hn" in let Hl := fresh "Hl" in
  let Hi := fresh "Hi" in let Htr := fresh "Htr" in
  destruct H as (Hm & Hn & Hl & Hi & Htr);
  unfold same_core; fields;
  refine (conj _ (conj _ (conj _ (conj _ _))));
  try assumption; try reflexivity.

Lemma respects_set_num_locks (n : Z) (evs : list call) :
  respects_core (fun g => Ok (set_ssl_num_locks n (log evs g))).
Proof.
  intros g h H. cbn [same_outcome]. apply (same_core_log evs) in H. core_fields H.
Qed.

Lemma respects_set_locking (b : bool) (evs : list call) :
  respects_core (fun g => Ok (set_callbacks b (id_callback g) (log evs g))).
Proof.
  intros g h H. cbn [same_outcome]. apply (same_core_log evs) in H. core_fields H.
Qed.

Lemma respects_set_id (b : bool) (evs : list call) :
  respects_core (fun g => Ok (set_callbacks (locking_callback g) b (log evs g))).
Proof.
  intros g h H. cbn [same_outcome]. apply (same_core_log evs) in H. core_fields H.
Qed.

Lemma respects_new_mutexes (e : libcrypto) :
  respects_core (fun g => if 0 <? ssl_num_locks g then new_mutexes e g else Ok g).
Proof.
  intros g h H. pose proof H as (_ & Hnum & _). rewrite Hnum.
  destruct (0 <? ssl_num_locks h); [|exact H].
  unfold new_mutexes. destruct (new_succeeds e); [|reflexivity].
  cbn [same_outcome]. rewrite Hnum.
  apply (same_core_log [E_new_mutexes (ssl_num_locks h)]) in H. core_fields H.
Qed.

Lemma respects_set_null : respects_core (fun g => Ok (set_ssl_mutexes None g)).
Proof. intros g h H. cbn [same_outcome]. core_fields H. Qed.

Lemma keeps_Ok (F : state -> state) :
  (forall g, crypto_refs (F g) = crypto_refs g /\ tids (F g) = tids g) ->
  keeps_registry (fun g => Ok (F g)).
Proof. intros HF g g1 H. injection H as <-. apply HF. Qed.

Lemma keeps_update_mutex (f : pthread_mutex_t -> pthread_mutex_t) (ev : Z -> call)
    (j : Z) :
  keeps_registry (fun g => update_mutex j f (log [ev j] g)).
Proof.
  intros g g1. unfold update_mutex. intros H.
  destruct (ssl_mutexes (log [ev j] g)) as [tbl|]; try discriminate.
  destruct (0 <=? j); try discriminate.
  destruct (tbl !! Z.to_nat j); try discriminate.
  injection H as <-. split; reflexivity.
Qed.

Lemma keeps_new_mutexes (e : libcrypto) :
  keeps_registry (fun g => if 0 <? ssl_num_locks g then new_mutexes e g else Ok g).
Proof.
  intros g g1 H. destruct (0 <? ssl_num_locks g).
  - unfold new_mutexes in H. destruct (new_succeeds e); try discriminate.
    injection H as <-. split; reflexivity.
  - injection H as <-. split; reflexivity.
Qed.

Ltac steady_Do :=
  split; [first [apply respects_log | apply respects_set_num_locks
                | apply respects_set_locking | apply respects_set_id
                | apply respects_new_mutexes | apply respects_set_null]
         | first [apply keeps_new_mutexes
                | apply keeps_Ok; intros ?; split; reflexivity]].

Ltac steady_ForSlot :=
  split; [intros ?; split; [apply respects_update_mutex | apply keeps_update_mutex]
         | intros ? ? ?; apply update_mutex_num_locks].

Lemma steady_setup_prog (e : libcrypto) : Forall steady (setup_prog e).
Proof.
  unfold setup_prog.
  repeat (apply List.Forall_cons; [cbn [steady]; first [steady_Do | steady_ForSlot]|]).
  apply List.Forall_nil.
Qed.

Lemma steady_cleanup_prog : Forall steady cleanup_prog.
Proof.
  unfold cleanup_prog.
  repeat (apply List.Forall_cons; [cbn [steady]; first [steady_Do | steady_ForSlot]|]).
  apply List.Forall_nil.
Qed.

#[global] Hint Resolve steady_setup_prog steady_cleanup_prog : steady.

Lemma for_each_slot_respects (body : Z -> state -> result state) :
  (forall j, respects_core (body j) /\ keeps_registry (body j)) ->
  forall (n : nat) (i : Z) (g h : state),
    same_core g h ->
    same_outcome (for_each_slot body n i g) (for_each_slot body n i h).
Proof.
  intros Hbody. induction n as [|n IH]; intros i g h H; cbn [for_each_slot].
  - exact H.
  - pose proof (proj1 (Hbody i) g h H) as Hstep.
    destruct (body i g) as [g1|a|], (body i h) as [h1|b|]; cbn in Hstep |- *;
      try contradiction; auto.
Qed.

Lemma solo_respects (k : list instr) :
  Forall steady k ->
  forall g h, same_core g h -> same_outcome (solo k g) (solo k h).
Proof.
  induction 1 as [|ins k Hins _ IH]; intros g h H; cbn [solo]; [exact H|].
  destruct ins as [f|body i]; cbn [steady] in Hins.
  - pose proof (proj1 Hins g h H) as Hstep.
    destruct (f g) as [g1|a|], (f h) as [h1|b|]; cbn in Hstep |- *;
      try contradiction; auto.
  - destruct Hins as [Hbody _].
    assert (ssl_num_locks g = ssl_num_locks h) as -> by apply H.
    pose proof (for_each_slot_respects body Hbody
                  (Z.to_nat (ssl_num_locks h - i)) i g h H) as Hloop.
    destruct (for_each_slot body _ i g) as [g1|a|],
             (for_each_slot body _ i h) as [h1|b|]; cbn in Hloop |- *;
      try contradiction; auto.
Qed.

(** One step of a statement list leaves [solo] with what it had before,
    and the counter and the registry as they were. *)
Lemma solo_instr_step (k k1 : list instr) (g g1 : state) :
  Forall steady k ->
  instr_step k g = Ok (k1, g1) ->
  solo k g = solo k1 g1
  /\ Forall steady k1
  /\ crypto_refs g1 = crypto_refs g
  /\ tids g1 = tids g.
Proof.
  intros Hk Hstep. destruct k as [|ins k]; cbn [instr_step] in Hstep.
  - injection Hstep as <- <-. auto.
  - apply List.Forall_cons_iff in Hk as [Hins Hk].
    destruct ins as [f|body i]; cbn [steady] in Hins.
    + destruct (f g) as [g2| |] eqn:Hf; try discriminate.
      cbn [bind] in Hstep. injection Hstep as <- <-.
      cbn [solo]. rewrite Hf. destruct (proj2 Hins g g2 Hf). auto.
    + destruct (Z.ltb_spec i (ssl_num_locks g)) as [Hlt|Hge].
      * destruct (body i g) as [g2| |] eqn:Hb; try discriminate.
        cbn [bind] in Hstep. injection Hstep as <- <-.
        destruct Hins as [Hresp Hkeep].
        destruct (proj2 (Hresp i) g g2 Hb).
        split; [|split; [apply List.Forall_cons; [split; assumption | assumption] | auto]].
        cbn [solo]. rewrite (Hkeep i g g2 Hb).
        replace (Z.to_nat (ssl_num_locks g - i))
          with (S (Z.to_nat (ssl_num_locks g - (i + 1)))) by lia.
        cbn [for_each_slot]. rewrite Hb. reflexivity.
      * injection Hstep as <- <-. split; [|auto].
        cbn [solo]. replace (Z.to_nat (ssl_num_locks g - i)) with 0%nat by lia.
        reflexivity.
Qed.

(** A statement list that runs through alone can make its next step. *)
Lemma instr_step_of_solo (k : list instr) (g g' : state) :
  solo k g = Ok g' -> exists k1 g1, instr_step k g = Ok (k1, g1).
Proof.
  intros Hsolo. destruct k as [|ins k]; cbn [instr_step]; [eauto|].
  destruct ins as [f|body i]; cbn [solo] in Hsolo.
  - destruct (f g) as [g2| |]; try discriminate. cbn [bind]. eauto.
  - destruct (Z.ltb_spec i (ssl_num_locks g)) as [Hlt|Hge]; [|eauto].
    replace (Z.to_nat (ssl_num_locks g - i))
      with (S (Z.to_nat (ssl_num_locks g - (i + 1)))) in Hsolo by lia.
    cbn [for_each_slot] in Hsolo.
    destruct (body i g) as [g2| |]; try discriminate. cbn [bind]. eauto.
Qed.

(** ** [N] threads inside init *)

Ltac count_facts Hi p' :=
  let go q := (let F := fresh "Hcnt" in
               pose proof (count_at_insert q _ _ _ _ p' Hi) as F;
               cbn [place_of place_eqb] in F) in
  go AtInitEntry; go AtInitSetup; go AtInitRecord; go AtShutdownEntry;
  go AtShutdownDrain; go AtShutdownCleanup; go AtReturned.

Lemma place_eqb_refl (q : place) : place_eqb q q = true.
Proof. by destruct q. Qed.

Lemma count_at_lookup (ts : list (CRYPTO_THREADID * pc)) :
  forall (i : nat) (t : CRYPTO_THREADID) (p : pc),
    ts !! i = Some (t, p) -> (1 <= count_at (place_of p) ts)%nat.
Proof.
  induction ts as [|[t0 p0] rest IH]; intros i t p Hi; destruct i as [|i];
    try discriminate.
  - injection Hi as -> ->. cbn [count_at snd]. rewrite place_eqb_refl. lia.
  - change (rest !! i = Some (t, p)) in Hi. apply IH in Hi.
    cbn [count_at]. lia.
Qed.

(** Two threads at the same place count for two. *)
Lemma count_at_two (ts : list (CRYPTO_THREADID * pc)) :
  forall (i j : nat) (t t' : CRYPTO_THREADID) (p p' : pc),
    i <> j ->
    ts !! i = Some (t, p) -> ts !! j = Some (t', p') ->
    place_of p' = place_of p ->
    (2 <= count_at (place_of p) ts)%nat.
Proof.
  induction ts as [|[t0 p0] rest IH]; intros i j t t' p p' Hij Hi Hj Hsame;
    [destruct i; discriminate|].
  destruct i as [|i], j as [|j]; try congruence.
  - injection Hi as -> ->. change (rest !! j = Some (t', p')) in Hj.
    apply count_at_lookup in Hj. rewrite Hsame in Hj.
    cbn [count_at snd]. rewrite place_eqb_refl. lia.
  - injection Hj as -> ->. change (rest !! i = Some (t, p)) in Hi.
    apply count_at_lookup in Hi.
    cbn [count_at snd]. rewrite Hsame, place_eqb_refl. lia.
  - change (rest !! i = Some (t, p)) in Hi. change (rest !! j = Some (t', p')) in Hj.
    assert (i <> j) as Hij' by congruence.
    pose proof (IH i j t t' p p' Hij' Hi Hj Hsame). cbn [count_at]. lia.
Qed.

(** An element of an updated thread list is the new one or an old one
    from another position. *)
Lemma In_insert_inv {A : Type} (ts : list A) :
  forall (i : nat) (x y : A),
    In x (<[i := y]> ts) -> x = y \/ exists j, j <> i /\ ts !! j = Some x.
Proof.
  induction ts as [|a rest IH]; intros i x y Hin; [contradiction|].
  destruct i as [|i].
  - destruct Hin as [<-|Hin]; [by left|].
    right. apply (proj2 (list_elem_of_In _ _)) in Hin.
    apply list_elem_of_lookup in Hin as [j Hj]. exists (S j). split; [lia | exact Hj].
  - change (<[S i := y]> (a :: rest)) with (a :: <[i := y]> rest) in Hin.
    destruct Hin as [<-|Hin].
    + right. exists 0%nat. split; [lia | reflexivity].
    + destruct (IH i x y Hin) as [->|(j & Hj & Hl)]; [by left|].
      right. exists (S j). split; [lia | exact Hl].
Qed.

Lemma In_lookup {A : Type} (ts : list A) (i : nat) (x : A) :
  ts !! i = Some x -> In x ts.
Proof. intros H. apply list_elem_of_In. eapply list_elem_of_lookup_2. exact H. Qed.

Lemma wrap32_small (z : Z) : 0 <= z < uint32_modulus -> wrap32 z = z.
Proof. intros H. unfold wrap32. apply Z.mod_small. assumption. Qed.

Lemma setup_done_same_core (e : libcrypto) (g0 g h : state) :
  same_core g h -> setup_done e g0 h -> setup_done e g0 g.
Proof.
  intros (Hm & Hn & _ & _ & Htr) (Hdone & Hnum & Hready).
  unfold setup_done, table_ready, lock_table in *.
  rewrite Htr, Hn, Hm. auto.
Qed.

Lemma setup_pending_same_core (e : libcrypto) (g0 : state) (k : list instr) (g h : state) :
  same_core g h -> setup_pending e g0 k h -> setup_pending e g0 k g.
Proof.
  intros Hcore (Hk & Hpost & Htotal).
  pose proof (solo_respects k Hk g h Hcore) as Hout.
  split; [assumption|]. split.
  - intros g' Hg'. rewrite Hg' in Hout.
    destruct (solo k h) as [h'| |] eqn:Hh; cbn in Hout; try contradiction.
    eapply setup_done_same_core; [exact Hout | auto].
  - intros Hnew. destruct (Htotal Hnew) as [h' Hh]. rewrite Hh in Hout.
    apply same_outcome_Ok in Hout as (g' & Hg' & _). eauto.
Qed.

Lemma setup_pending_start (e : libcrypto) (g0 g : state) :
  lifecycle (trace g) = lifecycle (trace g0) ->
  setup_pending e g0 (setup_prog e) g.
Proof.
  intros Htr. split; [auto with steady|]. split.
  - intros g' Hg'. rewrite <- init_setup_eq in Hg'. apply init_setup_inv in Hg'. subst g'.
    split; [|split].
    + unfold after_setup. fields. by rewrite lifecycle_app, Htr, lifecycle_setup_calls.
    + reflexivity.
    + apply after_setup_table_ready.
  - intros Hnew. exists (after_setup e g). rewrite <- init_setup_eq. by apply init_setup_ok.
Qed.

Lemma setup_pending_step (e : libcrypto) (g0 : state) (k k1 : list instr) (g g1 : state) :
  setup_pending e g0 k g ->
  instr_step k g = Ok (k1, g1) ->
  setup_pending e g0 k1 g1.
Proof.
  intros (Hk & Hpost & Htotal) Hstep.
  destruct (solo_instr_step k k1 g g1 Hk Hstep) as (Heq & Hk1 & _).
  rewrite Heq in Hpost, Htotal. by split.
Qed.

(** Threads that are not in the one-time block leave it pending. *)
Lemma setup_pending_others (e : libcrypto) (g0 : state)
    (ts : list (CRYPTO_THREADID * pc)) (g g' : state) (i : nat)
    (t0 : CRYPTO_THREADID) (p' : pc) :
  (forall t k, In (t, InitSetup k) ts -> setup_pending e g0 k g) ->
  same_core g' g ->
  place_of p' <> AtInitSetup ->
  forall t k, In (t, InitSetup k) (<[i := (t0, p')]> ts) -> setup_pending e g0 k g'.
Proof.
  intros Hall Hcore Hp' t k Hin.
  apply In_insert_inv in Hin as [Heq|(j & _ & Hj)].
  - injection Heq as _ <-. cbn in Hp'. congruence.
  - eapply setup_pending_same_core; [exact Hcore|].
    eapply Hall, In_lookup, Hj.
Qed.

Lemma init_inv_spawn (e : libcrypto) (g0 : state) (ids : list CRYPTO_THREADID) :
  crypto_refs g0 = 0 ->
  init_inv e g0 (length ids) (spawn InitEntry ids g0).
Proof.
  intros Hrefs. unfold spawn. split; cbn [threads shared].
  - apply length_map.
  - rewrite !count_at_spawn. cbn. auto.
  - rewrite count_at_spawn. cbn. rewrite Hrefs. lia.
  - left. cbn [threads shared]. rewrite !count_at_spawn. cbn. auto.
Qed.

Lemma shutdown_inv_spawn (g1 : state) (ids : list CRYPTO_THREADID) :
  (0 < length ids)%nat ->
  crypto_refs g1 = Z.of_nat (length ids) ->
  table_ready g1 ->
  shutdown_inv g1 (length ids) (spawn ShutdownEntry ids g1).
Proof.
  intros Hpos Hrefs Hready. unfold spawn. split; cbn [threads shared].
  - apply length_map.
  - rewrite !count_at_spawn. cbn. auto.
  - rewrite count_at_spawn. cbn. assumption.
  - left. cbn [threads shared]. rewrite !count_at_spawn. cbn [place_of place_eqb].
    repeat split; try assumption; lia.
Qed.

Section Interleaving.

(** [N] threads under one libcrypto, few enough for the 32-bit counter. *)
Variable e : libcrypto.
Variable N : nat.
Hypothesis N_small : Z.of_nat N < uint32_modulus.

Lemma init_inv_step (g0 : state) (i : nat) (c c' : config) :
  init_inv e g0 N c ->
  sched_step e i c = Ok c' ->
  init_inv e g0 N c'.
Proof.
  intros [Hlen (HsE & HsD & HsC) Hrefs Hstage] Hstep.
  unfold sched_step in Hstep.
  destruct (threads c !! i) as [[t p]|] eqn:Hi; [|injection Hstep as <-; by split].
  pose proof (count_at_lookup _ _ _ _ Hi) as Hp.
  pose proof (count_at_total (threads c)) as Htot.
  destruct p as [|k| | | |k|]; cbn [thread_step place_of] in Hstep, Hp; try lia.
  - (* ++crypto_refs == 1 *)
    cbn [bind fst snd] in Hstep. injection Hstep as <-.
    assert (wrap32 (crypto_refs (shared c) + 1)
            = Z.of_nat (N - count_at AtInitEntry (threads c)) + 1) as Hnew.
    { rewrite Hrefs. apply wrap32_small. lia. }
    fields. rewrite Hnew.
    destruct (Z.eqb_spec (Z.of_nat (N - count_at AtInitEntry (threads c)) + 1) 1)
      as [Hone|Hmore].
    + count_facts Hi (InitSetup (setup_prog e)).
      split; unfold init_stage; cbn [threads shared];
        [by rewrite length_insert | lia | fields; rewrite Hnew; lia |].
      destruct Hstage as [(HE & HS & Htr)|[(?&?&?)|(?&?&?)]]; try lia.
      right; left. split; [lia|]. split; [lia|].
      intros t' k' Hin. apply In_insert_inv in Hin as [Heq|(j & _ & Hj)].
      * injection Heq as _ ->. apply setup_pending_start. exact Htr.
      * apply count_at_lookup in Hj. cbn [place_of] in Hj. lia.
    + count_facts Hi InitRecord.
      split; unfold init_stage; cbn [threads shared];
        [by rewrite length_insert | lia | fields; rewrite Hnew; lia |].
      destruct Hstage as [(?&?&?)|[(HE & HS & Hpend)|(HE & HS & Hdone)]]; try lia.
      * right; left. split; [lia|]. split; [lia|].
        eapply setup_pending_others; [exact Hpend | auto with steady | discriminate].
      * right; right. split; [lia|]. split; [lia|].
        eapply setup_done_same_core; [auto with steady | exact Hdone].
  - (* inside the one-time block *)
    destruct Hstage as [(?&?&?)|[(HE & HS & Hpend)|(?&?&?)]]; try lia.
    pose proof (Hpend t k (In_lookup _ _ _ Hi)) as Hk.
    destruct k as [|ins k].
    + injection Hstep as <-.
      count_facts Hi InitRecord.
      split; unfold init_stage; cbn [threads shared];
        [by rewrite length_insert | lia | lia |].
      right; right. split; [lia|]. split; [lia|].
      destruct Hk as (_ & Hpost & _). apply Hpost. reflexivity.
    + destruct (instr_step (ins :: k) (shared c)) as [[k1 g1]| |] eqn:Hins;
        try discriminate.
      cbn [bind fst snd] in Hstep. injection Hstep as <-.
      count_facts Hi (InitSetup k1).
      assert (crypto_refs g1 = crypto_refs (shared c)) as Hsame
        by (eapply solo_instr_step; [apply Hk | exact Hins]).
      split; unfold init_stage; cbn [threads shared];
        [by rewrite length_insert | lia | rewrite Hsame; lia |].
      right; left. split; [lia|]. split; [lia|].
      intros t' k' Hin. apply In_insert_inv in Hin as [Heq|(j & Hji & Hj)].
      * injection Heq as _ ->. eapply setup_pending_step; eassumption.
      * pose proof (count_at_two _ i j t t' (InitSetup (ins :: k)) (InitSetup k')
                      ltac:(congruence) Hi Hj eq_refl) as Htwo.
        cbn [place_of] in Htwo. lia.
  - (* the block under init_records.lock *)
    cbn [bind fst snd] in Hstep. injection Hstep as <-.
    count_facts Hi Returned.
    split; unfold init_stage; cbn [threads shared];
      [by rewrite length_insert | lia | fields; lia |].
    destruct Hstage as [(?&?&?)|[(HE & HS & Hpend)|(HE & HS & Hdone)]]; try lia.
    + right; left. split; [lia|]. split; [lia|].
      eapply setup_pending_others; [exact Hpend | auto with steady | discriminate].
    + right; right. split; [lia|]. split; [lia|].
      eapply setup_done_same_core; [auto with steady | exact Hdone].
  - (* already returned *)
    cbn [bind fst snd] in Hstep. injection Hstep as <-.
    rewrite (list_insert_id _ _ _ Hi). by split.
Qed.

Lemma init_inv_run (g0 : state) (sched : list nat) :
  forall c c', init_inv e g0 N c -> run e sched c = Ok c' -> init_inv e g0 N c'.
Proof.
  induction sched as [|i rest IH]; intros c c' Hinv Hrun; cbn [run] in Hrun.
  - by injection Hrun as <-.
  - destruct (sched_step e i c) as [c1| |] eqn:Hstep; try discriminate.
    cbn [bind] in Hrun. eauto using init_inv_step.
Qed.

(** No step of [init] fails when the table can be allocated. *)
Lemma init_run_total (g0 : state) (sched : list nat) :
  new_succeeds e = true \/ CRYPTO_num_locks e <= 0 ->
  forall c, init_inv e g0 N c -> exists c', run e sched c = Ok c'.
Proof.
  intros Hnew. induction sched as [|i rest IH]; intros c Hinv; cbn [run]; [eauto|].
  assert (exists c1, sched_step e i c = Ok c1) as [c1 Hstep].
  { unfold sched_step. destruct (threads c !! i) as [[t p]|] eqn:Hi; [|eauto].
    pose proof (count_at_lookup _ _ _ _ Hi) as Hp.
    destruct Hinv as [_ (HsE & HsD & HsC) _ Hstage].
    destruct p as [|k| | | |k|]; cbn [thread_step bind place_of] in Hp |- *;
      eauto; try lia.
    destruct k as [|ins k]; [eauto|].
    destruct Hstage as [(?&?&?)|[(HE & HS & Hpend)|(?&?&?)]]; try lia.
    destruct (Hpend t _ (In_lookup _ _ _ Hi)) as (_ & _ & Htotal).
    destruct (Htotal Hnew) as [g' Hg'].
    destruct (instr_step_of_solo _ _ _ Hg') as (k1 & g1 & ->). cbn [bind]. eauto. }
  rewrite Hstep. cbn [bind]. eauto using init_inv_step.
Qed.

(** ** [N] threads inside shutdown *)

Lemma cleanup_pending_start (g1 g : state) :
  lifecycle (trace g) = lifecycle (trace g1) ->
  ssl_num_locks g = ssl_num_locks g1 ->
  tids g = tids g1 ->
  table_ready g ->
  cleanup_pending g1 cleanup_prog (shutdown_drain g).
Proof.
  intros Htr Hnum Htids Hready. split; [auto with steady|].
  exists (after_cleanup (shutdown_drain g)). split.
  - rewrite <- shutdown_cleanup_eq. apply shutdown_cleanup_ok. exact Hready.
  - unfold after_cleanup. fields. rewrite <- !app_assoc.
    rewrite lifecycle_app, Htr, Htids, Hnum. unfold shutdown_calls, drain_calls.
    rewrite <- !app_assoc. reflexivity.
Qed.

Lemma shutdown_inv_step (g1 : state) (i : nat) (c : config) :
  shutdown_inv g1 N c ->
  exists c', sched_step e i c = Ok c' /\ shutdown_inv g1 N c'.
Proof.
  intros [Hlen (HiE & HiS & HiR) Hrefs Hstage].
  unfold sched_step.
  destruct (threads c !! i) as [[t p]|] eqn:Hi; [|eexists; split; [reflexivity | by split]].
  pose proof (count_at_lookup _ _ _ _ Hi) as Hp.
  pose proof (count_at_total (threads c)) as Htot.
  destruct p as [|k| | | |k|]; cbn [thread_step place_of] in Hp |- *; try lia.
  - (* --crypto_refs != 0 *)
    cbn [bind fst snd]. eexists; split; [reflexivity|].
    assert (wrap32 (crypto_refs (shared c) - 1)
            = Z.of_nat (count_at AtShutdownEntry (threads c)) - 1) as Hnew.
    { rewrite Hrefs. apply wrap32_small. lia. }
    cbn zeta. fields. rewrite Hnew.
    destruct Hstage as [(HE & HD & HC & Htr & Hnum & Htids & Hready)
                       |[(?&?&?)|[(?&?&?)|(?&?&?)]]]; try lia.
    destruct (Z.eqb_spec (Z.of_nat (count_at AtShutdownEntry (threads c)) - 1) 0)
      as [Hz|Hz]; cbn [negb].
    + count_facts Hi ShutdownDrain.
      split; unfold shutdown_stage; cbn [threads shared];
        [by rewrite length_insert | lia | fields; rewrite Hnew; lia |].
      right; left. repeat split; try lia; assumption.
    + count_facts Hi Returned.
      split; unfold shutdown_stage; cbn [threads shared];
        [by rewrite length_insert | lia | fields; rewrite Hnew; lia |].
      left. repeat split; try lia; assumption.
  - (* the block under init_records.lock *)
    cbn [bind fst snd]. eexists; split; [reflexivity|].
    count_facts Hi (ShutdownCleanup cleanup_prog).
    destruct Hstage as [(?&?&?)|[(HE & HD & HC & Htr & Hnum & Htids & Hready)
                                |[(?&?&?)|(?&?&?)]]]; try lia.
    split; unfold shutdown_stage; cbn [threads shared];
      [by rewrite length_insert | lia | fields; lia |].
    right; right; left. split; [lia|]. split; [lia|]. split; [lia|].
    intros t' k' Hin. apply In_insert_inv in Hin as [Heq|(j & _ & Hj)].
    + injection Heq as _ ->. by apply cleanup_pending_start.
    + apply count_at_lookup in Hj. cbn [place_of] in Hj. lia.
  - (* inside the cleanup *)
    destruct Hstage as [(?&?&?)|[(?&?&?)|[(HE & HD & HC & Hpend)|(?&?&?)]]]; try lia.
    destruct (Hpend t k (In_lookup _ _ _ Hi)) as (Hk & g' & Hg' & Htr).
    destruct k as [|ins k].
    + eexists; split; [reflexivity|]. cbn [fst snd].
      count_facts Hi Returned.
      split; unfold shutdown_stage; cbn [threads shared];
        [by rewrite length_insert | lia | lia |].
      right; right; right. repeat split; try lia.
      cbn [solo] in Hg'. injection Hg' as <-. exact Htr.
    + destruct (instr_step_of_solo _ _ _ Hg') as (k1 & g2 & Hins).
      rewrite Hins. cbn [bind fst snd]. eexists; split; [reflexivity|].
      destruct (solo_instr_step _ _ _ _ Hk Hins) as (Heq & Hk1 & Hsame & _).
      count_facts Hi (ShutdownCleanup k1).
      split; unfold shutdown_stage; cbn [threads shared];
        [by rewrite length_insert | lia | rewrite Hsame; lia |].
      right; right; left. split; [lia|]. split; [lia|]. split; [lia|].
      intros t' k' Hin. apply In_insert_inv in Hin as [Heq'|(j & Hji & Hj)].
      * injection Heq' as _ ->. split; [exact Hk1|].
        exists g'. rewrite <- Heq. auto.
      * pose proof (count_at_two _ i j t t' (ShutdownCleanup (ins :: k))
                      (ShutdownCleanup k') ltac:(congruence) Hi Hj eq_refl) as Htwo.
        cbn [place_of] in Htwo. lia.
  - (* already returned *)
    cbn [bind fst snd]. eexists; split; [reflexivity|].
    rewrite (list_insert_id _ _ _ Hi). by split.
Qed.

Lemma shutdown_inv_run (g1 : state) (sched : list nat) :
  forall c, shutdown_inv g1 N c ->
  exists c', run e sched c = Ok c' /\ shutdown_inv g1 N c'.
Proof.
  induction sched as [|i rest IH]; intros c Hinv; cbn [run].
  - eauto.
  - destruct (shutdown_inv_step g1 i c Hinv) as (c1 & -> & Hinv1).
    cbn [bind]. eauto.
Qed.

End Interleaving.

(** ** [N] acquires, then [N] releases *)

Lemma all_returned_counts (c : config) :
  all_returned c = true ->
  count_at AtInitEntry (threads c) = 0%nat
  /\ count_at AtInitSetup (threads c) = 0%nat
  /\ count_at AtShutdownEntry (threads c) = 0%nat
  /\ count_at AtShutdownDrain (threads c) = 0%nat
  /\ count_at AtShutdownCleanup (threads c) = 0%nat.
Proof.
  intros H. apply all_returned_count in H.
  pose proof (count_at_total (threads c)). lia.
Qed.

(** C1. [N] threads call init, their steps interleaved in any order; once
    all have returned, [N] threads call shutdown, again interleaved in any
    order.  For [1 <= N < 2^32], and from any state in which
    [crypto_refs] is zero: the calls of the one-time setup appear in the
    trace exactly once, followed by the calls of the full shutdown sequence,
    exactly once, and [crypto_refs] is [N] between the two phases and zero
    at the end. *)
Theorem acquire_release_once
    (e : libcrypto) (g0 : state) (ids1 ids2 : list CRYPTO_THREADID)
    (sched1 sched2 : list nat) (c1 c2 : config) :
  crypto_refs g0 = 0 ->
  (0 < length ids1)%nat ->
  length ids2 = length ids1 ->
  Z.of_nat (length ids1) < uint32_modulus ->
  run e sched1 (spawn InitEntry ids1 g0) = Ok c1 ->
  all_returned c1 = true ->
  run e sched2 (spawn ShutdownEntry ids2 (shared c1)) = Ok c2 ->
  all_returned c2 = true ->
  lifecycle (trace (shared c2))
  = lifecycle (trace g0) ++ setup_calls e
      ++ lifecycle (shutdown_calls (tids (shared c1)) (Z.max (CRYPTO_num_locks e) 0))
  /\ crypto_refs (shared c1) = Z.of_nat (length ids1)
  /\ crypto_refs (shared c2) = 0.
Proof.
  intros Hrefs Hpos Hlen HN Hrun1 Hdone1 Hrun2 Hdone2.
  pose proof (init_inv_run e _ HN g0 sched1 _ _ (init_inv_spawn e g0 ids1 Hrefs) Hrun1)
    as [_ _ Hrefs1 Hstage1].
  destruct (all_returned_counts c1 Hdone1) as (HE1 & HS1 & _).
  rewrite HE1, Nat.sub_0_r in Hrefs1.
  destruct Hstage1 as [(?&?&?)|[(?&?&?)|(_ & _ & Htr1 & Hnum1 & Hready1)]]; try lia.
  assert (shutdown_inv (shared c1) (length ids2) (spawn ShutdownEntry ids2 (shared c1)))
    as Hinv2 by (apply shutdown_inv_spawn; [lia | by rewrite Hlen | assumption]).
  assert (Z.of_nat (length ids2) < uint32_modulus) as HN2 by (rewrite Hlen; assumption).
  destruct (shutdown_inv_run e _ HN2 (shared c1) sched2 _ Hinv2)
    as (c2' & Hrun2' & [_ _ Hrefs2 Hstage2]).
  rewrite Hrun2 in Hrun2'. injection Hrun2' as <-.
  destruct (all_returned_counts c2 Hdone2) as (_ & _ & HE2 & HD2 & HC2).
  destruct Hstage2 as [(?&?&?)|[(?&?&?)|[(?&?&?&?)|(_&_&_&Htr2)]]]; try lia.
  repeat split.
  - rewrite Htr2, Htr1, Hnum1, <- app_assoc. reflexivity.
  - assumption.
  - rewrite Hrefs2, HE2. reflexivity.
Qed.

(** ** One thread on its own

    Given enough steps and nobody else around, a thread goes through
    [init], respectively [shutdown], as defined above: same final globals,
    same failure. *)

Lemma steps_returned (e : libcrypto) (self : CRYPTO_THREADID) (g : state) (m : nat) :
  steps e self m Returned g = Ok (Returned, g).
Proof. induction m as [|m IH]; [reflexivity | exact IH]. Qed.

Section Alone.

Variable e : libcrypto.
Variable self : CRYPTO_THREADID.
(** The program point around a statement list, and what the thread still
    does to the globals once the list is empty. *)
Variable inside : list instr -> pc.
Variable finish : state -> state.
Hypothesis inside_step :
  forall ins k g,
    thread_step e self (inside (ins :: k)) g
    = do r <- instr_step (ins :: k) g; Ok (inside (fst r), snd r).
Hypothesis inside_done :
  forall g, exists n, forall m, (n <= m)%nat ->
    steps e self m (inside []) g = Ok (Returned, finish g).

Lemma steps_loop (body : Z -> state -> result state) (k : list instr) :
  (forall j g g1, body j g = Ok g1 -> ssl_num_locks g1 = ssl_num_locks g) ->
  (forall g, exists n, forall m, (n <= m)%nat ->
     steps e self m (inside k) g = do g' <- solo k g; Ok (Returned, finish g')) ->
  forall (d : nat) (i : Z) (g : state),
    d = Z.to_nat (ssl_num_locks g - i) ->
    exists n, forall m, (n <= m)%nat ->
      steps e self m (inside (ForSlot body i :: k)) g
      = do g' <- solo (ForSlot body i :: k) g; Ok (Returned, finish g').
Proof.
  intros Hkeep Hrest. induction d as [|d IH]; intros i g Hd.
  - destruct (Hrest g) as [n Hn]. exists (S n). intros m Hm.
    destruct m as [|m]; [lia|]. cbn [steps]. rewrite inside_step.
    cbn [instr_step solo]. destruct (Z.ltb_spec i (ssl_num_locks g)); [lia|].
    cbn [bind fst snd]. rewrite <- Hd. cbn [for_each_slot bind]. apply Hn. lia.
  - destruct (body i g) as [g1| |] eqn:Hb.
    + destruct (IH (i + 1) g1) as [n Hn]; [rewrite (Hkeep i g g1 Hb); lia|].
      exists (S n). intros m Hm.
      destruct m as [|m]; [lia|]. cbn [steps]. rewrite inside_step.
      cbn [instr_step]. destruct (Z.ltb_spec i (ssl_num_locks g)); [|lia].
      rewrite Hb. cbn [bind fst snd]. rewrite Hn by lia.
      cbn [solo]. rewrite (Hkeep i g g1 Hb), <- Hd.
      replace (Z.to_nat (ssl_num_locks g - (i + 1))) with d by lia.
      cbn [for_each_slot]. rewrite Hb. reflexivity.
    + exists 1%nat. intros m Hm.
      destruct m as [|m]; [lia|]. cbn [steps]. rewrite inside_step.
      cbn [instr_step solo]. destruct (Z.ltb_spec i (ssl_num_locks g)); [|lia].
      rewrite <- Hd. cbn [for_each_slot]. rewrite Hb. reflexivity.
    + exists 1%nat. intros m Hm.
      destruct m as [|m]; [lia|]. cbn [steps]. rewrite inside_step.
      cbn [instr_step solo]. destruct (Z.ltb_spec i (ssl_num_locks g)); [|lia].
      rewrite <- Hd. cbn [for_each_slot]. rewrite Hb. reflexivity.
Qed.

Lemma steps_solo (k : list instr) :
  Forall steady k ->
  forall g, exists n, forall m, (n <= m)%nat ->
    steps e self m (inside k) g = do g' <- solo k g; Ok (Returned, finish g').
Proof.
  induction 1 as [|ins k Hins _ IH]; intros g.
  - exact (inside_done g).
  - destruct ins as [f|body i].
    + destruct (f g) as [g1| |] eqn:Hf.
      * destruct (IH g1) as [n Hn]. exists (S n). intros m Hm.
        destruct m as [|m]; [lia|]. cbn [steps]. rewrite inside_step.
        cbn [instr_step solo]. rewrite Hf. cbn [bind fst snd]. apply Hn. lia.
      * exists 1%nat. intros m Hm.
        destruct m as [|m]; [lia|]. cbn [steps]. rewrite inside_step.
        cbn [instr_step solo]. rewrite Hf. reflexivity.
      * exists 1%nat. intros m Hm.
        destruct m as [|m]; [lia|]. cbn [steps]. rewrite inside_step.
        cbn [instr_step solo]. rewrite Hf. reflexivity.
    + cbn [steady] in Hins. destruct Hins as [_ Hkeep].
      eapply steps_loop; [exact Hkeep | exact IH | reflexivity].
Qed.

End Alone.

Lemma init_alone (e : libcrypto) (self : CRYPTO_THREADID) (g : state) :
  exists n, forall m, (n <= m)%nat ->
    steps e self m InitEntry g = do g' <- init e self g; Ok (Returned, g').
Proof.
  destruct (steps_solo e self InitSetup (init_record self)
              ltac:(reflexivity)
              ltac:(intros h; exists 2%nat; intros m Hm;
                    destruct m as [|[|m]]; try lia;
                    cbn [steps thread_step bind fst snd];
                    apply steps_returned)
              (setup_prog e) (steady_setup_prog e) (incr_crypto_refs g)) as [n Hn].
  exists (S (S (S n))). intros m Hm. destruct m as [|m]; [lia|].
  cbn [steps thread_step bind fst snd].
  unfold init. cbv zeta.
  destruct (crypto_refs (incr_crypto_refs g) =? 1).
  - rewrite Hn by lia. unfold init_setup.
    destruct (solo (setup_prog e) (incr_crypto_refs g)); reflexivity.
  - destruct m as [|m]; [lia|]. cbn [steps thread_step bind fst snd].
    apply steps_returned.
Qed.

Lemma shutdown_alone (e : libcrypto) (self : CRYPTO_THREADID) (g : state) :
  exists n, forall m, (n <= m)%nat ->
    steps e self m ShutdownEntry g = do g' <- shutdown g; Ok (Returned, g').
Proof.
  destruct (steps_solo e self ShutdownCleanup (fun h => h)
              ltac:(reflexivity)
              ltac:(intros h; exists 1%nat; intros m Hm;
                    destruct m as [|m]; try lia;
                    cbn [steps thread_step bind fst snd];
                    apply steps_returned)
              cleanup_prog steady_cleanup_prog (shutdown_drain (decr_crypto_refs g)))
    as [n Hn].
  exists (S (S n)). intros m Hm. destruct m as [|m]; [lia|].
  cbn [steps thread_step bind fst snd].
  unfold shutdown. cbv zeta.
  destruct (crypto_refs (decr_crypto_refs g) =? 0); cbn [negb].
  - destruct m as [|m]; [lia|]. cbn [steps thread_step bind fst snd].
    rewrite Hn by lia. unfold shutdown_cleanup.
    destruct (solo cleanup_prog (shutdown_drain (decr_crypto_refs g))); reflexivity.
  - apply steps_returned.
Qed.

(** A thread scheduled [m] times in a row inside a pool does what it does
    alone. *)
Lemma run_thread (e : libcrypto) (i : nat) (self : CRYPTO_THREADID) (m : nat) :
  forall (ts : list (CRYPTO_THREADID * pc)) (p : pc) (g : state),
    ts !! i = Some (self, p) ->
    run e (repeat i m) {| threads := ts; shared := g |}
    = do r <- steps e self m p g;
      Ok {| threads := <[i := (self, fst r)]> ts; shared := snd r |}.
Proof.
  induction m as [|m IH]; intros ts p g Hi.
  - cbn [repeat run steps bind fst snd]. by rewrite list_insert_id.
  - cbn [repeat run steps]. unfold sched_step at 1. cbn [threads shared]. rewrite Hi.
    destruct (thread_step e self p g) as [[p1 g1]| |]; [|reflexivity..].
    cbn [bind fst snd].
    rewrite (IH _ p1 g1)
      by (apply list_lookup_insert_eq; eapply lookup_lt_Some; exact Hi).
    destruct (steps e self m p1 g1) as [[p2 g2]| |]; [|reflexivity..].
    cbn [bind fst snd]. by rewrite list_insert_insert_eq.
Qed.

Lemma run_app (e : libcrypto) (s1 s2 : list nat) :
  forall c, run e (s1 ++ s2) c = do c1 <- run e s1 c; run e s2 c1.
Proof.
  induction s1 as [|i s1 IH]; intros c; [reflexivity|].
  cbn [app run]. destruct (sched_step e i c) as [c1| |]; [apply IH | reflexivity..].
Qed.

(** ** Schedules that run to the end exist

    Letting the threads run one after the other is one of them. *)

Lemma lined_up_lookup (entry : pc) (ids : list CRYPTO_THREADID) (j : nat)
    (self : CRYPTO_THREADID) :
  ids !! j = Some self -> lined_up entry ids j !! j = Some (self, entry).
Proof.
  intros Hj. unfold lined_up.
  rewrite lookup_app_r by (rewrite length_map, length_take; apply lookup_lt_Some in Hj; lia).
  rewrite length_map, length_take.
  replace (j - j `min` length ids)%nat with 0%nat
    by (apply lookup_lt_Some in Hj; lia).
  rewrite (drop_S _ _ _ Hj). reflexivity.
Qed.

Lemma lined_up_next (entry : pc) (ids : list CRYPTO_THREADID) (j : nat)
    (self : CRYPTO_THREADID) :
  ids !! j = Some self ->
  <[j := (self, Returned)]> (lined_up entry ids j) = lined_up entry ids (S j).
Proof.
  intros Hj. unfold lined_up.
  assert (length (map (fun t => (t, Returned)) (take j ids)) = j) as Hlen
    by (rewrite length_map, length_take; apply lookup_lt_Some in Hj; lia).
  rewrite insert_app_r_alt by lia. rewrite Hlen, Nat.sub_diag.
  rewrite (drop_S _ _ _ Hj), (take_S_r _ _ _ Hj). cbn [map].
  rewrite map_app, <- app_assoc. reflexivity.
Qed.

Lemma lined_up_all (entry : pc) (ids : list CRYPTO_THREADID) :
  forallb has_returned (lined_up entry ids (length ids)) = true.
Proof.
  unfold lined_up. rewrite firstn_all, drop_all, app_nil_r.
  induction ids as [|t ids IH]; [reflexivity | exact IH].
Qed.

Lemma bind_Ok_inv {A C : Type} (r : result A) (k : A -> result C) (c : C) :
  (do a <- r; k a) = Ok c -> exists a, r = Ok a /\ k a = Ok c.
Proof. destruct r; cbn; intros H; try discriminate. eauto. Qed.

Lemma init_phase_completes (e : libcrypto) (g0 : state) (ids : list CRYPTO_THREADID) :
  Z.of_nat (length ids) < uint32_modulus ->
  crypto_refs g0 = 0 ->
  new_succeeds e = true \/ CRYPTO_num_locks e <= 0 ->
  exists sched c, run e sched (spawn InitEntry ids g0) = Ok c /\ all_returned c = true.
Proof.
  intros HN Hrefs Hnew.
  assert (forall j, (j <= length ids)%nat ->
            exists sched g,
              run e sched (spawn InitEntry ids g0)
              = Ok {| threads := lined_up InitEntry ids j; shared := g |}) as Haux.
  { induction j as [|j IH]; intros Hj.
    - exists [], g0. reflexivity.
    - destruct IH as (sched & g & Hrun); [lia|].
      destruct (lookup_lt_is_Some_2 ids j) as [self Hself]; [lia|].
      pose proof (init_inv_run e _ HN g0 sched _ _ (init_inv_spawn e g0 ids Hrefs) Hrun)
        as Hinv.
      destruct (init_alone e self g) as [n Hn].
      destruct (init_run_total e _ HN g0 (repeat j n) Hnew _ Hinv) as [c' Hc'].
      pose proof Hc' as Hthread.
      rewrite (run_thread e j self n _ InitEntry g (lined_up_lookup _ _ _ _ Hself)),
        Hn in Hthread by lia.
      apply bind_Ok_inv in Hthread as ([p1 g1] & Hsteps & Hthread).
      apply bind_Ok_inv in Hsteps as (g' & _ & Hsteps).
      injection Hsteps as <- <-. cbn [fst snd] in Hthread.
      rewrite (lined_up_next _ _ _ _ Hself) in Hthread. injection Hthread as <-.
      exists (sched ++ repeat j n), g'.
      rewrite run_app, Hrun. exact Hc'. }
  destruct (Haux (length ids)) as (sched & g & Hrun); [lia|].
  exists sched. eexists. split; [exact Hrun|]. apply lined_up_all.
Qed.

Lemma shutdown_phase_completes (e : libcrypto) (g1 : state) (ids : list CRYPTO_THREADID) :
  (0 < length ids)%nat ->
  Z.of_nat (length ids) < uint32_modulus ->
  crypto_refs g1 = Z.of_nat (length ids) ->
  table_ready g1 ->
  exists sched c, run e sched (spawn ShutdownEntry ids g1) = Ok c /\ all_returned c = true.
Proof.
  intros Hpos HN Hrefs Hready.
  assert (forall j, (j <= length ids)%nat ->
            exists sched g,
              run e sched (spawn ShutdownEntry ids g1)
              = Ok {| threads := lined_up ShutdownEntry ids j; shared := g |}) as Haux.
  { induction j as [|j IH]; intros Hj.
    - exists [], g1. reflexivity.
    - destruct IH as (sched & g & Hrun); [lia|].
      destruct (lookup_lt_is_Some_2 ids j) as [self Hself]; [lia|].
      destruct (shutdown_inv_run e _ HN g1 sched _
                  (shutdown_inv_spawn g1 ids Hpos Hrefs Hready)) as (c & Hc & Hinv).
      rewrite Hrun in Hc. injection Hc as <-.
      destruct (shutdown_alone e self g) as [n Hn].
      destruct (shutdown_inv_run e _ HN g1 (repeat j n) _ Hinv) as (c' & Hc' & _).
      pose proof Hc' as Hthread.
      rewrite (run_thread e j self n _ ShutdownEntry g (lined_up_lookup _ _ _ _ Hself)),
        Hn in Hthread by lia.
      apply bind_Ok_inv in Hthread as ([p1 g2] & Hsteps & Hthread).
      apply bind_Ok_inv in Hsteps as (g' & _ & Hsteps).
      injection Hsteps as <- <-. cbn [fst snd] in Hthread.
      rewrite (lined_up_next _ _ _ _ Hself) in Hthread. injection Hthread as <-.
      exists (sched ++ repeat j n), g'.
      rewrite run_app, Hrun. exact Hc'. }
  destruct (Haux (length ids)) as (sched & g & Hrun); [lia|].
  exists sched. eexists. split; [exact Hrun|]. apply lined_up_all.
Qed.

(** X18. Whenever the table can be allocated, [N] acquires followed by [N]
    releases can run to the end. *)
Lemma acquire_release_completes
    (e : libcrypto) (g0 : state) (ids1 ids2 : list CRYPTO_THREADID) :
  crypto_refs g0 = 0 ->
  (0 < length ids1)%nat ->
  length ids2 = length ids1 ->
  Z.of_nat (length ids1) < uint32_modulus ->
  new_succeeds e = true \/ CRYPTO_num_locks e <= 0 ->
  exists sched1 c1 sched2 c2,
    run e sched1 (spawn InitEntry ids1 g0) = Ok c1
    /\ all_returned c1 = true
    /\ run e sched2 (spawn ShutdownEntry ids2 (shared c1)) = Ok c2
    /\ all_returned c2 = true.
Proof.
  intros Hrefs Hpos Hlen HN Hnew.
  destruct (init_phase_completes e g0 ids1 HN Hrefs Hnew) as (sched1 & c1 & Hrun1 & Hdone1).
  pose proof (init_inv_run e _ HN g0 sched1 _ _ (init_inv_spawn e g0 ids1 Hrefs) Hrun1)
    as [_ _ Hrefs1 Hstage1].
  destruct (all_returned_counts c1 Hdone1) as (HE1 & HS1 & _).
  rewrite HE1, Nat.sub_0_r in Hrefs1.
  destruct Hstage1 as [(?&?&?)|[(?&?&?)|(_ & _ & _ & _ & Hready1)]]; try lia.
  destruct (shutdown_phase_completes e (shared c1) ids2) as (sched2 & c2 & Hrun2 & Hdone2);
    try assumption; try lia.
  exists sched1, c1, sched2, c2. auto.
Qed.

(** ** init and shutdown, one call at a time *)

Lemma init_later (e : libcrypto) (self : CRYPTO_THREADID) (g : state) :
  wrap32 (crypto_refs g + 1) <> 1 ->
  init e self g = Ok (init_record self (incr_crypto_refs g)).
Proof.
  intros H. unfold init. cbn [incr_crypto_refs set_crypto_refs crypto_refs].
  destruct (Z.eqb_spec (wrap32 (crypto_refs g + 1)) 1); [contradiction | reflexivity].
Qed.

Lemma init_first (e : libcrypto) (self : CRYPTO_THREADID) (g : state) :
  wrap32 (crypto_refs g + 1) = 1 ->
  init e self g
  = do g1 <- init_setup e (incr_crypto_refs g); Ok (init_record self g1).
Proof.
  intros H. unfold init. cbn [incr_crypto_refs set_crypto_refs crypto_refs].
  rewrite H. reflexivity.
Qed.

Lemma tids_init (e : libcrypto) (self : CRYPTO_THREADID) (g g' : state) :
  init e self g = Ok g' -> tids g' = tids g ++ [self].
Proof.
  unfold init. intros H.
  destruct (crypto_refs (incr_crypto_refs g) =? 1).
  - destruct (init_setup e (incr_crypto_refs g)) as [g1| |] eqn:Hs; try discriminate.
    apply init_setup_inv in Hs. subst g1. cbn in H. injection H as <-. reflexivity.
  - cbn in H. injection H as <-. reflexivity.
Qed.

Lemma shutdown_last (g : state) :
  wrap32 (crypto_refs g - 1) = 0 ->
  shutdown g = shutdown_cleanup (shutdown_drain (decr_crypto_refs g)).
Proof.
  intros H. unfold shutdown. cbn [decr_crypto_refs set_crypto_refs crypto_refs].
  rewrite H. reflexivity.
Qed.

Lemma shutdown_not_last (g : state) :
  wrap32 (crypto_refs g - 1) <> 0 ->
  shutdown g = Ok (decr_crypto_refs g).
Proof.
  intros H. unfold shutdown. cbn [decr_crypto_refs set_crypto_refs crypto_refs].
  destruct (Z.eqb_spec (wrap32 (crypto_refs g - 1)) 0); [contradiction | reflexivity].
Qed.

Lemma shutdown_last_ok (g : state) :
  wrap32 (crypto_refs g - 1) = 0 ->
  table_ready g ->
  shutdown g = Ok (after_cleanup (shutdown_drain (decr_crypto_refs g))).
Proof.
  intros H Hready. rewrite shutdown_last by assumption.
  apply shutdown_cleanup_ok. destruct g; exact Hready.
Qed.

(** C8. A release whose decremented counter is not zero returns at once:
    the callbacks, the lock table, the thread registry and the trace of
    library calls are what they were. *)
Theorem shutdown_nonzero_frame (g : state) :
  wrap32 (crypto_refs g - 1) <> 0 ->
  exists g',
    shutdown g = Ok g'
    /\ crypto_refs g' = wrap32 (crypto_refs g - 1)
    /\ ssl_mutexes g' = ssl_mutexes g
    /\ ssl_num_locks g' = ssl_num_locks g
    /\ tids g' = tids g
    /\ locking_callback g' = locking_callback g
    /\ id_callback g' = id_callback g
    /\ trace g' = trace g.
Proof.
  intros H. exists (decr_crypto_refs g). rewrite shutdown_not_last by assumption.
  repeat split; reflexivity.
Qed.

(** C10. A release made while the counter is zero wraps it to 2^32 - 1,
    which is not zero, and returns without any call of the shutdown
    sequence. *)
Theorem shutdown_at_zero_wraps (g : state) :
  crypto_refs g = 0 ->
  exists g',
    shutdown g = Ok g'
    /\ crypto_refs g' = 2 ^ 32 - 1
    /\ 0 < crypto_refs g'
    /\ trace g' = trace g
    /\ ssl_mutexes g' = ssl_mutexes g
    /\ ssl_num_locks g' = ssl_num_locks g
    /\ tids g' = tids g
    /\ locking_callback g' = locking_callback g
    /\ id_callback g' = id_callback g.
Proof.
  intros H0.
  assert (wrap32 (crypto_refs g - 1) = 2 ^ 32 - 1) as Hw by (rewrite H0; reflexivity).
  exists (decr_crypto_refs g). rewrite shutdown_not_last by (rewrite Hw; lia).
  cbn. rewrite Hw. repeat split; lia.
Qed.

Lemma for_each_slot_frame (f : pthread_mutex_t -> pthread_mutex_t) (ev : Z -> call) :
  forall (k : nat) (i : Z) (g g' : state),
    for_each_slot (fun j h => update_mutex j f (log [ev j] h)) k i g = Ok g' ->
    tids g' = tids g /\ exists evs, trace g' = trace g ++ evs.
Proof.
  induction k as [|k IH]; intros i g g' H; cbn [for_each_slot] in H.
  - injection H as <-. split; [reflexivity | exists []; by rewrite app_nil_r].
  - destruct (update_mutex i f (log [ev i] g)) as [g1| |] eqn:Hu; try discriminate.
    cbn [bind] in H. apply IH in H as (Ht & evs & Htr).
    unfold update_mutex in Hu. cbn [ssl_mutexes log] in Hu.
    destruct (ssl_mutexes g) as [tbl|]; try discriminate.
    destruct (0 <=? i); try discriminate.
    destruct (tbl !! Z.to_nat i); try discriminate.
    injection Hu as <-. cbn in Ht, Htr.
    split; [assumption|]. exists ([ev i] ++ evs). by rewrite Htr, app_assoc.
Qed.

Lemma shutdown_cleanup_frame (g g' : state) :
  shutdown_cleanup g = Ok g' ->
  tids g' = tids g
  /\ exists evs, trace g' = trace g ++ uninstall_calls ++ library_cleanup_calls ++ evs.
Proof.
  rewrite shutdown_cleanup_eq. unfold cleanup_prog. cbn [solo bind]. intros H.
  match type of H with
  | bind ?loop _ = _ => destruct loop as [g1| |] eqn:Hloop; try discriminate
  end.
  cbn [bind] in H. injection H as <-.
  apply for_each_slot_frame in Hloop as (Ht & evs & Htr).
  fields_in Ht. fields_in Htr. fields. split; [assumption|].
  exists (evs ++ [E_delete_mutexes]). rewrite Htr, <- !app_assoc. reflexivity.
Qed.

(** C5. After the first acquire has run its one-time setup, for a
    libcrypto reporting a count of lock slots that is not negative: the
    lock table has that many mutexes, each initialised recursive and
    unowned, and a thread that takes a slot through the locking callback
    twice in a row gets it both times. *)
Theorem lock_table_after_first_init
    (e : libcrypto) (self : CRYPTO_THREADID) (g g' : state) :
  crypto_refs g = 0 ->
  ssl_mutexes g = None ->
  0 <= CRYPTO_num_locks e ->
  init e self g = Ok g' ->
  ssl_num_locks g' = CRYPTO_num_locks e
  /\ Z.of_nat (length (lock_table g')) = CRYPTO_num_locks e
  /\ Forall (fun m => m = MutexLive PTHREAD_MUTEX_RECURSIVE None 0) (lock_table g')
  /\ forall (t : CRYPTO_THREADID) (mode i : Z),
       Z.land mode 1 <> 0 ->
       0 <= i < CRYPTO_num_locks e ->
       exists g1 g2,
         ssl_locking_callback t mode i g' = Ok (Returns g1)
         /\ ssl_locking_callback t mode i g1 = Ok (Returns g2)
         /\ lock_table g2 !! Z.to_nat i
            = Some (MutexLive PTHREAD_MUTEX_RECURSIVE (Some t) 2).
Proof.
  intros Hrefs Hnull Hnonneg Hinit.
  rewrite init_first in Hinit by (rewrite Hrefs; reflexivity).
  destruct (init_setup e (incr_crypto_refs g)) as [g1| |] eqn:Hsetup; try discriminate.
  apply init_setup_inv in Hsetup. subst g1.
  cbn [bind] in Hinit. injection Hinit as <-.
  set (n := CRYPTO_num_locks e) in *.
  assert (Z.max n 0 = n) as Hmax by lia.
  assert (lock_table (init_record self (after_setup e (incr_crypto_refs g)))
          = replicate (Z.to_nat n) fresh_mutex) as Htbl.
  { unfold lock_table. cbn. fold n. rewrite Hmax, Hnull.
    destruct (Z.ltb_spec 0 n); [reflexivity|].
    by replace (Z.to_nat n) with 0%nat by lia. }
  repeat split.
  - cbn. fold n. assumption.
  - rewrite Htbl, length_replicate. lia.
  - rewrite Htbl. apply Forall_forall. intros m Hm.
    apply elem_of_replicate in Hm as [-> _]. reflexivity.
  - intros t mode i Hmode Hi.
    assert (ssl_mutexes (init_record self (after_setup e (incr_crypto_refs g)))
            = Some (replicate (Z.to_nat n) fresh_mutex)) as Hptr.
    { cbn. fold n. rewrite Hmax.
      destruct (Z.ltb_spec 0 n); [reflexivity | lia]. }
    assert (Z.to_nat i < Z.to_nat n)%nat as Hlt by lia.
    unfold ssl_locking_callback at 1. rewrite Hptr.
    destruct (Z.leb_spec 0 i); [|lia].
    rewrite lookup_replicate_2 by assumption.
    destruct (Z.eqb_spec (Z.land mode 1) 0); [contradiction|].
    cbn [negb fresh_mutex pthread_mutex_lock].
    eexists. eexists. split; [reflexivity|].
    unfold ssl_locking_callback. cbn [ssl_mutexes set_ssl_mutexes].
    destruct (Z.leb_spec 0 i); [|lia].
    rewrite list_lookup_insert_eq by (rewrite length_replicate; assumption).
    destruct (Z.eqb_spec (Z.land mode 1) 0); [contradiction|].
    cbn [negb pthread_mutex_lock]. rewrite Z.eqb_refl.
    split; [reflexivity|].
    unfold lock_table. cbn [ssl_mutexes set_ssl_mutexes].
    apply list_lookup_insert_eq. rewrite length_insert, length_replicate. assumption.
Qed.

(** C2, as the code has it.  Every acquire that returns has appended the
    calling thread's identity to the registry, under the registry's lock,
    first acquire or not.  The release that brings the counter from 1 to 0
    calls [ERR_remove_thread_state] for every recorded identity under that
    lock and leaves the registry as it was: no entry is removed. *)
Theorem registry_after_init_and_shutdown
    (e : libcrypto) (self : CRYPTO_THREADID) (g g1 h h2 : state) :
  init e self g = Ok g1 ->
  crypto_refs h = 1 ->
  shutdown h = Ok h2 ->
  (In self (tids g1)
   /\ tids g1 = tids g ++ [self]
   /\ exists evs, trace g1 = trace g ++ evs ++ record_calls self)
  /\
  (tids h2 = tids h
   /\ exists evs, trace h2 = trace h ++ drain_calls (tids h) ++ evs).
Proof.
  intros Hinit Hrefs Hshut. split.
  - pose proof (tids_init _ _ _ _ Hinit) as Htids.
    repeat split.
    + rewrite Htids. apply in_or_app. right. left. reflexivity.
    + assumption.
    + unfold init in Hinit.
      destruct (crypto_refs (incr_crypto_refs g) =? 1).
      * destruct (init_setup e (incr_crypto_refs g)) as [g2| |] eqn:Hs; try discriminate.
        apply init_setup_inv in Hs. subst g2. cbn [bind] in Hinit. injection Hinit as <-.
        exists (setup_calls e). rewrite trace_init_record. cbn.
        by rewrite <- app_assoc.
      * cbn [bind] in Hinit. injection Hinit as <-.
        exists []. rewrite trace_init_record. reflexivity.
  - rewrite shutdown_last in Hshut by (rewrite Hrefs; reflexivity).
    apply shutdown_cleanup_frame in Hshut as (Ht & evs & Htr).
    split.
    + rewrite Ht. reflexivity.
    + rewrite Htr, trace_shutdown_drain. cbn [decr_crypto_refs set_crypto_refs trace tids].
      eexists. rewrite <- !app_assoc. reflexivity.
Qed.

(** ** Memory *)

Lemma store_frame (bs : list Byte.byte) :
  forall (m m' : memory) (p : Z),
    store m p bs = Some m' ->
    forall a, a < p \/ p + Z.of_nat (length bs) <= a -> m' a = m a.
Proof.
  induction bs as [|b bs IH]; intros m m' p Hst a Ha; cbn [store] in Hst.
  - by injection Hst as <-.
  - destruct (m p); try discriminate.
    rewrite (IH _ _ _ Hst a) by (cbn [length] in Ha; lia).
    unfold poke. destruct (Z.eqb_spec a p); [cbn [length] in Ha; lia | reflexivity].
Qed.

Lemma load_store (bs : list Byte.byte) :
  forall (m m' : memory) (p : Z),
    store m p bs = Some m' -> load m' p (length bs) = Some bs.
Proof.
  induction bs as [|b bs IH]; intros m m' p Hst; cbn [store] in Hst; [reflexivity|].
  destruct (m p); try discriminate.
  cbn [length load].
  rewrite (store_frame _ _ _ _ Hst p) by lia.
  rewrite (IH _ _ _ Hst).
  unfold poke. by rewrite Z.eqb_refl.
Qed.

(** ** The digest wrapper *)

Section DigestFacts.

Context {B : evp_backend}.
Implicit Types (d : OpenSSLDigest B) (m : memory).

Lemma Final_eq d m digest :
  Final d m digest
  = match store m digest (final_bytes d) with
    | Some m' =>
        Ok ({| mpContext := fst (fst (EVP_DigestFinal_ex B (mpContext d)));
               mpType := mpType d;
               evp_calls := evp_calls d ++ [E_EVP_DigestFinal_ex digest] |}, m')
    | None => Fault
    end.
Proof.
  unfold Final, final_bytes.
  by destruct (EVP_DigestFinal_ex B (mpContext d)) as [[ctx md] s].
Qed.

Lemma Final_same_context d1 d2 m digest :
  mpContext d1 = mpContext d2 ->
  output (Final d1 m digest) = output (Final d2 m digest).
Proof.
  intros Hctx. rewrite !Final_eq. unfold final_bytes. rewrite Hctx.
  by destruct (store m digest _).
Qed.

Lemma feed_app (Hstream : streaming B) (c : EVP_MD_CTX B) (a b : list Byte.byte) :
  feed (feed c a) b = feed c (a ++ b).
Proof.
  destruct a as [|x a]; [reflexivity|].
  destruct b as [|y b]; [by rewrite app_nil_r|].
  cbn [feed app]. apply (Hstream c (x :: a) (y :: b)); discriminate.
Qed.

Lemma Update_feeds d m input (bytes : list Byte.byte) :
  load m input (length bytes) = Some bytes ->
  exists d', Update d m input (Z.of_nat (length bytes)) = Ok d'
             /\ mpContext d' = feed (mpContext d) bytes
             /\ mpType d' = mpType d.
Proof.
  intros Hload. unfold Update.
  destruct bytes as [|b bytes].
  - cbn. eauto.
  - destruct (Z.eqb_spec (Z.of_nat (length (b :: bytes))) 0) as [H0|_];
      [cbn [length] in H0; lia|].
    cbn [negb]. rewrite Nat2Z.id, Hload. eexists. split; [reflexivity|]. cbn. auto.
Qed.

Lemma Updates_feed m (calls : list (Z * Z)) (chunks : list (list Byte.byte)) :
  streaming B ->
  Forall2 (fun call chunk =>
             snd call = Z.of_nat (length chunk)
             /\ load m (fst call) (length chunk) = Some chunk) calls chunks ->
  forall d,
  exists d', Updates d m calls = Ok d'
             /\ mpContext d' = feed (mpContext d) (concat chunks)
             /\ mpType d' = mpType d.
Proof.
  intros Hstream Hall. induction Hall as [|[input len] chunk calls chunks [Hlen Hload] _ IH];
    intros d.
  - cbn. eauto.
  - cbn [Updates concat]. cbn [fst snd] in Hlen, Hload. subst len.
    destruct (Update_feeds d m input chunk Hload) as (d1 & -> & Hctx1 & Hty1).
    cbn [bind]. destruct (IH d1) as (d' & Hup & Hctx & Hty).
    exists d'. split; [assumption|]. split; [|congruence].
    rewrite Hctx, Hctx1. by apply feed_app.
Qed.

End DigestFacts.

(** C4. [Update] with length zero returns the digest object as it was,
    whatever the buffer pointer and whatever is mapped in memory: no byte
    is read and no call reaches the hash context. *)
Theorem Update_zero_length_noop
    (B : evp_backend) (d : OpenSSLDigest B) (m : memory) (input : Z) :
  Update d m input 0 = Ok d.
Proof. reflexivity. Qed.

(** C9. With a libcrypto that digests a stream, and buffers that hold the
    bytes: after [Restart], one [Update] with the whole sequence and any
    series of [Update] calls with chunks whose concatenation is that
    sequence (empty chunks included) reach the same hash context, and
    [Final] then leaves the same bytes in the caller's buffer. *)
Theorem incremental_update_equivalence
    (B : evp_backend) (d : OpenSSLDigest B) (m : memory)
    (s : list Byte.byte) (input : Z)
    (calls : list (Z * Z)) (chunks : list (list Byte.byte)) (digest : Z) :
  streaming B ->
  load m input (length s) = Some s ->
  Forall2 (fun call chunk =>
             snd call = Z.of_nat (length chunk)
             /\ load m (fst call) (length chunk) = Some chunk) calls chunks ->
  concat chunks = s ->
  exists d1 d2,
    Update (Restart d) m input (Z.of_nat (length s)) = Ok d1
    /\ Updates (Restart d) m calls = Ok d2
    /\ mpContext d1 = mpContext d2
    /\ output (Final d1 m digest) = output (Final d2 m digest).
Proof.
  intros Hstream Hload Hchunks Hcat.
  destruct (Update_feeds (Restart d) m input s Hload) as (d1 & Hu1 & Hc1 & _).
  destruct (Updates_feed m calls chunks Hstream Hchunks (Restart d)) as (d2 & Hu2 & Hc2 & _).
  exists d1, d2. rewrite Hcat in Hc2.
  assert (mpContext d1 = mpContext d2) as Hctx by congruence.
  repeat split; try assumption. by apply Final_same_context.
Qed.

(** C3, as the code has it.  [Final] never asserts, whatever size
    libcrypto reports; when it returns, the caller's buffer holds exactly
    the bytes libcrypto's finalizer produced, memory outside them is
    untouched, and so the algorithm's digest length is written whenever
    libcrypto produces that many bytes. *)
Theorem Final_writes_backend_bytes
    (B : evp_backend) (d d' : OpenSSLDigest B) (m m' : memory) (digest : Z) :
  Final d m digest = Ok (d', m') ->
  load m' digest (length (final_bytes d)) = Some (final_bytes d)
  /\ (forall a, a < digest \/ digest + Z.of_nat (length (final_bytes d)) <= a ->
                m' a = m a)
  /\ (Z.of_nat (length (final_bytes d)) = EVP_MD_size B (mpType d) ->
      exists md, Z.of_nat (length md) = EVP_MD_size B (mpType d)
                 /\ load m' digest (length md) = Some md)
  /\ (forall (m0 : memory) (p : Z) (msg : string), Final d m0 p <> AssertFail msg).
Proof.
  intros HF. rewrite Final_eq in HF.
  destruct (store m digest (final_bytes d)) as [m1|] eqn:Hst; try discriminate.
  injection HF as _ <-.
  pose proof (load_store _ _ _ _ Hst) as Hload.
  repeat split.
  - assumption.
  - intros a Ha. eapply store_frame; eassumption.
  - intros Hlen. eauto.
  - intros m0 p msg. rewrite Final_eq. by destruct (store m0 p _).
Qed.

(** ** Further facts about the lock table and the digest wrapper *)

(** Whatever libcrypto reports, the table gets [max(count, 0)] slots. *)
Lemma lock_table_size_clamped (e : libcrypto) (self : CRYPTO_THREADID) (g g' : state) :
  crypto_refs g = 0 ->
  init e self g = Ok g' ->
  ssl_num_locks g' = Z.max (CRYPTO_num_locks e) 0.
Proof.
  intros Hrefs Hinit.
  rewrite init_first in Hinit by (rewrite Hrefs; reflexivity).
  destruct (init_setup e (incr_crypto_refs g)) as [g1| |] eqn:Hsetup; try discriminate.
  apply init_setup_inv in Hsetup. subst g1.
  cbn [bind] in Hinit. injection Hinit as <-. reflexivity.
Qed.

(** The table stays usable as long as the library is live. *)
Lemma init_keeps_table_ready (e : libcrypto) (self : CRYPTO_THREADID) (g g' : state) :
  table_ready g \/ wrap32 (crypto_refs g + 1) = 1 ->
  init e self g = Ok g' ->
  table_ready g'.
Proof.
  intros Hpre Hinit.
  destruct (Z.eq_dec (wrap32 (crypto_refs g + 1)) 1) as [Hfirst|Hlater].
  - rewrite init_first in Hinit by assumption.
    destruct (init_setup e (incr_crypto_refs g)) as [g1| |] eqn:Hsetup; try discriminate.
    apply init_setup_inv in Hsetup. subst g1.
    cbn [bind] in Hinit. injection Hinit as <-.
    exact (after_setup_table_ready e (incr_crypto_refs g)).
  - rewrite init_later in Hinit by assumption. injection Hinit as <-.
    destruct Hpre as [Hready|?]; [exact Hready | contradiction].
Qed.

(** A default mutex in the table would not do: the second lock by the
    same thread never returns. *)
Lemma default_mutex_hangs (t : CRYPTO_THREADID) (g : state) :
  ssl_mutexes g = Some [MutexLive PTHREAD_MUTEX_DEFAULT (Some t) 1] ->
  ssl_locking_callback t CRYPTO_LOCK 0 g = Ok Hangs.
Proof.
  intros Hptr. unfold ssl_locking_callback. rewrite Hptr.
  change (Z.to_nat 0) with 0%nat. cbn [Z.leb Z.compare lookup list_lookup].
  change (negb (Z.land CRYPTO_LOCK 1 =? 0)) with true.
  cbn [pthread_mutex_lock]. by rewrite Z.eqb_refl.
Qed.

(** With a length that is not zero the bytes are read: a buffer that is
    not mapped is a fault. *)
Lemma Update_unmapped_faults (B : evp_backend) (d : OpenSSLDigest B) (m : memory)
    (input length : Z) :
  0 < length -> m input = None -> Update d m input length = Fault.
Proof.
  intros Hpos Hnone. unfold Update.
  destruct (Z.eqb_spec length 0) as [Hz|Hz]; [lia|]. cbn [negb].
  destruct (Z.to_nat length) as [|k] eqn:Hk; [lia|].
  cbn [load]. by rewrite Hnone.
Qed.

(** ** The theorems at concrete inputs *)

Lemma acquire_release_once_witness :
  run three_locks three_inits (spawn InitEntry [11; 12; 13] initial_state)
  = Ok after_three_inits
  /\ run three_locks three_shutdowns
       (spawn ShutdownEntry [12; 13; 11] (shared after_three_inits))
     = Ok after_three_shutdowns
  /\ lifecycle (trace (shared after_three_shutdowns))
     = lifecycle (trace initial_state) ++ setup_calls three_locks
         ++ lifecycle (shutdown_calls (tids (shared after_three_inits))
                         (Z.max (CRYPTO_num_locks three_locks) 0))
  /\ crypto_refs (shared after_three_inits) = Z.of_nat (length [11; 12; 13])
  /\ crypto_refs (shared after_three_shutdowns) = 0.
Proof.
  split; [reflexivity|]. split; [reflexivity|].
  apply (acquire_release_once three_locks initial_state [11; 12; 13] [12; 13; 11]
           three_inits three_shutdowns after_three_inits after_three_shutdowns).
  - reflexivity.
  - cbn. lia.
  - reflexivity.
  - reflexivity.
  - reflexivity.
  - reflexivity.
  - reflexivity.
  - reflexivity.
Defined.

Lemma registry_after_init_and_shutdown_witness :
  (In 7 (tids one_holder)
   /\ tids one_holder = tids initial_state ++ [7]
   /\ exists evs, trace one_holder = trace initial_state ++ evs ++ record_calls 7)
  /\
  (tids drained = tids one_holder
   /\ exists evs, trace drained = trace one_holder ++ drain_calls (tids one_holder) ++ evs).
Proof.
  apply (registry_after_init_and_shutdown three_locks 7 initial_state one_holder
           one_holder drained); reflexivity.
Defined.

(** C2, as stated, at a concrete input: the release that drains the
    counter leaves thread 7's entry in the registry. *)
Lemma registry_survives_draining_release :
  init three_locks 7 initial_state = Ok one_holder
  /\ crypto_refs one_holder = 1
  /\ shutdown one_holder = Ok drained
  /\ crypto_refs drained = 0
  /\ tids drained = [7]
  /\ ~ (forall g g' : state,
          crypto_refs g = 1 -> shutdown g = Ok g' -> tids g' = []).
Proof.
  repeat split; try reflexivity.
  intros Hclear. specialize (Hclear one_holder drained eq_refl eq_refl). discriminate Hclear.
Qed.

Lemma lock_table_after_first_init_witness :
  ssl_num_locks one_holder = CRYPTO_num_locks three_locks
  /\ Z.of_nat (length (lock_table one_holder)) = CRYPTO_num_locks three_locks
  /\ Forall (fun m => m = MutexLive PTHREAD_MUTEX_RECURSIVE None 0) (lock_table one_holder)
  /\ forall (t : CRYPTO_THREADID) (mode i : Z),
       Z.land mode 1 <> 0 ->
       0 <= i < CRYPTO_num_locks three_locks ->
       exists g1 g2,
         ssl_locking_callback t mode i one_holder = Ok (Returns g1)
         /\ ssl_locking_callback t mode i g1 = Ok (Returns g2)
         /\ lock_table g2 !! Z.to_nat i
            = Some (MutexLive PTHREAD_MUTEX_RECURSIVE (Some t) 2).
Proof.
  apply (lock_table_after_first_init three_locks 7 initial_state one_holder).
  - reflexivity.
  - reflexivity.
  - cbn. lia.
  - reflexivity.
Defined.

Lemma shutdown_nonzero_frame_witness :
  wrap32 (crypto_refs two_holders - 1) <> 0
  /\ exists g',
       shutdown two_holders = Ok g'
       /\ crypto_refs g' = wrap32 (crypto_refs two_holders - 1)
       /\ ssl_mutexes g' = ssl_mutexes two_holders
       /\ ssl_num_locks g' = ssl_num_locks two_holders
       /\ tids g' = tids two_holders
       /\ locking_callback g' = locking_callback two_holders
       /\ id_callback g' = id_callback two_holders
       /\ trace g' = trace two_holders.
Proof.
  assert (wrap32 (crypto_refs two_holders - 1) <> 0) as H by (vm_compute; discriminate).
  split; [exact H | apply (shutdown_nonzero_frame two_holders H)].
Defined.

Lemma shutdown_at_zero_wraps_witness :
  exists g',
    shutdown initial_state = Ok g'
    /\ crypto_refs g' = 2 ^ 32 - 1
    /\ 0 < crypto_refs g'
    /\ trace g' = trace initial_state
    /\ ssl_mutexes g' = ssl_mutexes initial_state
    /\ ssl_num_locks g' = ssl_num_locks initial_state
    /\ tids g' = tids initial_state
    /\ locking_callback g' = locking_callback initial_state
    /\ id_callback g' = id_callback initial_state.
Proof. apply (shutdown_at_zero_wraps initial_state). reflexivity. Defined.

(** ** The digest wrapper at concrete inputs *)

Lemma sum8_streaming : streaming sum8_backend.
Proof. intros c a b _ _. cbn. unfold sum8. symmetry. apply fold_left_app. Qed.

Lemma incremental_update_equivalence_witness :
  exists d1 d2,
    Update (Restart (OpenSSLDigest_new (B := sum8_backend) tt)) example_memory 100 5 = Ok d1
    /\ Updates (Restart (OpenSSLDigest_new (B := sum8_backend) tt)) example_memory
         [(100, 2); (0, 0); (102, 3)] = Ok d2
    /\ mpContext d1 = mpContext d2
    /\ output (Final d1 example_memory 200) = output (Final d2 example_memory 200).
Proof.
  apply (incremental_update_equivalence sum8_backend (OpenSSLDigest_new (B := sum8_backend) tt) example_memory
           message 100 [(100, 2); (0, 0); (102, 3)]
           [[Byte.x01; Byte.x02]; []; [Byte.x03; Byte.x04; Byte.x05]] 200).
  - exact sum8_streaming.
  - reflexivity.
  - repeat constructor.
  - reflexivity.
Defined.

Lemma Final_writes_backend_bytes_witness :
  exists (d' : OpenSSLDigest sum8_backend) (m' : memory),
    Final (OpenSSLDigest_new (B := sum8_backend) tt) example_memory 200 = Ok (d', m')
    /\ load m' 200 1 = Some [Byte.x00]
    /\ m' 201 = example_memory 201.
Proof.
  eexists. eexists. split; [reflexivity|].
  destruct (Final_writes_backend_bytes sum8_backend (OpenSSLDigest_new (B := sum8_backend) tt) _
              example_memory _ 200 eq_refl) as (Hload & Hframe & _).
  split; [exact Hload | apply Hframe; right; cbn; lia].
Defined.

(** C3, as stated, at a concrete input: libcrypto reports and writes one
    byte for an algorithm whose digest length is 16, and [Final] returns
    as if nothing had happened. *)
Lemma Final_trusts_backend_size :
  let d := OpenSSLDigest_new (B := short_backend) tt in
  EVP_MD_size short_backend (mpType d) = 16
  /\ final_size d = 1
  /\ length (final_bytes d) = 1%nat
  /\ (exists r, Final d example_memory 200 = Ok r)
  /\ ~ (forall (B : evp_backend) (d : OpenSSLDigest B) (m : memory) (digest : Z)
               (r : OpenSSLDigest B * memory),
          Final d m digest = Ok r ->
          final_size d = EVP_MD_size B (mpType d)
          /\ Z.of_nat (length (final_bytes d)) = EVP_MD_size B (mpType d)).
Proof.
  cbv zeta. repeat split; try reflexivity.
  - eexists. reflexivity.
  - intros Hclaim.
    destruct (Hclaim short_backend (OpenSSLDigest_new (B := short_backend) tt) example_memory 200 _ eq_refl)
      as [Hsize _].
    discriminate Hsize.
Qed.

(** * Proofs about histories, the callbacks, overlapping calls and the digest object *)

(** The destroy loop runs to [ssl_num_locks], whatever the table holds:
    over a table that is shorter, or through nullptr, it leaves the
    array. *)
Lemma for_each_slot_short (f : pthread_mutex_t -> pthread_mutex_t) (ev : Z -> call) :
  forall (k i : nat) (g : state),
    (length (lock_table g) < i + k)%nat ->
    (i <= length (lock_table g))%nat ->
    for_each_slot (fun j h => update_mutex j f (log [ev j] h)) k (Z.of_nat i) g = Fault.
Proof.
  induction k as [|k IH]; intros i g Hshort Hi; [lia|].
  cbn [for_each_slot]. unfold lock_table in Hshort, Hi.
  unfold update_mutex at 1. cbn [ssl_mutexes log].
  destruct (ssl_mutexes g) as [tbl|] eqn:Htbl; [|reflexivity].
  destruct (Z.leb_spec 0 (Z.of_nat i)); [|lia]. rewrite Nat2Z.id.
  destruct (tbl !! i) as [m|] eqn:Hm; [|reflexivity].
  cbn [bind]. apply lookup_lt_Some in Hm.
  replace (Z.of_nat i + 1) with (Z.of_nat (S i)) by lia.
  apply IH; unfold lock_table; cbn [ssl_mutexes set_ssl_mutexes]; rewrite length_insert; lia.
Qed.

Lemma shutdown_cleanup_short (g : state) :
  ~ table_ready g -> shutdown_cleanup g = Fault.
Proof.
  unfold table_ready. intros Hshort.
  unfold shutdown_cleanup, cleanup_prog. cbn [solo bind]. fields. rewrite Z.sub_0_r.
  rewrite (for_each_slot_short _ E_pthread_mutex_destroy
             (Z.to_nat (ssl_num_locks g)) 0); [reflexivity | |];
    unfold lock_table; fields; fold (lock_table g); lia.
Qed.




(** ** init when the registry cannot grow *)

Lemma init_or_throw_grows (e : libcrypto) (self : CRYPTO_THREADID) (g : state) :
  init_or_throw e true self g = Finished (init e self g).
Proof.
  unfold init_or_throw, init. cbv zeta.
  destruct (crypto_refs (incr_crypto_refs g) =? 1); [|reflexivity].
  destruct (init_setup e (incr_crypto_refs g)); reflexivity.
Qed.

Lemma init_or_throw_later (e : libcrypto) (ok : bool) (self : CRYPTO_THREADID)
    (g : state) :
  wrap32 (crypto_refs g + 1) <> 1 ->
  init_or_throw e ok self g = init_record_or_throw ok self (incr_crypto_refs g).
Proof.
  intros H. unfold init_or_throw. cbn [incr_crypto_refs set_crypto_refs crypto_refs].
  destruct (Z.eqb_spec (wrap32 (crypto_refs g + 1)) 1); [contradiction | reflexivity].
Qed.

Lemma init_or_throw_first (e : libcrypto) (ok : bool) (self : CRYPTO_THREADID)
    (g : state) :
  wrap32 (crypto_refs g + 1) = 1 ->
  init_or_throw e ok self g
  = match init_setup e (incr_crypto_refs g) with
    | Ok g1 => init_record_or_throw ok self g1
    | AssertFail msg => Finished (AssertFail msg)
    | Fault => Finished Fault
    end.
Proof.
  intros H. unfold init_or_throw. cbn [incr_crypto_refs set_crypto_refs crypto_refs].
  rewrite H. reflexivity.
Qed.

(** The first acquire with a table to be had. *)
Lemma init_or_throw_at_zero (e : libcrypto) (ok : bool) (self : CRYPTO_THREADID)
    (g : state) :
  crypto_refs g = 0 ->
  new_succeeds e = true \/ CRYPTO_num_locks e <= 0 ->
  init_or_throw e ok self g
  = init_record_or_throw ok self (after_setup e (incr_crypto_refs g)).
Proof.
  intros Hrefs Hnew.
  rewrite init_or_throw_first by (rewrite Hrefs; reflexivity).
  rewrite init_setup_ok by assumption. reflexivity.
Qed.




(** ** The first and the later acquires *)

Lemma wrap32_one : wrap32 1 = 1.
Proof. reflexivity. Qed.

Lemma init_at_zero (e : libcrypto) (self : CRYPTO_THREADID) (g : state) :
  crypto_refs g = 0 ->
  new_succeeds e = true \/ CRYPTO_num_locks e <= 0 ->
  init e self g = Ok (init_record self (after_setup e (incr_crypto_refs g))).
Proof.
  intros Hrefs Hnew.
  rewrite init_first by (rewrite Hrefs; reflexivity).
  rewrite init_setup_ok by assumption. reflexivity.
Qed.


(** X2. An acquire that does not see the counter at 1 makes no call of the
    setup and no allocation for the table, whatever [new[]] would
    answer: it moves the counter and goes to the registry.  When the
    registry can grow it returns with the caller recorded; when it
    cannot, [std::bad_alloc] leaves [init] with the counter moved and
    the registry as it was. *)
Theorem later_init_frame (e : libcrypto) (emplace_back_succeeds : bool)
    (self : CRYPTO_THREADID) (g : state) :
  wrap32 (crypto_refs g + 1) <> 1 ->
  exists g',
    init_or_throw e emplace_back_succeeds self g
    = (if emplace_back_succeeds then Finished (Ok g') else Throws g')
    /\ crypto_refs g' = wrap32 (crypto_refs g + 1)
    /\ ssl_mutexes g' = ssl_mutexes g
    /\ ssl_num_locks g' = ssl_num_locks g
    /\ locking_callback g' = locking_callback g
    /\ id_callback g' = id_callback g
    /\ tids g' = (if emplace_back_succeeds then tids g ++ [self] else tids g)
    /\ trace g' = trace g ++ record_calls self.
Proof.
  intros H. rewrite init_or_throw_later by assumption.
  destruct emplace_back_succeeds; (eexists; split; [reflexivity|]);
    fields; repeat split; rewrite <- !app_assoc; reflexivity.
Qed.

(** ** A libcrypto that asks for no lock slot *)

Lemma setup_calls_no_slot (e : libcrypto) :
  CRYPTO_num_locks e <= 0 -> setup_calls e = setup_calls_without_table.
Proof.
  intros Hle. unfold setup_calls, setup_calls_without_table, slots.
  replace (Z.max (CRYPTO_num_locks e) 0) with 0 by lia. reflexivity.
Qed.

Lemma locking_callback_null (t : CRYPTO_THREADID) (mode i : Z) (g : state) :
  ssl_mutexes g = None -> ssl_locking_callback t mode i g = Fault.
Proof. intros H. unfold ssl_locking_callback. by rewrite H. Qed.

(** X3. When [CRYPTO_num_locks()] is zero or negative, the first acquire
    allocates no table and initialises no mutex, whatever [new[]] would
    answer, yet registers both callbacks: [ssl_mutexes] stays null, so
    that any call of the locking callback is a null dereference.  The
    acquire returns when the registry can grow and lets [std::bad_alloc]
    through when it cannot; either way the release that follows runs
    through. *)
Theorem init_without_lock_slots (e : libcrypto) (emplace_back_succeeds : bool)
    (self : CRYPTO_THREADID) (g : state) :
  crypto_refs g = 0 ->
  ssl_mutexes g = None ->
  CRYPTO_num_locks e <= 0 ->
  exists g',
    init_or_throw e emplace_back_succeeds self g
    = (if emplace_back_succeeds then Finished (Ok g') else Throws g')
    /\ trace g' = trace g ++ setup_calls_without_table ++ record_calls self
    /\ ssl_num_locks g' = 0
    /\ ssl_mutexes g' = None
    /\ locking_callback g' = true
    /\ (forall (t : CRYPTO_THREADID) (mode i : Z), ssl_locking_callback t mode i g' = Fault)
    /\ exists g'', shutdown g' = Ok g'' /\ ssl_mutexes g'' = None /\ crypto_refs g'' = 0.
Proof.
  intros Hrefs Hnull Hle.
  assert (Z.max (CRYPTO_num_locks e) 0 = 0) as Hmax by lia.
  rewrite init_or_throw_at_zero by auto.
  destruct emplace_back_succeeds; (eexists; split; [reflexivity|]).
  all: match goal with
       | |- context [ssl_mutexes ?h = None] =>
           assert (ssl_mutexes h = None) as Hptr by (fields; rewrite Hmax; exact Hnull)
       end.
  all: repeat split;
    [ fields; rewrite setup_calls_no_slot by assumption;
      rewrite <- !app_assoc; reflexivity
    | fields; assumption
    | assumption
    | intros t mode i; by apply locking_callback_null
    | eexists; split;
      [ apply shutdown_last_ok;
        [ fields; rewrite Hrefs; reflexivity
        | unfold table_ready, lock_table; rewrite Hptr; fields; rewrite Hmax; cbn; lia ]
      | split; [reflexivity | fields; rewrite Hrefs; reflexivity] ] ].
Qed.

(** ** A release without a holder, and the acquire after it *)


(** ** Histories of calls *)

Lemma live_table_ready (e : libcrypto) (g : state) : live e g -> table_ready g.
Proof.
  intros (_ & _ & Hn & Htbl). unfold table_ready.
  rewrite Htbl, Hn, length_replicate. lia.
Qed.

Lemma live_after_setup (e : libcrypto) (self : CRYPTO_THREADID) (g : state) :
  ssl_mutexes g = None -> live e (init_record self (after_setup e (incr_crypto_refs g))).
Proof.
  intros Hnull. unfold live, lock_table. fields. repeat split.
  destruct (Z.ltb_spec 0 (Z.max (CRYPTO_num_locks e) 0)) as [Hpos|Hle]; [reflexivity|].
  rewrite Hnull. by replace (Z.to_nat (Z.max (CRYPTO_num_locks e) 0)) with 0%nat by lia.
Qed.

Lemma api_run_balanced (e : libcrypto) (h : list api_call) :
  new_succeeds e = true \/ CRYPTO_num_locks e <= 0 ->
  forall (n k : nat) (g : state),
    crypto_refs g = Z.of_nat n ->
    (n = 0%nat -> at_rest g) ->
    ((0 < n)%nat -> live e g) ->
    Z.of_nat (n + length h) < uint32_modulus ->
    holders n h = Some k ->
    exists g',
      api_run e h g = Ok g'
      /\ crypto_refs g' = Z.of_nat k
      /\ tids g' = tids g ++ callers h
      /\ (k = 0%nat -> at_rest g')
      /\ ((0 < k)%nat -> live e g').
Proof.
  intros Hnew. induction h as [|a h IH]; intros n k g Hrefs Hrest Hlive Hsmall Hbal.
  - cbn in Hbal. injection Hbal as <-. exists g. cbn [api_run callers].
    rewrite app_nil_r. auto.
  - cbn [length] in Hsmall.
    destruct a as [self|sh]; cbn [holders] in Hbal; cbn [api_run api_step callers].
    + unfold ceph_crypto_init.
      destruct n as [|n].
      * destruct (Hrest eq_refl) as (Hnull & _ & _).
        rewrite init_at_zero by (assumption || exact Hrefs). cbn [bind].
        destruct (IH 1%nat k (init_record self (after_setup e (incr_crypto_refs g))))
          as (g' & Hrun & Hk & Htids & Hr & Hl);
          [ fields; rewrite Hrefs; reflexivity
          | discriminate
          | intros _; by apply live_after_setup
          | lia
          | exact Hbal
          | ].
        exists g'. split; [assumption|]. split; [assumption|].
        split; [|auto]. rewrite Htids. fields. by rewrite <- app_assoc.
      * assert (wrap32 (crypto_refs g + 1) = Z.of_nat (S (S n))) as Hw.
        { rewrite Hrefs. unfold wrap32. rewrite Z.mod_small; lia. }
        rewrite init_later by (rewrite Hw; lia). cbn [bind].
        destruct (IH (S (S n)) k (init_record self (incr_crypto_refs g)))
          as (g' & Hrun & Hk & Htids & Hr & Hl);
          [ fields; exact Hw
          | discriminate
          | intros _; exact (Hlive ltac:(lia))
          | lia
          | exact Hbal
          | ].
        exists g'. split; [assumption|]. split; [assumption|].
        split; [|auto]. rewrite Htids. fields. by rewrite <- app_assoc.
    + unfold ceph_crypto_shutdown.
      destruct n as [|n]; [discriminate|].
      pose proof (Hlive ltac:(lia)) as Hl0.
      destruct n as [|n].
      * rewrite shutdown_last_ok;
          [| rewrite Hrefs; reflexivity | by eapply live_table_ready].
        cbn [bind].
        destruct (IH 0%nat k (after_cleanup (shutdown_drain (decr_crypto_refs g))))
          as (g' & Hrun & Hk & Htids & Hr & Hl);
          [ fields; rewrite Hrefs; reflexivity
          | intros _; unfold at_rest; fields; auto
          | lia
          | lia
          | exact Hbal
          | ].
        exists g'. split; [assumption|]. split; [assumption|].
        split; [|auto]. rewrite Htids. fields. reflexivity.
      * assert (wrap32 (crypto_refs g - 1) = Z.of_nat (S n)) as Hw.
        { rewrite Hrefs. unfold wrap32. rewrite Z.mod_small; lia. }
        rewrite shutdown_not_last by (rewrite Hw; lia). cbn [bind].
        destruct (IH (S n) k (decr_crypto_refs g))
          as (g' & Hrun & Hk & Htids & Hr & Hl);
          [ fields; exact Hw
          | discriminate
          | intros _; exact Hl0
          | lia
          | exact Hbal
          | ].
        exists g'. split; [assumption|]. split; [assumption|].
        split; [|auto]. rewrite Htids. fields. reflexivity.
Qed.

Lemma api_run_flags (e : libcrypto) (h h' : list api_call) :
  Forall2 same_call h h' -> forall g, api_run e h' g = api_run e h g.
Proof.
  induction 1 as [|a b h h' Hab _ IH]; intros g; [reflexivity|].
  cbn [api_run]. destruct a as [self|sh], b as [self'|sh']; cbn [same_call] in Hab;
    try contradiction; cbn [api_step].
  - subst self'. destruct (ceph_crypto_init e self g); [apply IH | reflexivity..].
  - unfold ceph_crypto_shutdown. destruct (shutdown g); [apply IH | reflexivity..].
Qed.

(** X5. Calls of the public entry points made one after the other, none of
    the releases without a holder, fewer than 2^32 calls, with memory
    for the lock table and, as in [init], for the registry: every call
    returns; the counter is the
    number of holders; the registry has grown by the callers of [init],
    in the order of their calls and over all cycles; and the lock table
    with both callbacks is there exactly while there is a holder.  The
    flag passed to [shutdown] makes no difference: the same calls with
    other flags end in the same globals. *)
Theorem balanced_history (e : libcrypto) (h : list api_call) (k : nat) (g0 : state) :
  new_succeeds e = true \/ CRYPTO_num_locks e <= 0 ->
  crypto_refs g0 = 0 ->
  at_rest g0 ->
  Z.of_nat (length h) < uint32_modulus ->
  holders 0 h = Some k ->
  exists g,
    api_run e h g0 = Ok g
    /\ crypto_refs g = Z.of_nat k
    /\ tids g = tids g0 ++ callers h
    /\ (k = 0%nat -> at_rest g)
    /\ ((0 < k)%nat -> live e g)
    /\ forall h', Forall2 same_call h h' -> api_run e h' g0 = Ok g.
Proof.
  intros Hnew Hrefs Hrest Hsmall Hbal.
  destruct (api_run_balanced e h Hnew 0 k g0) as (g & Hrun & Hk & Htids & Hr & Hl);
    auto; try lia.
  exists g. split; [exact Hrun|]. split; [exact Hk|]. split; [exact Htids|].
  split; [exact Hr|]. split; [exact Hl|].
  intros h' Hsame. by rewrite (api_run_flags e h h' Hsame).
Qed.

(** ** The locking callback *)

Lemma land_one_odd (mode : Z) : negb (Z.land mode 1 =? 0) = Z.odd mode.
Proof.
  change 1 with (Z.ones 1) at 1. rewrite Z.land_ones by lia.
  change (2 ^ 1) with 2. rewrite Zmod_odd. by destruct (Z.odd mode).
Qed.

Lemma lock_table_lookup (g : state) (i : nat) (m : pthread_mutex_t) :
  lock_table g !! i = Some m -> ssl_mutexes g = Some (lock_table g).
Proof.
  unfold lock_table. destruct (ssl_mutexes g); [reflexivity | discriminate].
Qed.

(** What a call on a slot that exists does, in terms of the mutex found
    there. *)
Lemma locking_callback_at (t : CRYPTO_THREADID) (mode i : Z) (g : state)
    (m : pthread_mutex_t) :
  0 <= i ->
  lock_table g !! Z.to_nat i = Some m ->
  ssl_locking_callback t mode i g
  = if Z.odd mode then
      match pthread_mutex_lock t m with
      | Acquired m' => Ok (Returns (with_slot i m' g))
      | Blocks => Ok Waits
      | Deadlock => Ok Hangs
      | LockError => Ok (Returns g)
      end
    else
      match pthread_mutex_unlock t m with
      | Some m' => Ok (Returns (with_slot i m' g))
      | None => Ok (Returns g)
      end.
Proof.
  intros Hi Hm. pose proof (lock_table_lookup _ _ _ Hm) as Hptr.
  unfold ssl_locking_callback, with_slot. rewrite Hptr.
  destruct (Z.leb_spec 0 i); [|lia]. rewrite Hm, land_one_odd. reflexivity.
Qed.

(** X6. Of [mode] only the lowest bit counts: an odd mode locks, an even one
    unlocks, whatever the other flags say. *)
Theorem locking_callback_mode_bit (t : CRYPTO_THREADID) (mode i : Z) (g : state) :
  ssl_locking_callback t mode i g
  = ssl_locking_callback t (if Z.odd mode then CRYPTO_LOCK else CRYPTO_UNLOCK) i g.
Proof.
  unfold ssl_locking_callback.
  destruct (ssl_mutexes g) as [tbl|]; [|reflexivity].
  destruct (0 <=? i); [|reflexivity].
  destruct (tbl !! Z.to_nat i); [|reflexivity].
  rewrite !land_one_odd. by destruct (Z.odd mode).
Qed.

(** X7. The callback does not check its index: it faults exactly when there
    is no table or the index is outside it.  It never asserts; in every
    other case it returns, waits or hangs, and the result of the pthread
    call is dropped. *)
Theorem locking_callback_faults_iff (t : CRYPTO_THREADID) (mode i : Z) (g : state) :
  (ssl_locking_callback t mode i g = Fault
   <-> ssl_mutexes g = None \/ i < 0 \/ Z.of_nat (length (lock_table g)) <= i)
  /\ (forall msg, ssl_locking_callback t mode i g <> AssertFail msg).
Proof.
  unfold ssl_locking_callback, lock_table.
  destruct (ssl_mutexes g) as [tbl|]; [|by repeat split; auto].
  destruct (Z.leb_spec 0 i) as [Hi|Hi]; [|by repeat split; auto].
  destruct (tbl !! Z.to_nat i) as [m|] eqn:Hm.
  - apply lookup_lt_Some in Hm.
    destruct (negb (Z.land mode 1 =? 0));
      [destruct (pthread_mutex_lock t m) | destruct (pthread_mutex_unlock t m)];
      (repeat split; try discriminate; intros [?|[?|?]]; [discriminate | lia | lia]).
  - apply lookup_ge_None in Hm. repeat split; try discriminate.
    intros _. right. right. lia.
Qed.

(** X8. A call that returns has touched nothing but the mutex at its index. *)
Theorem locking_callback_frame (t : CRYPTO_THREADID) (mode i : Z) (g g' : state) :
  ssl_locking_callback t mode i g = Ok (Returns g') ->
  crypto_refs g' = crypto_refs g
  /\ ssl_num_locks g' = ssl_num_locks g
  /\ tids g' = tids g
  /\ locking_callback g' = locking_callback g
  /\ id_callback g' = id_callback g
  /\ trace g' = trace g
  /\ length (lock_table g') = length (lock_table g)
  /\ forall j : nat, j <> Z.to_nat i -> lock_table g' !! j = lock_table g !! j.
Proof.
  unfold ssl_locking_callback, lock_table.
  destruct (ssl_mutexes g) as [tbl|] eqn:Htbl; [|discriminate].
  destruct (0 <=? i); [|discriminate].
  destruct (tbl !! Z.to_nat i) as [m|]; [|discriminate].
  assert (forall m',
            let h := set_ssl_mutexes (Some (<[Z.to_nat i := m']> tbl)) g in
            crypto_refs h = crypto_refs g
            /\ ssl_num_locks h = ssl_num_locks g
            /\ tids h = tids g
            /\ locking_callback h = locking_callback g
            /\ id_callback h = id_callback g
            /\ trace h = trace g
            /\ length (match ssl_mutexes h with Some l => l | None => [] end) = length tbl
            /\ forall j : nat, j <> Z.to_nat i ->
                 match ssl_mutexes h with Some l => l | None => [] end !! j = tbl !! j)
    as Hset.
  { intros m'. cbv zeta. fields. repeat split.
    - apply length_insert.
    - intros j Hj. apply list_lookup_insert_ne. congruence. }
  assert (crypto_refs g = crypto_refs g
          /\ ssl_num_locks g = ssl_num_locks g
          /\ tids g = tids g
          /\ locking_callback g = locking_callback g
          /\ id_callback g = id_callback g
          /\ trace g = trace g
          /\ length (match ssl_mutexes g with Some l => l | None => [] end) = length tbl
          /\ forall j : nat, j <> Z.to_nat i ->
               match ssl_mutexes g with Some l => l | None => [] end !! j = tbl !! j)
    as Hsame by (rewrite Htbl; repeat split).
  destruct (negb (Z.land mode 1 =? 0)).
  - destruct (pthread_mutex_lock t m) as [m'| | |]; intros H; try discriminate;
      injection H as <-; [apply Hset | exact Hsame].
  - destruct (pthread_mutex_unlock t m) as [m'|]; intros H;
      injection H as <-; [apply Hset | exact Hsame].
Qed.

Lemma with_slot_lookup (i : Z) (m m0 : pthread_mutex_t) (g : state) :
  lock_table g !! Z.to_nat i = Some m0 ->
  lock_table (with_slot i m g) !! Z.to_nat i = Some m.
Proof.
  intros Hm. unfold with_slot, lock_table at 1. fields.
  apply list_lookup_insert_eq. eapply lookup_lt_Some. exact Hm.
Qed.

Lemma with_slot_twice (i : Z) (m1 m2 : pthread_mutex_t) (g : state) :
  with_slot i m2 (with_slot i m1 g) = with_slot i m2 g.
Proof.
  unfold with_slot, lock_table. fields. apply state_ext; fields; try reflexivity.
  by rewrite list_insert_insert_eq.
Qed.

Lemma with_slot_same (i : Z) (m : pthread_mutex_t) (g : state) :
  lock_table g !! Z.to_nat i = Some m -> with_slot i m g = g.
Proof.
  intros Hm. pose proof (lock_table_lookup _ _ _ Hm) as Hptr.
  unfold with_slot. apply state_ext; fields; try reflexivity.
  rewrite Hptr. f_equal. by apply list_insert_id.
Qed.

Lemma callback_times_add (t : CRYPTO_THREADID) (mode i : Z) (a b : nat) :
  forall g,
    callback_times (a + b) t mode i g
    = match callback_times a t mode i g with
      | Ok (Returns g1) => callback_times b t mode i g1
      | r => r
      end.
Proof.
  induction a as [|a IH]; intros g; [reflexivity|].
  cbn [Nat.add callback_times].
  destruct (ssl_locking_callback t mode i g) as [[g1| |]| |]; try reflexivity. apply IH.
Qed.

(** [k] unlocks by the owner out of [k + d + 1] acquisitions. *)
Lemma unlock_times (t : CRYPTO_THREADID) (i : Z) (k : nat) :
  0 <= i ->
  forall (d : nat) (g : state),
    lock_table g !! Z.to_nat i
    = Some (MutexLive PTHREAD_MUTEX_RECURSIVE (Some t) (k + S d)) ->
    callback_times k t CRYPTO_UNLOCK i g
    = Ok (Returns (with_slot i (MutexLive PTHREAD_MUTEX_RECURSIVE (Some t) (S d)) g)).
Proof.
  intros Hi. induction k as [|k IH]; intros d g Hm.
  - cbn [callback_times]. by rewrite with_slot_same.
  - cbn [callback_times]. rewrite (locking_callback_at _ _ _ _ _ Hi Hm).
    change (Z.odd CRYPTO_UNLOCK) with false. cbn [pthread_mutex_unlock].
    rewrite Z.eqb_refl.
    replace (S k + S d)%nat with (S (S (k + d))) by lia.
    rewrite (IH d).
    + by rewrite with_slot_twice.
    + erewrite with_slot_lookup by exact Hm.
      by replace (k + S d)%nat with (S (k + d)) by lia.
Qed.

(** *** With the maximum recursion count *)

Lemma upto_unlock (max_depth : nat) (t : CRYPTO_THREADID) (mode i : Z) (g : state) :
  Z.odd mode = false ->
  ssl_locking_callback_upto max_depth t mode i g = ssl_locking_callback t mode i g.
Proof.
  intros Heven. unfold ssl_locking_callback_upto, ssl_locking_callback.
  rewrite !land_one_odd, Heven. reflexivity.
Qed.

Lemma callback_times_upto_unlock (max_depth k : nat) (t : CRYPTO_THREADID) (i : Z) :
  forall g,
    callback_times_upto max_depth k t CRYPTO_UNLOCK i g
    = callback_times k t CRYPTO_UNLOCK i g.
Proof.
  induction k as [|k IH]; intros g; [reflexivity|].
  cbn [callback_times_upto callback_times]. rewrite upto_unlock by reflexivity.
  destruct (ssl_locking_callback t CRYPTO_UNLOCK i g) as [[g1| |]| |]; try reflexivity.
  apply IH.
Qed.

Lemma upto_lock_at (max_depth : nat) (t : CRYPTO_THREADID) (i : Z) (g : state)
    (m : pthread_mutex_t) :
  0 <= i ->
  lock_table g !! Z.to_nat i = Some m ->
  ssl_locking_callback_upto max_depth t CRYPTO_LOCK i g
  = match pthread_mutex_lock_upto max_depth t m with
    | Acquired m' => Ok (Returns (with_slot i m' g))
    | Blocks => Ok Waits
    | Deadlock => Ok Hangs
    | LockError => Ok (Returns g)
    end.
Proof.
  intros Hi Hm. pose proof (lock_table_lookup _ _ _ Hm) as Hptr.
  unfold ssl_locking_callback_upto, with_slot. rewrite Hptr.
  destruct (Z.leb_spec 0 i); [|lia]. rewrite Hm. reflexivity.
Qed.

Lemma callback_times_upto_add (max_depth : nat) (t : CRYPTO_THREADID) (mode i : Z)
    (a b : nat) :
  forall g,
    callback_times_upto max_depth (a + b) t mode i g
    = match callback_times_upto max_depth a t mode i g with
      | Ok (Returns g1) => callback_times_upto max_depth b t mode i g1
      | r => r
      end.
Proof.
  induction a as [|a IH]; intros g; [reflexivity|].
  cbn [Nat.add callback_times_upto].
  destruct (ssl_locking_callback_upto max_depth t mode i g) as [[g1| |]| |];
    try reflexivity.
  apply IH.
Qed.

Lemma held_by_lookup (t : CRYPTO_THREADID) (i : Z) (d : nat) (g : state)
    (m0 : pthread_mutex_t) :
  lock_table g !! Z.to_nat i = Some m0 ->
  lock_table (held_by t i d g) !! Z.to_nat i
  = Some (MutexLive PTHREAD_MUTEX_RECURSIVE (Some t) d).
Proof. apply with_slot_lookup. Qed.

(** [k] locks by the owner on top of [d], the maximum not exceeded. *)
Lemma lock_times_upto (max_depth : nat) (t : CRYPTO_THREADID) (i : Z) (k : nat) :
  0 <= i ->
  forall (d : nat) (g : state),
    lock_table g !! Z.to_nat i = Some (MutexLive PTHREAD_MUTEX_RECURSIVE (Some t) d) ->
    (k + d <= max_depth)%nat ->
    callback_times_upto max_depth k t CRYPTO_LOCK i g
    = Ok (Returns (held_by t i (k + d) g)).
Proof.
  intros Hi. induction k as [|k IH]; intros d g Hm Hmax.
  - cbn [callback_times_upto Nat.add]. unfold held_by. by rewrite with_slot_same.
  - cbn [callback_times_upto]. rewrite (upto_lock_at _ _ _ _ _ Hi Hm).
    cbn [pthread_mutex_lock_upto]. rewrite Z.eqb_refl.
    destruct (Nat.ltb_spec d max_depth); [|lia].
    rewrite (IH (S d)); [| eapply with_slot_lookup; exact Hm | lia].
    unfold held_by. rewrite with_slot_twice.
    by replace (k + S d)%nat with (S k + d)%nat by lia.
Qed.

(** At the maximum every further lock is refused, and the refusal
    dropped. *)
Lemma lock_times_at_max (max_depth : nat) (t : CRYPTO_THREADID) (i : Z) (k : nat)
    (g : state) :
  0 <= i ->
  lock_table g !! Z.to_nat i
  = Some (MutexLive PTHREAD_MUTEX_RECURSIVE (Some t) max_depth) ->
  callback_times_upto max_depth k t CRYPTO_LOCK i g = Ok (Returns g).
Proof.
  intros Hi Hm. induction k as [|k IH]; [reflexivity|].
  cbn [callback_times_upto]. rewrite (upto_lock_at _ _ _ _ _ Hi Hm).
  cbn [pthread_mutex_lock_upto]. rewrite Z.eqb_refl.
  destruct (Nat.ltb_spec max_depth max_depth); [lia | exact IH].
Qed.

(** Unlocking a mutex that nobody holds is an error, dropped as well. *)
Lemma unlock_free (t : CRYPTO_THREADID) (i : Z) (k : nat) (g : state) :
  0 <= i ->
  lock_table g !! Z.to_nat i = Some fresh_mutex ->
  callback_times k t CRYPTO_UNLOCK i g = Ok (Returns g).
Proof.
  intros Hi Hm. induction k as [|k IH]; [reflexivity|].
  cbn [callback_times]. rewrite (locking_callback_at _ _ _ _ _ Hi Hm).
  change (Z.odd CRYPTO_UNLOCK) with false. cbn [fresh_mutex pthread_mutex_unlock].
  exact IH.
Qed.

(** All the unlocks of a thread that holds the slot [S d] times over. *)
Lemma unlock_all (t : CRYPTO_THREADID) (i : Z) (d : nat) (g : state) :
  0 <= i ->
  lock_table g !! Z.to_nat i = Some fresh_mutex ->
  callback_times (S d) t CRYPTO_UNLOCK i (held_by t i (S d) g) = Ok (Returns g).
Proof.
  intros Hi Hm. replace (S d) with (d + 1)%nat at 1 by lia.
  rewrite callback_times_add.
  rewrite (unlock_times t i d Hi 0)
    by (replace (d + 1)%nat with (S d) by lia; eapply held_by_lookup; exact Hm).
  unfold held_by. rewrite with_slot_twice. cbn [callback_times].
  rewrite (locking_callback_at _ _ _ _ _ Hi (with_slot_lookup _ _ _ _ Hm)).
  change (Z.odd CRYPTO_UNLOCK) with false. cbn [pthread_mutex_unlock].
  rewrite Z.eqb_refl, with_slot_twice. f_equal. f_equal. by apply with_slot_same.
Qed.

(** Below its maximum the mutex with a maximum recursion count is the
    mutex without one. *)
Lemma pthread_mutex_lock_upto_below (max_depth : nat) (self : CRYPTO_THREADID)
    (m : pthread_mutex_t) :
  (forall d, m = MutexLive PTHREAD_MUTEX_RECURSIVE (Some self) d -> (d < max_depth)%nat) ->
  pthread_mutex_lock_upto max_depth self m = pthread_mutex_lock self m.
Proof.
  intros Hbelow. destruct m as [|[|] [o|] d|]; try reflexivity.
  cbn [pthread_mutex_lock_upto pthread_mutex_lock].
  destruct (Z.eqb_spec o self) as [->|]; [|reflexivity].
  destruct (Nat.ltb_spec d max_depth); [reflexivity|].
  specialize (Hbelow d eq_refl). lia.
Qed.

(** X9. A thread that asks [k] times through the callback for a free slot of
    a table of recursive mutexes with maximum recursion count
    [max_depth] holds it [min k max_depth] times over: the requests
    beyond the maximum are refused with [EAGAIN], which the callback
    drops, so they return like the others and take nothing.  After [j]
    unlocks, [j] less than what it holds, the thread still holds the slot,
    [min k max_depth - j] times over; as many unlocks as it holds give the
    globals back as they were before the first lock; and so do [k]
    unlocks, those beyond what it holds finding a free mutex and their
    error dropped as well. *)
Theorem lock_unlock_round_trip (max_depth : nat) (t : CRYPTO_THREADID) (i : Z)
    (k j : nat) (g : state) :
  0 <= i ->
  lock_table g !! Z.to_nat i = Some fresh_mutex ->
  (1 <= max_depth)%nat ->
  (j < Nat.min k max_depth)%nat ->
  exists g1 g2,
    callback_times_upto max_depth k t CRYPTO_LOCK i g = Ok (Returns g1)
    /\ lock_table g1 !! Z.to_nat i
       = Some (MutexLive PTHREAD_MUTEX_RECURSIVE (Some t) (Nat.min k max_depth))
    /\ callback_times_upto max_depth j t CRYPTO_UNLOCK i g1 = Ok (Returns g2)
    /\ lock_table g2 !! Z.to_nat i
       = Some (MutexLive PTHREAD_MUTEX_RECURSIVE (Some t) (Nat.min k max_depth - j))
    /\ callback_times_upto max_depth (Nat.min k max_depth) t CRYPTO_UNLOCK i g1
       = Ok (Returns g)
    /\ callback_times_upto max_depth k t CRYPTO_UNLOCK i g1 = Ok (Returns g).
Proof.
  intros Hi Hm Hmax Hj.
  set (held := Nat.min k max_depth) in *.
  assert (Hheld : exists h0, held = S h0) by (exists (held - 1)%nat; lia).
  destruct Hheld as [h0 Hh0].
  assert (Hk : exists b, k = (S h0 + b)%nat /\ (b = 0%nat \/ S h0 = max_depth)).
  { exists (k - S h0)%nat. subst held. lia. }
  destruct Hk as [b [Hk Hb]].
  exists (held_by t i held g), (held_by t i (held - j) g).
  split; [|split; [|split; [|split; [|split]]]].
  - rewrite Hk, Hh0. rewrite callback_times_upto_add.
    cbn [callback_times_upto]. rewrite (upto_lock_at _ _ _ _ _ Hi Hm).
    cbn [fresh_mutex pthread_mutex_lock_upto pthread_mutex_lock].
    rewrite (lock_times_upto max_depth t i h0 Hi 1);
      [| eapply with_slot_lookup; exact Hm | lia].
    unfold held_by. rewrite with_slot_twice.
    replace (h0 + 1)%nat with (S h0) by lia.
    destruct Hb as [->|Hfull]; [reflexivity|].
    apply lock_times_at_max; [exact Hi|].
    rewrite Hfull. eapply with_slot_lookup. exact Hm.
  - eapply held_by_lookup. exact Hm.
  - rewrite callback_times_upto_unlock.
    rewrite (unlock_times t i j Hi (held - j - 1)).
    + unfold held_by. rewrite with_slot_twice.
      by replace (S (held - j - 1)) with (held - j)%nat by lia.
    + replace (j + S (held - j - 1))%nat with held by lia.
      eapply held_by_lookup. exact Hm.
  - eapply held_by_lookup. exact Hm.
  - rewrite callback_times_upto_unlock, Hh0. by apply unlock_all.
  - rewrite callback_times_upto_unlock.
    replace k with (held + b)%nat by lia.
    rewrite callback_times_add, Hh0, unlock_all by assumption.
    by apply unlock_free.
Qed.
(** X10. While one thread holds a slot, another thread's lock request waits
    and its unlock request changes nothing: the error that
    [pthread_mutex_unlock] reports is dropped. *)
Theorem held_slot_excludes_others
    (a b : CRYPTO_THREADID) (mode i : Z) (g : state) (ty : mutex_type) (d : nat) :
  a <> b ->
  0 <= i ->
  lock_table g !! Z.to_nat i = Some (MutexLive ty (Some a) d) ->
  ssl_locking_callback b mode i g = Ok (if Z.odd mode then Waits else Returns g).
Proof.
  intros Hab Hi Hm. rewrite (locking_callback_at _ _ _ _ _ Hi Hm).
  cbn [pthread_mutex_lock pthread_mutex_unlock].
  destruct (Z.eqb_spec a b); [contradiction|]. by destruct (Z.odd mode).
Qed.

(** ** No self-deadlock over recursive mutexes *)

Lemma recursive_table_with_slot (i : Z) (o : option CRYPTO_THREADID) (d : nat)
    (g : state) :
  recursive_table g ->
  recursive_table (with_slot i (MutexLive PTHREAD_MUTEX_RECURSIVE o d) g).
Proof.
  unfold recursive_table, with_slot, lock_table at 2. fields. intros Hall.
  apply Forall_insert; [exact Hall | eauto].
Qed.

(** The table that the first acquire builds is one of recursive mutexes. *)
Lemma init_builds_recursive_table (e : libcrypto) (self : CRYPTO_THREADID)
    (g0 g1 : state) :
  crypto_refs g0 = 0 -> ssl_mutexes g0 = None ->
  init e self g0 = Ok g1 -> recursive_table g1.
Proof.
  intros Hrefs Hnull Hinit.
  rewrite init_first in Hinit by (rewrite Hrefs; reflexivity).
  destruct (init_setup e (incr_crypto_refs g0)) as [g2| |] eqn:Hsetup; try discriminate.
  apply init_setup_inv in Hsetup. subst g2.
  cbn [bind] in Hinit. injection Hinit as <-.
  unfold recursive_table, lock_table. fields. rewrite Hnull.
  destruct (0 <? Z.max (CRYPTO_num_locks e) 0); [|constructor].
  apply Forall_forall. intros m Hm. apply elem_of_replicate in Hm as [-> _].
  unfold fresh_mutex. eauto.
Qed.

Lemma locking_callback_negative (t : CRYPTO_THREADID) (mode i : Z) (g : state) :
  i < 0 -> ssl_locking_callback t mode i g = Fault.
Proof.
  intros Hi. unfold ssl_locking_callback. destruct (ssl_mutexes g); [|reflexivity].
  destruct (Z.leb_spec 0 i); [lia | reflexivity].
Qed.

Lemma locking_callback_beyond (t : CRYPTO_THREADID) (mode i : Z) (g : state) :
  lock_table g !! Z.to_nat i = None -> ssl_locking_callback t mode i g = Fault.
Proof.
  unfold ssl_locking_callback, lock_table. intros Hm.
  destruct (ssl_mutexes g); [|reflexivity].
  destruct (0 <=? i); [|reflexivity]. by rewrite Hm.
Qed.

(** X11. On a table of recursive mutexes, such as the first acquire builds,
    no call of the locking callback ever hangs on a mutex that the caller
    holds itself, whoever calls and with whatever mode and index; and a
    call that returns leaves a table of recursive mutexes. *)
Theorem recursive_table_never_hangs
    (t : CRYPTO_THREADID) (mode i : Z) (g : state) :
  recursive_table g ->
  ssl_locking_callback t mode i g <> Ok Hangs
  /\ forall g', ssl_locking_callback t mode i g = Ok (Returns g') -> recursive_table g'.
Proof.
  intros Hrec.
  destruct (Z.ltb_spec i 0) as [Hi|Hi];
    [rewrite locking_callback_negative by assumption; split; [|intros g']; discriminate|].
  destruct (lock_table g !! Z.to_nat i) as [m|] eqn:Hm;
    [| rewrite locking_callback_beyond by assumption; split; [|intros g']; discriminate].
  rewrite (locking_callback_at _ _ _ _ _ Hi Hm).
  destruct (proj1 (Forall_lookup _ _) Hrec _ _ Hm) as (o & d & ->).
  destruct (Z.odd mode); cbn [pthread_mutex_lock pthread_mutex_unlock].
  - destruct o as [o|].
    + destruct (o =? t); split; try discriminate.
      intros g' [= <-]. by apply recursive_table_with_slot.
    + split; [discriminate|]. intros g' [= <-]. by apply recursive_table_with_slot.
  - destruct o as [o|]; [|split; [discriminate | by intros g' [= <-]]].
    destruct (o =? t); [|split; [discriminate | by intros g' [= <-]]].
    destruct d as [|[|d]]; (split; [discriminate|]);
      intros g' [= <-]; by apply recursive_table_with_slot.
Qed.

(** ** The thread identity *)

Lemma little_endian_zeros (bs : list Byte.byte) (n : nat) :
  little_endian (bs ++ replicate n Byte.x00) = little_endian bs.
Proof.
  induction bs as [|b bs IH]; cbn [app little_endian].
  - induction n as [|n IHn]; cbn [replicate little_endian]; [reflexivity|].
    rewrite IHn. reflexivity.
  - by rewrite IH.
Qed.

(** X12. [ssl_get_thread_id] zero-extends: of the [unsigned long] it returns,
    the first [sizeof(pthread_t)] bytes are those of the handle and the
    others are zero.  So two handles of one size get the same identity
    only when they are the same handle, and on a little-endian machine the
    identity is the handle read as a number. *)
Theorem thread_id_zero_extends (sizeof_ulong : nat) (t : list Byte.byte) :
  (length t <= sizeof_ulong)%nat ->
  length (ssl_get_thread_id_bytes sizeof_ulong t) = sizeof_ulong
  /\ take (length t) (ssl_get_thread_id_bytes sizeof_ulong t) = t
  /\ drop (length t) (ssl_get_thread_id_bytes sizeof_ulong t)
     = replicate (sizeof_ulong - length t) Byte.x00
  /\ little_endian (ssl_get_thread_id_bytes sizeof_ulong t)
     = ssl_get_thread_id (little_endian t)
  /\ forall t' : list Byte.byte,
       length t' = length t ->
       ssl_get_thread_id_bytes sizeof_ulong t' = ssl_get_thread_id_bytes sizeof_ulong t ->
       t' = t.
Proof.
  intros Hfit. unfold ssl_get_thread_id_bytes, memcpy, ssl_get_thread_id. cbv zeta.
  rewrite !firstn_all, drop_replicate.
  repeat split.
  - rewrite length_app, length_replicate. lia.
  - by rewrite take_app_length.
  - by rewrite drop_app_length.
  - apply little_endian_zeros.
  - intros t' Hlen. rewrite firstn_all, Hlen, drop_replicate. intros Heq.
    by apply app_inv_tail in Heq.
Qed.

(** ** The registry under any interleaving of acquires and releases *)

Lemma recorded_insert_same (ts0 : list (CRYPTO_THREADID * pc)) :
  forall (ts : list (CRYPTO_THREADID * pc)) (i : nat) (t0 t t' : CRYPTO_THREADID * pc),
    ts0 !! i = Some t0 ->
    ts !! i = Some t ->
    init_returned (snd t0) (snd t') = init_returned (snd t0) (snd t) ->
    recorded ts0 (<[i := t']> ts) = recorded ts0 ts.
Proof.
  induction ts0 as [|a ts0 IH]; intros ts i t0 t t' H0 Ht Hsame; [discriminate|].
  destruct ts as [|b ts]; [discriminate|].
  destruct i as [|i].
  - injection H0 as ->. injection Ht as ->.
    change (<[0%nat := t']> (t :: ts)) with (t' :: ts).
    cbn [recorded]. by rewrite Hsame.
  - change (<[S i := t']> (b :: ts)) with (b :: <[i := t']> ts).
    cbn [recorded]. rewrite (IH ts i t0 t t') by assumption. reflexivity.
Qed.

Lemma recorded_insert_new (ts0 : list (CRYPTO_THREADID * pc)) :
  forall (ts : list (CRYPTO_THREADID * pc)) (i : nat) (t0 t t' : CRYPTO_THREADID * pc),
    ts0 !! i = Some t0 ->
    ts !! i = Some t ->
    init_returned (snd t0) (snd t) = false ->
    init_returned (snd t0) (snd t') = true ->
    Permutation (recorded ts0 (<[i := t']> ts)) (fst t0 :: recorded ts0 ts).
Proof.
  induction ts0 as [|a ts0 IH]; intros ts i t0 t t' H0 Ht Hold Hnew; [discriminate|].
  destruct ts as [|b ts]; [discriminate|].
  destruct i as [|i].
  - injection H0 as ->. injection Ht as ->.
    change (<[0%nat := t']> (t :: ts)) with (t' :: ts).
    cbn [recorded]. by rewrite Hold, Hnew.
  - change (<[S i := t']> (b :: ts)) with (b :: <[i := t']> ts).
    cbn [recorded]. pose proof (IH ts i t0 t t' H0 Ht Hold Hnew) as Hperm.
    destruct (init_returned (snd a) (snd b)); [|exact Hperm].
    rewrite Hperm. apply Permutation_swap.
Qed.

Lemma recorded_all_returned (ts0 ts : list (CRYPTO_THREADID * pc)) :
  Forall2 same_thread ts0 ts ->
  forallb has_returned ts = true ->
  recorded ts0 ts = init_callers ts0.
Proof.
  unfold init_callers.
  induction 1 as [|[t0 p0] [t p] ts0 ts [_ Hpath] _ IH]; intros Hall; [reflexivity|].
  cbn [forallb] in Hall. apply andb_prop in Hall as [Hret Hall].
  unfold has_returned in Hret. cbn [snd fst] in *.
  destruct p; try discriminate.
  cbn [recorded List.filter snd fst]. rewrite (IH Hall).
  by destruct (init_returned p0 Returned).
Qed.

Lemma same_thread_spawned (ts0 : list (CRYPTO_THREADID * pc)) :
  forallb at_entry ts0 = true -> Forall2 same_thread ts0 ts0.
Proof.
  induction ts0 as [|[t p] ts0 IH]; intros Hall; [constructor|].
  cbn [forallb] in Hall. apply andb_prop in Hall as [Hp Hall].
  constructor; [|by apply IH].
  split; [reflexivity|]. unfold at_entry in Hp. cbn [snd] in *.
  by destruct p.
Qed.

Ltac case_branch :=
  match goal with
  | |- context [if ?b then _ else _] => destruct b
  end.

(** What one step of a thread can do to its program point and to the
    registry. *)
Lemma thread_step_registry (e : libcrypto) (self : CRYPTO_THREADID) (p0 p p' : pc)
    (g g' : state) :
  on_path p0 p ->
  thread_step e self p g = Ok (p', g') ->
  on_path p0 p'
  /\ ((init_returned p0 p' = init_returned p0 p /\ tids g' = tids g)
      \/ (init_returned p0 p = false /\ init_returned p0 p' = true
          /\ tids g' = tids g ++ [self])).
Proof.
  intros Hpath Hstep.
  destruct p0; try contradiction; destruct p as [|k| | | |k|]; try contradiction;
    cbn [on_path] in Hpath; cbn [thread_step] in Hstep.
  - (* ++crypto_refs == 1 *)
    injection Hstep as <- <-. split.
    + case_branch; cbn [on_path]; [apply steady_setup_prog | exact I].
    + left. split; [|reflexivity]. by case_branch.
  - (* inside the one-time setup *)
    destruct k as [|ins k].
    + injection Hstep as <- <-. split; [exact I | left; split; reflexivity].
    + destruct (instr_step (ins :: k) g) as [[k1 g1]| |] eqn:Hins; try discriminate.
      cbn [bind fst snd] in Hstep. injection Hstep as <- <-.
      destruct (solo_instr_step _ _ _ _ Hpath Hins) as (_ & Hsteady & _ & Htids).
      split; [exact Hsteady | left; split; [reflexivity | exact Htids]].
  - (* the block under the registry's lock *)
    injection Hstep as <- <-. split; [exact I|]. right. repeat split.
  - injection Hstep as <- <-. split; [exact I | left; split; reflexivity].
  - (* --crypto_refs != 0 *)
    injection Hstep as <- <-. split.
    + by case_branch.
    + left. split; [|reflexivity]. by case_branch.
  - injection Hstep as <- <-. split; [apply steady_cleanup_prog|].
    left. split; reflexivity.
  - (* inside the cleanup *)
    destruct k as [|ins k].
    + injection Hstep as <- <-. split; [exact I | left; split; reflexivity].
    + destruct (instr_step (ins :: k) g) as [[k1 g1]| |] eqn:Hins; try discriminate.
      cbn [bind fst snd] in Hstep. injection Hstep as <- <-.
      destruct (solo_instr_step _ _ _ _ Hpath Hins) as (_ & Hsteady & _ & Htids).
      split; [exact Hsteady | left; split; [reflexivity | exact Htids]].
  - injection Hstep as <- <-. split; [exact I | left; split; reflexivity].
Qed.

Lemma sched_step_registry (e : libcrypto) (ts0 : list (CRYPTO_THREADID * pc))
    (tids0 : list CRYPTO_THREADID) (i : nat) (c c' : config) :
  Forall2 same_thread ts0 (threads c) ->
  Permutation (tids (shared c)) (tids0 ++ recorded ts0 (threads c)) ->
  sched_step e i c = Ok c' ->
  Forall2 same_thread ts0 (threads c')
  /\ Permutation (tids (shared c')) (tids0 ++ recorded ts0 (threads c')).
Proof.
  intros Hsame Hperm Hstep. unfold sched_step in Hstep.
  destruct (threads c !! i) as [[self p]|] eqn:Hi; [|by injection Hstep as <-].
  destruct (thread_step e self p (shared c)) as [[p' g']| |] eqn:Hthread; try discriminate.
  cbn [bind fst snd] in Hstep. injection Hstep as <-. cbn [threads shared].
  destruct (Forall2_lookup_r _ _ _ _ _ Hsame Hi) as ([t0 p0] & H0 & Hid & Hpath).
  cbn [fst snd] in Hid, Hpath. subst t0.
  destruct (thread_step_registry _ _ _ _ _ _ _ Hpath Hthread) as [Hpath' Hreg].
  split.
  - rewrite <- (list_insert_id ts0 i (self, p0)) by exact H0.
    apply Forall2_insert; [exact Hsame | by split].
  - destruct Hreg as [[Hsame' Htids]|(Hold & Hnew & Htids)].
    + rewrite Htids, (recorded_insert_same ts0 _ i (self, p0) (self, p) (self, p'));
        assumption.
    + rewrite Htids, (recorded_insert_new ts0 _ i (self, p0) (self, p) (self, p'));
        try assumption.
      cbn [fst]. rewrite Hperm.
      rewrite <- app_assoc. apply Permutation_app_head.
      symmetry. apply Permutation_cons_append.
Qed.

Lemma run_registry (e : libcrypto) (ts0 : list (CRYPTO_THREADID * pc))
    (tids0 : list CRYPTO_THREADID) (sched : list nat) :
  forall c c',
    Forall2 same_thread ts0 (threads c) ->
    Permutation (tids (shared c)) (tids0 ++ recorded ts0 (threads c)) ->
    run e sched c = Ok c' ->
    Forall2 same_thread ts0 (threads c')
    /\ Permutation (tids (shared c')) (tids0 ++ recorded ts0 (threads c')).
Proof.
  induction sched as [|i sched IH]; intros c c' Hsame Hperm Hrun; cbn [run] in Hrun.
  - injection Hrun as <-. auto.
  - destruct (sched_step e i c) as [c1| |] eqn:Hstep; try discriminate.
    cbn [bind] in Hrun.
    destruct (sched_step_registry _ _ _ _ _ _ Hsame Hperm Hstep) as [Hsame1 Hperm1].
    exact (IH _ _ Hsame1 Hperm1 Hrun).
Qed.

Lemma recorded_spawned (ts0 : list (CRYPTO_THREADID * pc)) :
  forallb at_entry ts0 = true -> recorded ts0 ts0 = [].
Proof.
  induction ts0 as [|[t p] ts0 IH]; intros Hall; [reflexivity|].
  cbn [forallb] in Hall. apply andb_prop in Hall as [Hp Hall].
  cbn [recorded snd]. rewrite (IH Hall).
  unfold at_entry in Hp. cbn [snd] in Hp. by destruct p.
Qed.

(** X13. Threads that enter [init] and threads that enter [shutdown], in any
    number and scheduled in any way: at every moment the registry holds,
    besides what it held at the start, one entry for each acquire that
    has returned, in some order, and no entry has been removed.  When all
    threads have returned, that is one entry per thread that called
    [init]. *)
Theorem registry_under_interleaving (e : libcrypto) (sched : list nat) (c0 c : config) :
  forallb at_entry (threads c0) = true ->
  run e sched c0 = Ok c ->
  Permutation (tids (shared c)) (tids (shared c0) ++ recorded (threads c0) (threads c))
  /\ (all_returned c = true ->
      Permutation (tids (shared c)) (tids (shared c0) ++ init_callers (threads c0))).
Proof.
  intros Hentry Hrun.
  destruct (run_registry e (threads c0) (tids (shared c0)) sched c0 c) as [Hsame Hperm].
  - by apply same_thread_spawned.
  - rewrite recorded_spawned by assumption. by rewrite app_nil_r.
  - exact Hrun.
  - split; [exact Hperm|]. intros Hall.
    rewrite <- (recorded_all_returned _ _ Hsame Hall). exact Hperm.
Qed.

(** ** The one-time blocks under any schedule *)

(** X14. [N < 2^32] threads enter [init] with the counter at zero.  Under any
    schedule and at every moment: the counter is the number of threads
    that have made their increment; at most one thread is inside the
    one-time setup; before the first increment no setup call has been
    made; and once the thread that saw 1 has left the block, the setup
    calls have been made, once, and the table has its slots.  When the
    table can be allocated no step faults or asserts, so every schedule
    can be run. *)
Theorem setup_is_exclusive
    (e : libcrypto) (g0 : state) (ids : list CRYPTO_THREADID) (sched : list nat) :
  crypto_refs g0 = 0 ->
  Z.of_nat (length ids) < uint32_modulus ->
  (forall c,
     run e sched (spawn InitEntry ids g0) = Ok c ->
     crypto_refs (shared c)
     = Z.of_nat (length ids - count_at AtInitEntry (threads c))
     /\ (count_at AtInitSetup (threads c) <= 1)%nat
     /\ (count_at AtInitEntry (threads c) = length ids ->
         lifecycle (trace (shared c)) = lifecycle (trace g0))
     /\ ((count_at AtInitEntry (threads c) < length ids)%nat ->
         count_at AtInitSetup (threads c) = 0%nat ->
         lifecycle (trace (shared c)) = lifecycle (trace g0) ++ setup_calls e
         /\ ssl_num_locks (shared c) = Z.max (CRYPTO_num_locks e) 0
         /\ table_ready (shared c)))
  /\ (new_succeeds e = true \/ CRYPTO_num_locks e <= 0 ->
      exists c, run e sched (spawn InitEntry ids g0) = Ok c).
Proof.
  intros Hrefs HN. pose proof (init_inv_spawn e g0 ids Hrefs) as Hinv0. split.
  - intros c Hrun.
    destruct (init_inv_run e _ HN g0 sched _ _ Hinv0 Hrun) as [_ _ Hcount Hstage].
    split; [exact Hcount|].
    destruct Hstage as [(HE & HS & Htr)|[(HE & HS & _)|(HE & HS & Hdone)]].
    + split; [lia|]. split; [intros _; exact Htr | lia].
    + split; [lia|]. split; lia.
    + split; [lia|]. split; [lia|]. intros _ _. exact Hdone.
  - intros Hnew. exact (init_run_total e _ HN g0 sched Hnew _ Hinv0).
Qed.

(** X15. [N < 2^32] threads enter [shutdown] with the counter at [N] and the
    lock table in place.  Under any schedule no step faults, and at every
    moment: the counter is the number of threads that have not made
    their decrement; as long as there is one, no call of the shutdown
    sequence has been made and the registry and the table are untouched;
    and at most one thread is inside the shutdown sequence. *)
Theorem cleanup_is_exclusive
    (e : libcrypto) (g1 : state) (ids : list CRYPTO_THREADID) (sched : list nat) :
  (0 < length ids)%nat ->
  Z.of_nat (length ids) < uint32_modulus ->
  crypto_refs g1 = Z.of_nat (length ids) ->
  table_ready g1 ->
  exists c,
    run e sched (spawn ShutdownEntry ids g1) = Ok c
    /\ crypto_refs (shared c) = Z.of_nat (count_at AtShutdownEntry (threads c))
    /\ (count_at AtShutdownDrain (threads c)
        + count_at AtShutdownCleanup (threads c) <= 1)%nat
    /\ ((0 < count_at AtShutdownEntry (threads c))%nat ->
        count_at AtShutdownDrain (threads c) = 0%nat
        /\ count_at AtShutdownCleanup (threads c) = 0%nat
        /\ lifecycle (trace (shared c)) = lifecycle (trace g1)
        /\ tids (shared c) = tids g1
        /\ table_ready (shared c)).
Proof.
  intros Hpos HN Hrefs Hready.
  destruct (shutdown_inv_run e _ HN g1 sched _ (shutdown_inv_spawn g1 ids Hpos Hrefs Hready))
    as (c & Hrun & [_ _ Hcount Hstage]).
  exists c. split; [exact Hrun|]. split; [exact Hcount|].
  destruct Hstage as [(HE & HD & HC & Htr & _ & Ht & Hr)|[(HE & HD & HC & _)
                     |[(HE & HD & HC & _)|(HE & HD & HC & _)]]].
  - split; [lia|]. intros _. auto.
  - split; lia.
  - split; lia.
  - split; lia.
Qed.

(** ** The locking callback is registered over an initialised table only *)

Lemma keeps_table_next (body : Z -> state -> result state) (i j : Z) :
  keeps_table (ForSlot body i) -> keeps_table (ForSlot body j).
Proof. exact (fun H => H). Qed.

Lemma for_each_slot_keeps_table (body : Z -> state -> result state) :
  (forall j g, exists g1,
      body j g = Ok g1
      /\ ssl_mutexes g1 = ssl_mutexes g /\ ssl_num_locks g1 = ssl_num_locks g) ->
  forall (n : nat) (i : Z) (g : state),
  exists h, for_each_slot body n i g = Ok h
            /\ ssl_mutexes h = ssl_mutexes g /\ ssl_num_locks h = ssl_num_locks g.
Proof.
  intros Hbody. induction n as [|n IH]; intros i g; cbn [for_each_slot]; [eauto|].
  destruct (Hbody i g) as (g1 & -> & Hm & Hn). cbn [bind].
  destruct (IH (i + 1) g1) as (h & Hh & Hm' & Hn'). exists h.
  split; [exact Hh|]. split; congruence.
Qed.

Lemma solo_keeps_table (k : list instr) :
  Forall keeps_table k ->
  forall g, exists h,
    solo k g = Ok h /\ ssl_mutexes h = ssl_mutexes g /\ ssl_num_locks h = ssl_num_locks g.
Proof.
  induction 1 as [|ins k Hins _ IH]; intros g; cbn [solo]; [eauto|].
  destruct ins as [f|body i]; cbn [keeps_table] in Hins.
  - destruct (Hins g) as (g1 & -> & Hm & Hn). cbn [bind].
    destruct (IH g1) as (h & Hh & Hm' & Hn'). exists h. split; [exact Hh|].
    split; congruence.
  - destruct (for_each_slot_keeps_table body Hins
                (Z.to_nat (ssl_num_locks g - i)) i g) as (g1 & -> & Hm & Hn).
    cbn [bind]. destruct (IH g1) as (h & Hh & Hm' & Hn'). exists h.
    split; [exact Hh|]. split; congruence.
Qed.

Lemma initialised_table_same (g h : state) :
  ssl_mutexes h = ssl_mutexes g -> ssl_num_locks h = ssl_num_locks g ->
  initialised_table g -> initialised_table h.
Proof.
  unfold initialised_table, lock_table. intros -> ->. auto.
Qed.

Lemma initialised_table_same_core (g h : state) :
  same_core g h -> initialised_table g -> initialised_table h.
Proof.
  intros (Hm & Hn & _). apply initialised_table_same; congruence.
Qed.

Lemma instr_step_keeps_table (k k1 : list instr) (g g1 : state) :
  Forall keeps_table k ->
  instr_step k g = Ok (k1, g1) ->
  Forall keeps_table k1
  /\ ssl_mutexes g1 = ssl_mutexes g /\ ssl_num_locks g1 = ssl_num_locks g.
Proof.
  intros Hk Hstep. destruct k as [|ins k]; cbn [instr_step] in Hstep.
  - injection Hstep as <- <-. auto.
  - apply List.Forall_cons_iff in Hk as [Hins Hk].
    destruct ins as [f|body i]; cbn [keeps_table] in Hins.
    + destruct (Hins g) as (g2 & Hf & Hm & Hn). rewrite Hf in Hstep.
      cbn [bind] in Hstep. injection Hstep as <- <-. auto.
    + destruct (i <? ssl_num_locks g).
      * destruct (Hins i g) as (g2 & Hb & Hm & Hn). rewrite Hb in Hstep.
        cbn [bind] in Hstep. injection Hstep as <- <-.
        split; [|auto]. apply List.Forall_cons; [exact Hins | exact Hk].
      * injection Hstep as <- <-. auto.
Qed.

Lemma instr_step_quiet (k k1 : list instr) (g g1 : state) :
  Forall quiet k ->
  instr_step k g = Ok (k1, g1) ->
  locking_callback g = false ->
  Forall quiet k1 /\ locking_callback g1 = false.
Proof.
  intros Hk Hstep Hoff. destruct k as [|ins k]; cbn [instr_step] in Hstep.
  - injection Hstep as <- <-. auto.
  - apply List.Forall_cons_iff in Hk as [Hins Hk].
    destruct ins as [f|body i]; cbn [quiet] in Hins.
    + destruct (f g) as [g2| |] eqn:Hf; try discriminate.
      cbn [bind] in Hstep. injection Hstep as <- <-. eauto.
    + destruct (i <? ssl_num_locks g).
      * destruct (body i g) as [g2| |] eqn:Hb; try discriminate.
        cbn [bind] in Hstep. injection Hstep as <- <-.
        split; [|eauto]. apply List.Forall_cons; [exact Hins | exact Hk].
      * injection Hstep as <- <-. auto.
Qed.

Lemma setup_covered_step (k k1 : list instr) (g g1 : state) :
  setup_covered k g ->
  instr_step k g = Ok (k1, g1) ->
  setup_covered k1 g1.
Proof.
  intros [(Hoff & Horder & Hsteady & Hpost)|(Hinit & Hkeep)] Hstep.
  - destruct (solo_instr_step _ _ _ _ Hsteady Hstep) as (Hsolo & Hsteady1 & _).
    destruct k as [|ins k].
    { cbn [instr_step] in Hstep. injection Hstep as <- <-. left. auto. }
    cbn [table_before_callback] in Horder. destruct Horder as [[Hq|[Hkeep Hrest]] Horder].
    + (* the statement does not register the callback *)
      left.
      assert (locking_callback g1 = false /\ table_before_callback k1) as [Hoff1 Horder1].
      { cbn [instr_step] in Hstep. destruct ins as [f|body i]; cbn [quiet] in Hq.
        - destruct (f g) as [g2| |] eqn:Hf; try discriminate.
          cbn [bind] in Hstep. injection Hstep as <- <-. eauto.
        - destruct (i <? ssl_num_locks g).
          + destruct (body i g) as [g2| |] eqn:Hb; try discriminate.
            cbn [bind] in Hstep. injection Hstep as <- <-.
            split; [eauto|]. cbn [table_before_callback]. split; [left; exact Hq | exact Horder].
          + injection Hstep as <- <-. auto. }
      split; [exact Hoff1|]. split; [exact Horder1|]. split; [exact Hsteady1|].
      intros h Hh. apply Hpost. by rewrite Hsolo.
    + (* from here on the table is left alone *)
      right.
      destruct (instr_step_keeps_table (ins :: k) k1 g g1) as (Hkeep1 & Hm & Hn);
        [apply List.Forall_cons; assumption | exact Hstep |].
      split; [|exact Hkeep1].
      destruct (solo_keeps_table k1 Hkeep1 g1) as (h & Hh & Hm' & Hn').
      apply (initialised_table_same h g1); [congruence | congruence |].
      apply Hpost. by rewrite Hsolo.
  - destruct (instr_step_keeps_table k k1 g g1 Hkeep Hstep) as (Hkeep1 & Hm & Hn).
    right. split; [|exact Hkeep1]. by apply (initialised_table_same g g1).
Qed.

Lemma setup_covered_same_core (k : list instr) (g h : state) :
  same_core g h -> setup_covered k g -> setup_covered k h.
Proof.
  intros Hcore [(Hoff & Horder & Hsteady & Hpost)|(Hinit & Hkeep)].
  - left. split; [destruct Hcore as (_ & _ & <- & _); exact Hoff|].
    split; [exact Horder|]. split; [exact Hsteady|].
    intros h' Hh'. pose proof (solo_respects k Hsteady g h Hcore) as Hout.
    rewrite Hh' in Hout. destruct (solo k g) as [g'| |]; try contradiction.
    cbn [same_outcome] in Hout. eapply initialised_table_same_core; [exact Hout|].
    by apply Hpost.
  - right. split; [|exact Hkeep]. by eapply initialised_table_same_core.
Qed.

Lemma initialised_after_setup (e : libcrypto) (g : state) :
  initialised_table (after_setup e g).
Proof.
  unfold initialised_table, lock_table. fields. intros j Hj.
  destruct (Z.ltb_spec 0 (Z.max (CRYPTO_num_locks e) 0)); [|lia].
  by apply lookup_replicate_2.
Qed.

Lemma setup_prog_table_before_callback (e : libcrypto) :
  table_before_callback (setup_prog e).
Proof.
  unfold setup_prog. cbn [table_before_callback].
  repeat split;
    try (left; cbn [quiet]; intros g g1 [= <-] Hoff; fields; exact Hoff).
  - left. cbn [quiet]. intros g g1 Hnew Hoff.
    destruct (0 <? ssl_num_locks g); [|by injection Hnew as <-].
    unfold new_mutexes in Hnew. destruct (new_succeeds e); [|discriminate].
    injection Hnew as <-. fields. exact Hoff.
  - left. cbn [quiet]. intros j g g1 Hup Hoff.
    unfold update_mutex in Hup. fields_in Hup.
    destruct (ssl_mutexes g); [|discriminate].
    destruct (0 <=? j); [|discriminate].
    destruct (_ !! _); [|discriminate].
    injection Hup as <-. fields. exact Hoff.
  - right. split; [|repeat constructor]; cbn [keeps_table]; intros g;
      eexists; (split; [reflexivity|]); fields; auto.
Qed.

Lemma setup_covered_start (e : libcrypto) (g : state) :
  locking_callback g = false -> setup_covered (setup_prog e) g.
Proof.
  intros Hoff. left. split; [exact Hoff|].
  split; [apply setup_prog_table_before_callback|].
  split; [apply steady_setup_prog|].
  intros h Hh. rewrite <- init_setup_eq in Hh. apply init_setup_inv in Hh. subst h.
  apply initialised_after_setup.
Qed.

Lemma setup_covered_end (g : state) : setup_covered [] g -> initialised_table g.
Proof.
  intros [(_ & _ & _ & Hpost)|[Hinit _]]; [by apply Hpost | exact Hinit].
Qed.

Lemma setup_covered_registered (k : list instr) (g : state) :
  setup_covered k g -> locking_callback g = true -> initialised_table g.
Proof.
  intros [(Hoff & _)|[Hinit _]] Hon; [congruence | exact Hinit].
Qed.

Lemma count_at_exists (q : place) (ts : list (CRYPTO_THREADID * pc)) :
  (0 < count_at q ts)%nat -> exists t p, In (t, p) ts /\ place_of p = q.
Proof.
  induction ts as [|[t p] rest IH]; cbn [count_at snd]; [lia|]. intros Hpos.
  destruct (place_eqb (place_of p) q) eqn:Hq.
  - exists t, p. split; [by left|]. by destruct p, q.
  - destruct (IH ltac:(lia)) as (t' & p' & Hin & Hp'). exists t', p'.
    split; [by right | exact Hp'].
Qed.

Section Coverage.

Variable e : libcrypto.
Variable N : nat.
Hypothesis N_small : Z.of_nat N < uint32_modulus.

Lemma init_cover_step (g0 : state) (i : nat) (c c' : config) :
  init_inv e g0 N c ->
  init_cover N c ->
  sched_step e i c = Ok c' ->
  init_cover N c'.
Proof.
  intros [Hlen (HsE & HsD & HsC) Hrefs Hstage] [Hbefore Hduring Hafter] Hstep.
  unfold sched_step in Hstep.
  destruct (threads c !! i) as [[t p]|] eqn:Hi; [|injection Hstep as <-; by split].
  pose proof (count_at_lookup _ _ _ _ Hi) as Hp.
  pose proof (count_at_total (threads c)) as Htot.
  assert (forall p' g',
            same_core g' (shared c) ->
            forall t' k', In (t', InitSetup k') (<[i := (t, p')]> (threads c)) ->
              (t', InitSetup k') <> (t, p') ->
              setup_covered k' g') as Hothers.
  { intros p' g' Hcore t' k' Hin Hne.
    apply In_insert_inv in Hin as [Heq|(j & _ & Hj)]; [contradiction|].
    eapply setup_covered_same_core; [apply same_core_sym; exact Hcore|].
    eapply Hduring, In_lookup, Hj. }
  destruct p as [|k| | | |k|]; cbn [thread_step place_of] in Hstep, Hp; try lia.
  - (* ++crypto_refs == 1 *)
    cbn [bind fst snd] in Hstep. injection Hstep as <-.
    assert (wrap32 (crypto_refs (shared c) + 1)
            = Z.of_nat (N - count_at AtInitEntry (threads c)) + 1) as Hnew.
    { rewrite Hrefs. apply wrap32_small. lia. }
    fields. rewrite Hnew.
    destruct (Z.eqb_spec (Z.of_nat (N - count_at AtInitEntry (threads c)) + 1) 1)
      as [Hone|Hmore].
    + count_facts Hi (InitSetup (setup_prog e)).
      split; cbn [threads shared]; [lia | | lia].
      intros t' k' Hin. apply In_insert_inv in Hin as [Heq|(j & _ & Hj)].
      * injection Heq as _ ->. apply setup_covered_start. fields. apply Hbefore. lia.
      * apply count_at_lookup in Hj. cbn [place_of] in Hj.
        destruct Hstage as [(?&?&?)|[(?&?&?)|(?&?&?)]]; lia.
    + count_facts Hi InitRecord.
      split; cbn [threads shared]; [lia | |].
      * intros t' k' Hin. eapply (Hothers InitRecord); [auto with steady | exact Hin|].
        discriminate.
      * intros _ Hnone. eapply initialised_table_same_core;
          [apply same_core_sym; auto with steady | apply Hafter; lia].
  - (* inside the one-time block *)
    pose proof (Hduring t k (In_lookup _ _ _ Hi)) as Hk.
    destruct Hstage as [(?&?&?)|[(HE & HS & _)|(?&?&?)]]; try lia.
    destruct k as [|ins k].
    + injection Hstep as <-. count_facts Hi InitRecord.
      split; cbn [threads shared]; [lia | |].
      * intros t' k' Hin. eapply (Hothers InitRecord); [apply same_core_refl | exact Hin|].
        discriminate.
      * intros _ _. by apply setup_covered_end.
    + destruct (instr_step (ins :: k) (shared c)) as [[k1 g1]| |] eqn:Hins;
        try discriminate.
      cbn [bind fst snd] in Hstep. injection Hstep as <-.
      count_facts Hi (InitSetup k1).
      split; cbn [threads shared]; [lia | | lia].
      intros t' k' Hin. apply In_insert_inv in Hin as [Heq|(j & Hji & Hj)].
      * injection Heq as _ ->. eapply setup_covered_step; eassumption.
      * pose proof (count_at_two _ i j t t' (InitSetup (ins :: k)) (InitSetup k')
                      ltac:(congruence) Hi Hj eq_refl) as Htwo.
        cbn [place_of] in Htwo. lia.
  - (* the block under init_records.lock *)
    cbn [bind fst snd] in Hstep. injection Hstep as <-.
    count_facts Hi Returned.
    split; cbn [threads shared].
    + intros Hall. fields. apply Hbefore. lia.
    + intros t' k' Hin. eapply (Hothers Returned); [auto with steady | exact Hin|].
      discriminate.
    + intros Hsome Hnone. eapply initialised_table_same_core;
        [apply same_core_sym; auto with steady | apply Hafter; lia].
  - (* already returned *)
    cbn [bind fst snd] in Hstep. injection Hstep as <-.
    rewrite (list_insert_id _ _ _ Hi). by split.
Qed.

Lemma init_cover_run (g0 : state) (sched : list nat) :
  forall c c',
    init_inv e g0 N c -> init_cover N c -> run e sched c = Ok c' -> init_cover N c'.
Proof.
  induction sched as [|i rest IH]; intros c c' Hinv Hcov Hrun; cbn [run] in Hrun.
  - by injection Hrun as <-.
  - destruct (sched_step e i c) as [c1| |] eqn:Hstep; try discriminate.
    cbn [bind] in Hrun.
    eapply IH; [| |exact Hrun].
    + exact (init_inv_step e N N_small g0 i c c1 Hinv Hstep).
    + exact (init_cover_step g0 i c c1 Hinv Hcov Hstep).
Qed.

End Coverage.

Lemma init_cover_spawn (g0 : state) (ids : list CRYPTO_THREADID) :
  locking_callback g0 = false ->
  init_cover (length ids) (spawn InitEntry ids g0).
Proof.
  intros Hoff. unfold spawn. split; cbn [threads shared].
  - intros _. exact Hoff.
  - intros t k Hin. apply in_map_iff in Hin as (x & Heq & _). discriminate.
  - rewrite count_at_spawn. cbn. lia.
Qed.

(** X16. Threads entering [init] with the counter at zero and no locking
    callback registered, under any schedule and at every moment: when the
    locking callback is registered, every slot below [ssl_num_locks]
    holds an initialised mutex.  The setup initialises all the mutexes
    before it hands the callback to libcrypto, and nothing touches the
    table afterwards. *)
Theorem callback_over_initialised_table
    (e : libcrypto) (g0 : state) (ids : list CRYPTO_THREADID) (sched : list nat)
    (c : config) :
  crypto_refs g0 = 0 ->
  locking_callback g0 = false ->
  Z.of_nat (length ids) < uint32_modulus ->
  run e sched (spawn InitEntry ids g0) = Ok c ->
  locking_callback (shared c) = true ->
  initialised_table (shared c)
  /\ forall (t : CRYPTO_THREADID) (mode i : Z),
       0 <= i < ssl_num_locks (shared c) ->
       exists r, ssl_locking_callback t mode i (shared c) = Ok r.
Proof.
  intros Hrefs Hoff HN Hrun Hon.
  pose proof (init_inv_spawn e g0 ids Hrefs) as Hinv0.
  pose proof (init_inv_run e _ HN g0 sched _ _ Hinv0 Hrun) as [_ _ _ Hstage].
  pose proof (init_cover_run e _ HN g0 sched _ _ Hinv0 (init_cover_spawn g0 ids Hoff) Hrun)
    as [Hbefore Hduring Hafter].
  assert (initialised_table (shared c)) as Hinit.
  { destruct Hstage as [(HE & _)|[(HE & HS & _)|(HE & HS & _)]].
    - rewrite Hbefore in Hon by exact HE. discriminate.
    - destruct (count_at_exists AtInitSetup (threads c)) as (t & p & Hin & Hp); [lia|].
      destruct p; try discriminate.
      exact (setup_covered_registered _ _ (Hduring _ _ Hin) Hon).
    - by apply Hafter. }
  split; [exact Hinit|]. intros t mode i Hi.
  assert (lock_table (shared c) !! Z.to_nat i = Some fresh_mutex) as Hm
    by (apply Hinit; lia).
  rewrite (locking_callback_at _ _ _ _ _ (proj1 Hi) Hm).
  destruct (Z.odd mode); cbn [fresh_mutex pthread_mutex_lock pthread_mutex_unlock]; eauto.
Qed.

(** ** The locking callback is unregistered before the table goes *)

Lemma cleanup_prog_first_step (g : state) :
  exists k1 g1,
    instr_step cleanup_prog g = Ok (k1, g1)
    /\ locking_callback g1 = false
    /\ Forall quiet k1.
Proof.
  unfold cleanup_prog. cbn [instr_step bind]. eexists. eexists.
  split; [reflexivity|]. split; [reflexivity|].
  repeat constructor;
    try (cbn [quiet]; intros g0 g1 [= <-] Hoff; fields; exact Hoff).
  cbn [quiet]. intros j g0 g1 Hup Hoff.
  unfold update_mutex in Hup. fields_in Hup.
  destruct (ssl_mutexes g0); [|discriminate].
  destruct (0 <=? j); [|discriminate].
  destruct (_ !! _); [|discriminate].
  injection Hup as <-. fields. exact Hoff.
Qed.

Lemma cleanup_covered_step (g1 : state) (k k' : list instr) (g g' : state) :
  cleanup_covered g1 k g ->
  instr_step k g = Ok (k', g') ->
  cleanup_covered g1 k' g'.
Proof.
  intros [[-> Htbl]|[Hoff Hq]] Hstep; right.
  - destruct (cleanup_prog_first_step g) as (k1 & g2 & Hfirst & Hoff & Hq).
    rewrite Hfirst in Hstep. injection Hstep as <- <-. auto.
  - destruct (instr_step_quiet _ _ _ _ Hq Hstep Hoff). auto.
Qed.

Lemma cleanup_covered_end (g1 g : state) :
  cleanup_covered g1 [] g -> locking_callback g = false.
Proof. intros [[Heq _]|[Hoff _]]; [discriminate | exact Hoff]. Qed.

Section CleanupCoverage.

Variable e : libcrypto.
Variable N : nat.
Hypothesis N_small : Z.of_nat N < uint32_modulus.

Lemma shutdown_cover_step (g1 : state) (i : nat) (c c' : config) :
  shutdown_inv g1 N c ->
  shutdown_cover g1 c ->
  sched_step e i c = Ok c' ->
  shutdown_cover g1 c'.
Proof.
  intros [Hlen (HsE & HsS & HsR) Hrefs Hstage] [Hbefore Hduring Hafter] Hstep.
  unfold sched_step in Hstep.
  destruct (threads c !! i) as [[t p]|] eqn:Hi; [|injection Hstep as <-; by split].
  pose proof (count_at_lookup _ _ _ _ Hi) as Hp.
  pose proof (count_at_total (threads c)) as Htot.
  assert (forall p' g',
            ssl_mutexes g' = ssl_mutexes (shared c) ->
            locking_callback g' = locking_callback (shared c) ->
            forall t' k', In (t', ShutdownCleanup k') (<[i := (t, p')]> (threads c)) ->
              (t', ShutdownCleanup k') <> (t, p') ->
              cleanup_covered g1 k' g') as Hothers.
  { intros p' g' Hm Hl t' k' Hin Hne.
    apply In_insert_inv in Hin as [Heq|(j & _ & Hj)]; [contradiction|].
    destruct (Hduring t' k' (In_lookup _ _ _ Hj)) as [[-> Htbl]|[Hoff Hq]].
    - left. split; [reflexivity | congruence].
    - right. split; [congruence | exact Hq]. }
  destruct p as [|k| | | |k|]; cbn [thread_step place_of] in Hstep, Hp; try lia.
  - (* --crypto_refs != 0 *)
    cbn [bind fst snd] in Hstep. injection Hstep as <-.
    assert (wrap32 (crypto_refs (shared c) - 1)
            = Z.of_nat (count_at AtShutdownEntry (threads c)) - 1) as Hnew.
    { rewrite Hrefs. apply wrap32_small. lia. }
    fields. rewrite Hnew.
    destruct (Z.eqb_spec (Z.of_nat (count_at AtShutdownEntry (threads c)) - 1) 0)
      as [Hzero|Hmore]; cbn [negb].
    + count_facts Hi ShutdownDrain.
      split; cbn [threads shared].
      * intros _. fields. apply Hbefore. lia.
      * intros t' k' Hin. eapply (Hothers ShutdownDrain);
          [reflexivity | reflexivity | exact Hin | discriminate].
      * lia.
    + count_facts Hi Returned.
      split; cbn [threads shared].
      * intros _. fields. apply Hbefore. lia.
      * intros t' k' Hin. eapply (Hothers Returned);
          [reflexivity | reflexivity | exact Hin | discriminate].
      * lia.
  - (* the walk through the registry *)
    cbn [bind fst snd] in Hstep. injection Hstep as <-.
    count_facts Hi (ShutdownCleanup cleanup_prog).
    destruct Hstage as [(?&?&?)|[(HE & HD & HC & _)|[(?&?&?)|(?&?&?)]]]; try lia.
    split; cbn [threads shared]; [lia | | lia].
    intros t' k' Hin. apply In_insert_inv in Hin as [Heq|(j & _ & Hj)].
    + injection Heq as _ ->. left. split; [reflexivity|]. fields. apply Hbefore. lia.
    + apply count_at_lookup in Hj. cbn [place_of] in Hj. lia.
  - (* inside the cleanup *)
    pose proof (Hduring t k (In_lookup _ _ _ Hi)) as Hk.
    destruct Hstage as [(?&?&?)|[(?&?&?)|[(HE & HD & HC & _)|(?&?&?)]]]; try lia.
    destruct k as [|ins k].
    + injection Hstep as <-. count_facts Hi Returned.
      split; cbn [threads shared]; [lia | |].
      * intros t' k' Hin. eapply (Hothers Returned);
          [reflexivity | reflexivity | exact Hin | discriminate].
      * intros _ _ _. by eapply cleanup_covered_end.
    + destruct (instr_step (ins :: k) (shared c)) as [[k1 g2]| |] eqn:Hins;
        try discriminate.
      cbn [bind fst snd] in Hstep. injection Hstep as <-.
      count_facts Hi (ShutdownCleanup k1).
      split; cbn [threads shared]; [lia | | lia].
      intros t' k' Hin. apply In_insert_inv in Hin as [Heq|(j & Hji & Hj)].
      * injection Heq as _ ->. eapply cleanup_covered_step; eassumption.
      * pose proof (count_at_two _ i j t t' (ShutdownCleanup (ins :: k))
                      (ShutdownCleanup k') ltac:(congruence) Hi Hj eq_refl) as Htwo.
        cbn [place_of] in Htwo. lia.
  - (* already returned *)
    cbn [bind fst snd] in Hstep. injection Hstep as <-.
    rewrite (list_insert_id _ _ _ Hi). by split.
Qed.

Lemma shutdown_cover_run (g1 : state) (sched : list nat) :
  forall c,
    shutdown_inv g1 N c -> shutdown_cover g1 c ->
    exists c', run e sched c = Ok c' /\ shutdown_inv g1 N c' /\ shutdown_cover g1 c'.
Proof.
  induction sched as [|i rest IH]; intros c Hinv Hcov; cbn [run].
  - eauto.
  - destruct (shutdown_inv_step e N N_small g1 i c Hinv) as (c1 & Hstep & Hinv1).
    rewrite Hstep. cbn [bind]. apply IH; [exact Hinv1|].
    exact (shutdown_cover_step g1 i c c1 Hinv Hcov Hstep).
Qed.

End CleanupCoverage.

Lemma shutdown_cover_spawn (g1 : state) (ids : list CRYPTO_THREADID) :
  (0 < length ids)%nat ->
  shutdown_cover g1 (spawn ShutdownEntry ids g1).
Proof.
  intros Hpos. unfold spawn. split; cbn [threads shared].
  - reflexivity.
  - intros t k Hin. apply in_map_iff in Hin as (x & Heq & _). discriminate.
  - rewrite count_at_spawn. cbn. lia.
Qed.

(** X17. Threads entering [shutdown] with the counter at their number and the
    lock table in place, under any schedule and at every moment: while
    the locking callback is still registered, [ssl_mutexes] is the table
    that the releases found, with no mutex destroyed and nothing freed.
    The shutdown sequence takes the callback away from libcrypto before
    it touches the table. *)
Theorem callback_gone_before_destroy
    (e : libcrypto) (g1 : state) (ids : list CRYPTO_THREADID) (sched : list nat) :
  (0 < length ids)%nat ->
  Z.of_nat (length ids) < uint32_modulus ->
  crypto_refs g1 = Z.of_nat (length ids) ->
  table_ready g1 ->
  exists c,
    run e sched (spawn ShutdownEntry ids g1) = Ok c
    /\ (locking_callback (shared c) = true -> ssl_mutexes (shared c) = ssl_mutexes g1).
Proof.
  intros Hpos HN Hrefs Hready.
  destruct (shutdown_cover_run e _ HN g1 sched _
              (shutdown_inv_spawn g1 ids Hpos Hrefs Hready)
              (shutdown_cover_spawn g1 ids Hpos))
    as (c & Hrun & [_ _ _ Hstage] & [Hbefore Hduring Hafter]).
  exists c. split; [exact Hrun|]. intros Hon.
  destruct Hstage as [(HE & _)|[(HE & HD & _)|[(HE & HD & HC & _)|(HE & HD & HC & _)]]].
  - apply Hbefore. lia.
  - apply Hbefore. lia.
  - destruct (count_at_exists AtShutdownCleanup (threads c)) as (t & p & Hin & Hp); [lia|].
    destruct p; try discriminate.
    destruct (Hduring _ _ Hin) as [[_ Htbl]|[Hoff _]]; [exact Htbl | congruence].
  - rewrite Hafter in Hon by assumption. discriminate.
Qed.

(** ** Acquires and releases that overlap *)

(** X19. While the thread that saw 1 has not yet made the first call of the
    one-time setup, another thread can go through its whole acquire: it
    has returned, recorded in the registry, and neither libcrypto nor the
    lock table has been touched. *)
Theorem init_returns_before_setup
    (e : libcrypto) (g0 : state) (t0 t1 : CRYPTO_THREADID)
    (rest : list CRYPTO_THREADID) :
  crypto_refs g0 = 0 ->
  exists sched c,
    run e sched (spawn InitEntry (t0 :: t1 :: rest) g0) = Ok c
    /\ threads c !! 0%nat = Some (t0, InitSetup (setup_prog e))
    /\ threads c !! 1%nat = Some (t1, Returned)
    /\ crypto_refs (shared c) = 2
    /\ tids (shared c) = tids g0 ++ [t1]
    /\ trace (shared c) = trace g0 ++ record_calls t1
    /\ ssl_mutexes (shared c) = ssl_mutexes g0
    /\ ssl_num_locks (shared c) = ssl_num_locks g0
    /\ locking_callback (shared c) = locking_callback g0
    /\ id_callback (shared c) = id_callback g0.
Proof.
  intros Hrefs.
  exists (repeat 0%nat 1 ++ repeat 1%nat 2).
  exists {| threads := (t0, InitSetup (setup_prog e)) :: (t1, Returned)
                         :: map (fun t => (t, InitEntry)) rest;
            shared := init_record t1 (incr_crypto_refs (incr_crypto_refs g0)) |}.
  split.
  - rewrite run_app. unfold spawn. cbn [map].
    rewrite (run_thread e 0 t0 1 _ InitEntry g0) by reflexivity.
    cbn [steps thread_step bind fst snd]. fields. rewrite Hrefs.
    change (wrap32 (0 + 1) =? 1) with true. cbv iota.
    change (<[0%nat := (t0, InitSetup (setup_prog e))]>
              ((t0, InitEntry) :: (t1, InitEntry) :: map (fun t => (t, InitEntry)) rest))
      with ((t0, InitSetup (setup_prog e)) :: (t1, InitEntry)
              :: map (fun t => (t, InitEntry)) rest).
    rewrite (run_thread e 1 t1 2 _ InitEntry) by reflexivity.
    cbn [steps thread_step bind fst snd]. fields. rewrite Hrefs.
    change (wrap32 (wrap32 (0 + 1) + 1) =? 1) with false. cbv iota.
    cbn [thread_step bind fst snd]. reflexivity.
  - cbn [threads shared]. fields. rewrite Hrefs.
    repeat split. rewrite <- !app_assoc. reflexivity.
Qed.

Lemma shutdown_tail_alone (e : libcrypto) (self : CRYPTO_THREADID) (g : state) :
  exists n, forall m, (n <= m)%nat ->
    steps e self m ShutdownDrain g
    = do g' <- shutdown_cleanup (shutdown_drain g); Ok (Returned, g').
Proof.
  destruct (steps_solo e self ShutdownCleanup (fun h => h)
              ltac:(reflexivity)
              ltac:(intros h; exists 1%nat; intros m Hm;
                    destruct m as [|m]; try lia;
                    cbn [steps thread_step bind fst snd];
                    apply steps_returned)
              cleanup_prog steady_cleanup_prog (shutdown_drain g))
    as [n Hn].
  exists (S n). intros m Hm. destruct m as [|m]; [lia|].
  cbn [steps thread_step bind fst snd].
  rewrite Hn by lia. unfold shutdown_cleanup.
  destruct (solo cleanup_prog (shutdown_drain g)); reflexivity.
Qed.

(** X20. A release that overlaps an acquire.  With one holder left, the
    releasing thread decrements to 0; before it goes on, another thread
    acquires, sees 1 and sets the library up again; then the first thread
    runs its shutdown sequence over the new table.  Both calls return,
    and the counter says one holder while the table is gone and no
    callback is registered.  Made one after the other, in either order,
    the same two calls leave the library live. *)
Theorem release_overlapping_acquire
    (e : libcrypto) (g1 : state) (a b : CRYPTO_THREADID) :
  crypto_refs g1 = 1 ->
  live e g1 ->
  new_succeeds e = true \/ CRYPTO_num_locks e <= 0 ->
  (exists sched c,
     run e sched {| threads := [(a, ShutdownEntry); (b, InitEntry)]; shared := g1 |} = Ok c
     /\ all_returned c = true
     /\ crypto_refs (shared c) = 1
     /\ at_rest (shared c))
  /\ (exists g, api_run e [call_shutdown false; call_init b] g1 = Ok g
                /\ crypto_refs g = 1 /\ live e g)
  /\ (exists g, api_run e [call_init b; call_shutdown false] g1 = Ok g
                /\ crypto_refs g = 1 /\ live e g).
Proof.
  intros Hrefs Hlive Hnew. split; [|split].
  - set (gA := decr_crypto_refs g1).
    assert (crypto_refs gA = 0) as HrefsA by (unfold gA; fields; by rewrite Hrefs).
    set (gB := init_record b (after_setup e (incr_crypto_refs gA))).
    destruct (init_alone e b gA) as [nB HB].
    destruct (shutdown_tail_alone e a gB) as [nA HA].
    exists (repeat 0%nat 1 ++ repeat 1%nat nB ++ repeat 0%nat nA).
    exists {| threads := [(a, Returned); (b, Returned)];
              shared := after_cleanup (shutdown_drain gB) |}.
    split; [|split; [reflexivity|split]].
    + rewrite run_app.
      rewrite (run_thread e 0 a 1 _ ShutdownEntry g1) by reflexivity.
      cbn [steps thread_step bind fst snd]. fold gA. rewrite HrefsA.
      change (negb (0 =? 0)) with false. cbv iota.
      change (<[0%nat := (a, ShutdownDrain)]> [(a, ShutdownEntry); (b, InitEntry)])
        with [(a, ShutdownDrain); (b, InitEntry)].
      rewrite run_app.
      rewrite (run_thread e 1 b nB _ InitEntry gA) by reflexivity.
      rewrite HB by lia. rewrite init_at_zero by assumption. fold gB.
      cbn [bind fst snd].
      change (<[1%nat := (b, Returned)]> [(a, ShutdownDrain); (b, InitEntry)])
        with [(a, ShutdownDrain); (b, Returned)].
      rewrite (run_thread e 0 a nA _ ShutdownDrain gB) by reflexivity.
      rewrite HA by lia.
      rewrite shutdown_cleanup_ok
        by (unfold gB; exact (after_setup_table_ready e (incr_crypto_refs gA))).
      reflexivity.
    + cbn [shared]. unfold gB, gA. fields. rewrite Hrefs. reflexivity.
    + cbn [shared]. unfold at_rest. fields. auto.
  - destruct (api_run_balanced e [call_shutdown false; call_init b] Hnew 1 1 g1)
      as (g & Hrun & Hk & _ & _ & Hl);
      [ exact Hrefs | discriminate | intros _; exact Hlive | reflexivity | reflexivity | ].
    exists g. split; [exact Hrun|]. split; [exact Hk | apply Hl; lia].
  - destruct (api_run_balanced e [call_init b; call_shutdown false] Hnew 1 1 g1)
      as (g & Hrun & Hk & _ & _ & Hl);
      [ exact Hrefs | discriminate | intros _; exact Hlive | reflexivity | reflexivity | ].
    exists g. split; [exact Hrun|]. split; [exact Hk | apply Hl; lia].
Qed.

(** ** What Update reads *)

Lemma load_ext (n : nat) :
  forall (m m' : memory) (p : Z),
    (forall a, p <= a < p + Z.of_nat n -> m' a = m a) ->
    load m' p n = load m p n.
Proof.
  induction n as [|n IH]; intros m m' p Hagree; [reflexivity|].
  cbn [load]. rewrite (Hagree p) by lia.
  rewrite (IH m m' (p + 1)) by (intros a Ha; apply Hagree; lia). reflexivity.
Qed.

Lemma load_None_iff (n : nat) :
  forall (m : memory) (p : Z),
    load m p n = None <-> exists a, p <= a < p + Z.of_nat n /\ m a = None.
Proof.
  induction n as [|n IH]; intros m p; cbn [load].
  - split; [discriminate | intros (a & Ha & _); lia].
  - destruct (m p) as [b|] eqn:Hp.
    + destruct (load m (p + 1) n) as [bs|] eqn:Hl.
      * split; [discriminate|]. intros (a & Ha & Hnone).
        destruct (Z.eq_dec a p) as [->|Hne]; [congruence|].
        assert (load m (p + 1) n = None) as Habs
          by (apply IH; exists a; split; [lia | assumption]).
        congruence.
      * split; [|reflexivity]. intros _.
        apply IH in Hl as (a & Ha & Hnone). exists a. split; [lia | assumption].
    + split; [|reflexivity]. intros _. exists p. split; [lia | assumption].
Qed.

Lemma load_length (n : nat) :
  forall (m : memory) (p : Z) (bs : list Byte.byte),
    load m p n = Some bs -> length bs = n.
Proof.
  induction n as [|n IH]; intros m p bs; cbn [load].
  - by intros [= <-].
  - destruct (m p); [|discriminate].
    destruct (load m (p + 1) n) eqn:Hl; [|discriminate].
    intros [= <-]. cbn [length]. f_equal. eapply IH. exact Hl.
Qed.

(** X21. [Update] with a length that is not zero hands libcrypto the [length]
    bytes at [input] and nothing else: it faults exactly when one of
    these addresses is not mapped, it never asserts, and what it returns
    depends on memory only through these bytes. *)
Theorem Update_reads_its_range
    (B : evp_backend) (d : OpenSSLDigest B) (m : memory) (input length : Z) :
  0 < length ->
  (Update d m input length = Fault
   <-> exists a, input <= a < input + length /\ m a = None)
  /\ (forall msg, Update d m input length <> AssertFail msg)
  /\ (forall d', Update d m input length = Ok d' ->
        exists bytes, load m input (Z.to_nat length) = Some bytes
                      /\ Z.of_nat (List.length bytes) = length
                      /\ mpContext d' = EVP_DigestUpdate B (mpContext d) bytes
                      /\ mpType d' = mpType d)
  /\ (forall m' : memory,
        (forall a, input <= a < input + length -> m' a = m a) ->
        Update d m' input length = Update d m input length).
Proof.
  intros Hpos. unfold Update.
  destruct (Z.eqb_spec length 0) as [Hz|_]; [lia|]. cbn [negb].
  repeat split.
  - destruct (load m input (Z.to_nat length)) eqn:Hl; [discriminate|]. intros _.
    apply load_None_iff in Hl as (a & Ha & Hnone). exists a. split; [lia | assumption].
  - intros (a & Ha & Hnone).
    assert (load m input (Z.to_nat length) = None) as ->; [|reflexivity].
    apply load_None_iff. exists a. split; [lia | assumption].
  - intros msg. by destruct (load m input (Z.to_nat length)).
  - intros d'. destruct (load m input (Z.to_nat length)) as [bytes|] eqn:Hl; [|discriminate].
    intros [= <-]. exists bytes. apply load_length in Hl. cbn. repeat split. lia.
  - intros m' Hagree. rewrite (load_ext _ m m') by (intros a Ha; apply Hagree; lia).
    reflexivity.
Qed.

(** ** Restart *)

Section DigestObjectFacts.

Context {B : evp_backend}.

Lemma Update_same_context (d1 d2 : OpenSSLDigest B) (m : memory) (input length : Z) :
  mpContext d1 = mpContext d2 -> mpType d1 = mpType d2 ->
  match Update d1 m input length, Update d2 m input length with
  | Ok e1, Ok e2 => mpContext e1 = mpContext e2 /\ mpType e1 = mpType e2
  | AssertFail a, AssertFail b => a = b
  | Fault, Fault => True
  | _, _ => False
  end.
Proof.
  intros Hc Ht. unfold Update. destruct (negb (length =? 0)); [|auto].
  destruct (load m input (Z.to_nat length)); [|exact I]. cbn. by rewrite Hc.
Qed.

Lemma apply_ops_same_context (ops : list digest_op) :
  forall (d1 d2 : OpenSSLDigest B) (m : memory),
    mpContext d1 = mpContext d2 -> mpType d1 = mpType d2 ->
    output (apply_ops d1 m ops) = output (apply_ops d2 m ops).
Proof.
  induction ops as [|op ops IH]; intros d1 d2 m Hc Ht; [reflexivity|].
  cbn [apply_ops]. destruct op as [|input length|digest]; cbn [apply_op bind fst snd].
  - apply IH; cbn; [by rewrite Hc, Ht | assumption].
  - pose proof (Update_same_context d1 d2 m input length Hc Ht) as Hu.
    destruct (Update d1 m input length) as [e1|a1|], (Update d2 m input length) as [e2|a2|];
      try contradiction; cbn [bind fst snd].
    + destruct Hu. by apply IH.
    + by subst.
    + reflexivity.
  - rewrite !Final_eq. unfold final_bytes. rewrite Hc.
    destruct (store m digest _) as [m'|]; [|reflexivity].
    cbn [bind fst snd]. apply IH; cbn; [reflexivity | assumption].
Qed.

End DigestObjectFacts.

(** X23. With a libcrypto that re-initialises a context whatever it held, a
    [Restart] forgets what was done with the object before: the same
    operations after it leave the same bytes in memory for every object
    of the same algorithm, fresh from the constructor or used and
    finalised any number of times. *)
Theorem Restart_forgets_history
    (B : evp_backend) (d1 d2 : OpenSSLDigest B) (m : memory) (ops : list digest_op) :
  reinitialises B ->
  mpType d1 = mpType d2 ->
  output (apply_ops d1 m (op_Restart :: ops)) = output (apply_ops d2 m (op_Restart :: ops)).
Proof.
  intros Hinit Ht. cbn [apply_ops apply_op bind fst snd].
  apply apply_ops_same_context; cbn; [|assumption].
  rewrite Ht. apply Hinit.
Qed.

(** ** What Final writes on *)

Lemma store_None_iff (bs : list Byte.byte) :
  forall (m : memory) (p : Z),
    store m p bs = None
    <-> exists a, p <= a < p + Z.of_nat (length bs) /\ m a = None.
Proof.
  induction bs as [|b bs IH]; intros m p; cbn [store length].
  - split; [discriminate | intros (a & Ha & _); lia].
  - destruct (m p) as [b0|] eqn:Hp.
    + rewrite IH. split.
      * intros (a & Ha & Hnone). exists a. split; [lia|].
        unfold poke in Hnone. destruct (Z.eqb_spec a p); [discriminate | assumption].
      * intros (a & Ha & Hnone).
        destruct (Z.eq_dec a p) as [->|Hne]; [congruence|].
        exists a. split; [lia|].
        unfold poke. destruct (Z.eqb_spec a p); [contradiction | assumption].
    + split; [|reflexivity]. intros _. exists p. split; [lia | assumption].
Qed.

(** X22. [Final] takes the buffer on trust: it faults exactly when one of the
    bytes that libcrypto's finalizer writes falls on an address that is
    not mapped, however long the caller meant the buffer to be; otherwise
    it returns. *)
Theorem Final_faults_iff
    (B : evp_backend) (d : OpenSSLDigest B) (m : memory) (digest : Z) :
  (Final d m digest = Fault
   <-> exists a, digest <= a < digest + Z.of_nat (length (final_bytes d)) /\ m a = None)
  /\ ((exists r, Final d m digest = Ok r)
      <-> forall a, digest <= a < digest + Z.of_nat (length (final_bytes d)) ->
                    m a <> None).
Proof.
  rewrite Final_eq.
  pose proof (store_None_iff (final_bytes d) m digest) as Hnone.
  destruct (store m digest (final_bytes d)) as [m'|].
  - split; split.
    + discriminate.
    + intros Hex. apply Hnone in Hex. discriminate.
    + intros _ a Ha Ha'. assert (Some m' = None) by (apply Hnone; eauto). discriminate.
    + eauto.
  - split; split.
    + intros _. by apply Hnone.
    + reflexivity.
    + intros [r Hr]. discriminate.
    + intros Hall. destruct (proj1 Hnone eq_refl) as (a & Ha & Ha').
      by destruct (Hall a Ha).
Qed.

(** ** The context a digest object owns *)

Section DigestLifetime.

Context {B : evp_backend}.
Implicit Types (o : digest_object B) (h : evp_heap B) (m : memory).

Lemma heap_call_live p (f : EVP_MD_CTX B -> EVP_MD_CTX B) h (c : EVP_MD_CTX B) :
  h !! p = Some (Some c) -> heap_call p f h = Ok (<[p := Some (f c)]> h).
Proof. intros Hp. unfold heap_call. by rewrite Hp. Qed.

Lemma object_op_agrees o (c : EVP_MD_CTX B) (calls : list evp_call) h m (op : digest_op) :
  h !! context_at o = Some (Some c) ->
  match object_op o op h m, apply_op (object_value o c calls) m op with
  | Ok (h', m1), Ok (d', m2) =>
      h' = <[context_at o := Some (mpContext d')]> h /\ m1 = m2
      /\ exists calls', d' = object_value o (mpContext d') calls'
  | AssertFail a, AssertFail b => a = b
  | Fault, Fault => True
  | _, _ => False
  end.
Proof.
  intros Hp. destruct op as [|input length|digest]; cbn [object_op apply_op].
  - unfold object_Restart. rewrite (heap_call_live _ _ _ _ Hp). cbn [bind].
    repeat split. eexists. reflexivity.
  - unfold object_Update, Update. destruct (negb (length =? 0)).
    + destruct (load m input (Z.to_nat length)) as [bytes|]; [|exact I].
      rewrite (heap_call_live _ _ _ _ Hp). cbn [bind].
      repeat split. eexists. reflexivity.
    + cbn [bind]. repeat split.
      * cbn [object_value mpContext]. symmetry. by apply list_insert_id.
      * eexists. reflexivity.
  - unfold object_Final, Final. rewrite Hp. cbn [object_value mpContext mpType evp_calls].
    destruct (EVP_DigestFinal_ex B c) as [[ctx md] s].
    destruct (store m digest md) as [m'|]; [|exact I].
    repeat split. eexists. reflexivity.
Qed.

Lemma object_ops_agrees (ops : list digest_op) :
  forall o (c : EVP_MD_CTX B) (calls : list evp_call) h m,
    h !! context_at o = Some (Some c) ->
    match object_ops o ops h m, apply_ops (object_value o c calls) m ops with
    | Ok (h', m1), Ok (d', m2) =>
        h' = <[context_at o := Some (mpContext d')]> h /\ m1 = m2
        /\ mpType d' = type_of o
    | AssertFail a, AssertFail b => a = b
    | Fault, Fault => True
    | _, _ => False
    end.
Proof.
  induction ops as [|op ops IH]; intros o c calls h m Hp.
  - cbn [object_ops apply_ops object_value mpContext mpType].
    split; [symmetry; by apply list_insert_id | auto].
  - cbn [object_ops apply_ops].
    pose proof (object_op_agrees o c calls h m op Hp) as Hop.
    destruct (object_op o op h m) as [[h1 m1]| |],
             (apply_op (object_value o c calls) m op) as [[d1 m1']| |];
      try contradiction; try exact Hop; cbn [bind fst snd].
    destruct Hop as (-> & <- & calls1 & Hd1).
    assert (<[context_at o := Some (mpContext d1)]> h !! context_at o
            = Some (Some (mpContext d1))) as Hp1
      by (apply list_lookup_insert_eq; eapply lookup_lt_Some; exact Hp).
    pose proof (IH o (mpContext d1) calls1 _ m1 Hp1) as Hrest.
    rewrite <- Hd1 in Hrest.
    destruct (object_ops o ops _ m1) as [[h2 m2]| |],
             (apply_ops d1 m1 ops) as [[d2 m2']| |];
      try contradiction; try exact Hrest.
    destruct Hrest as (-> & <- & Hty).
    split; [apply list_insert_insert_eq | auto].
Qed.

Lemma object_ops_frame (ops : list digest_op) o (c : EVP_MD_CTX B) h h' m m' :
  h !! context_at o = Some (Some c) ->
  object_ops o ops h m = Ok (h', m') ->
  exists c', h' = <[context_at o := Some c']> h.
Proof.
  intros Hp Hops. pose proof (object_ops_agrees ops o c [] h m Hp) as Hagree.
  rewrite Hops in Hagree.
  destruct (apply_ops (object_value o c []) m ops) as [[d' m2]| |]; try contradiction.
  destruct Hagree as (-> & _). eauto.
Qed.

End DigestLifetime.

(** X24. The operations on an object that lies at an address do to the context
    stored there what [Restart], [Update] and [Final] do to [mpContext],
    and the same to memory; the two fail alike. *)
Theorem object_ops_at_address
    (B : evp_backend) (o : digest_object B) (c : EVP_MD_CTX B) (calls : list evp_call)
    (h : evp_heap B) (m : memory) (ops : list digest_op) :
  h !! context_at o = Some (Some c) ->
  match object_ops o ops h m, apply_ops (object_value o c calls) m ops with
  | Ok (h', m1), Ok (d', m2) =>
      h' = <[context_at o := Some (mpContext d')]> h /\ m1 = m2
      /\ mpType d' = type_of o
  | AssertFail a, AssertFail b => a = b
  | Fault, Fault => True
  | _, _ => False
  end.
Proof. apply object_ops_agrees. Qed.

(** X25. From the constructor to the destructor.  The constructor creates one
    context, at an address of its own; whatever operations follow, and
    whatever contexts other objects create after it, they rewrite that
    one cell only; the destructor destroys that context and no other, so
    that every context that was there before is as it was; and a second
    destruction of the same object is a fault. *)
Theorem digest_object_lifetime
    (B : evp_backend) (_type : EVP_MD B) (h : evp_heap B) (ops : list digest_op)
    (m : memory) :
  exists (o : digest_object B) (h1 : evp_heap B),
    object_new _type h = Ok (o, h1)
    /\ context_at o = length h
    /\ type_of o = _type
    /\ h1 = h ++ [Some (EVP_DigestInit_ex B (EVP_MD_CTX_create B) _type)]
    /\ forall (later : evp_heap B) (h2 : evp_heap B) (m2 : memory),
         object_ops o ops (h1 ++ later) m = Ok (h2, m2) ->
         (exists c, h2 = h ++ [Some c] ++ later)
         /\ object_delete o h2 = Ok (h ++ [None] ++ later)
         /\ object_delete o (h ++ [None] ++ later) = Fault.
Proof.
  set (c0 := EVP_DigestInit_ex B (EVP_MD_CTX_create B) _type).
  exists {| context_at := length h; type_of := _type |}, (h ++ [Some c0]).
  assert (forall (x : option (EVP_MD_CTX B)) (later : evp_heap B),
            (h ++ [x] ++ later) !! length h = Some x) as Hat.
  { intros x later. rewrite lookup_app_r by lia. by rewrite Nat.sub_diag. }
  assert (forall (x y : option (EVP_MD_CTX B)) (later : evp_heap B),
            <[length h := y]> (h ++ [x] ++ later) = h ++ [y] ++ later) as Hput.
  { intros x y later. rewrite insert_app_r_alt by lia. by rewrite Nat.sub_diag. }
  split; [|split; [reflexivity | split; [reflexivity | split; [reflexivity|]]]].
  - unfold object_new, heap_create, object_Restart, heap_call, evp_heap.
    cbn [fst snd context_at type_of].
    pose proof (Hat (Some (EVP_MD_CTX_create B)) []) as Hat0.
    pose proof (Hput (Some (EVP_MD_CTX_create B)) (Some c0) []) as Hput0.
    cbn [app] in Hat0, Hput0. rewrite Hat0. cbn [bind]. fold c0. rewrite Hput0. reflexivity.
  - intros later h2 m2 Hops. rewrite <- app_assoc in Hops.
    set (o := {| context_at := length h; type_of := _type |}) in *.
    assert ((h ++ [Some c0] ++ later) !! context_at o = Some (Some c0)) as Hlive
      by apply Hat.
    destruct (object_ops_frame ops o c0 _ _ _ _ Hlive Hops) as [c ->].
    cbn [context_at]. unfold evp_heap. rewrite Hput.
    split; [eauto|]. unfold object_delete, heap_destroy, evp_heap. cbn [context_at].
    rewrite !Hat, Hput. auto.
Qed.

(** ** The further theorems at concrete inputs *)


Lemma later_init_frame_witness :
  exists g',
    init_or_throw out_of_memory false 8 one_holder
    = (if false then Finished (Ok g') else Throws g')
    /\ crypto_refs g' = wrap32 (crypto_refs one_holder + 1)
    /\ ssl_mutexes g' = ssl_mutexes one_holder
    /\ ssl_num_locks g' = ssl_num_locks one_holder
    /\ locking_callback g' = locking_callback one_holder
    /\ id_callback g' = id_callback one_holder
    /\ tids g' = (if false then tids one_holder ++ [8] else tids one_holder)
    /\ trace g' = trace one_holder ++ record_calls 8.
Proof.
  apply (later_init_frame out_of_memory false 8 one_holder). vm_compute. discriminate.
Defined.

Lemma init_without_lock_slots_witness :
  exists g',
    init_or_throw no_locks true 7 initial_state
    = (if true then Finished (Ok g') else Throws g')
    /\ trace g' = trace initial_state ++ setup_calls_without_table ++ record_calls 7
    /\ ssl_num_locks g' = 0
    /\ ssl_mutexes g' = None
    /\ locking_callback g' = true
    /\ (forall (t : CRYPTO_THREADID) (mode i : Z), ssl_locking_callback t mode i g' = Fault)
    /\ exists g'', shutdown g' = Ok g'' /\ ssl_mutexes g'' = None /\ crypto_refs g'' = 0.
Proof.
  apply (init_without_lock_slots no_locks true 7 initial_state).
  - reflexivity.
  - reflexivity.
  - cbn. lia.
Defined.


Lemma balanced_history_witness :
  exists g,
    api_run three_locks example_history initial_state = Ok g
    /\ crypto_refs g = Z.of_nat 1
    /\ tids g = tids initial_state ++ callers example_history
    /\ (1%nat = 0%nat -> at_rest g)
    /\ ((0 < 1)%nat -> live three_locks g)
    /\ forall h', Forall2 same_call example_history h' ->
                  api_run three_locks h' initial_state = Ok g.
Proof.
  apply (balanced_history three_locks example_history 1 initial_state).
  - left. reflexivity.
  - reflexivity.
  - repeat split.
  - vm_compute. reflexivity.
  - reflexivity.
Defined.

Lemma locking_callback_frame_witness :
  crypto_refs slot_1_held = crypto_refs one_holder
  /\ ssl_num_locks slot_1_held = ssl_num_locks one_holder
  /\ tids slot_1_held = tids one_holder
  /\ locking_callback slot_1_held = locking_callback one_holder
  /\ id_callback slot_1_held = id_callback one_holder
  /\ trace slot_1_held = trace one_holder
  /\ length (lock_table slot_1_held) = length (lock_table one_holder)
  /\ forall j : nat, j <> Z.to_nat 1 -> lock_table slot_1_held !! j = lock_table one_holder !! j.
Proof.
  apply (locking_callback_frame 7 CRYPTO_LOCK 1 one_holder slot_1_held). reflexivity.
Defined.

Lemma lock_unlock_round_trip_witness :
  exists g1 g2,
    callback_times_upto 2 3 7 CRYPTO_LOCK 1 one_holder = Ok (Returns g1)
    /\ lock_table g1 !! Z.to_nat 1
       = Some (MutexLive PTHREAD_MUTEX_RECURSIVE (Some 7) (Nat.min 3 2))
    /\ callback_times_upto 2 1 7 CRYPTO_UNLOCK 1 g1 = Ok (Returns g2)
    /\ lock_table g2 !! Z.to_nat 1
       = Some (MutexLive PTHREAD_MUTEX_RECURSIVE (Some 7) (Nat.min 3 2 - 1))
    /\ callback_times_upto 2 (Nat.min 3 2) 7 CRYPTO_UNLOCK 1 g1 = Ok (Returns one_holder)
    /\ callback_times_upto 2 3 7 CRYPTO_UNLOCK 1 g1 = Ok (Returns one_holder).
Proof.
  apply (lock_unlock_round_trip 2 7 1 3 1 one_holder).
  - lia.
  - reflexivity.
  - lia.
  - cbn. lia.
Defined.

Lemma held_slot_excludes_others_witness :
  ssl_locking_callback 8 CRYPTO_LOCK 1 slot_1_held = Ok Waits
  /\ ssl_locking_callback 8 CRYPTO_UNLOCK 1 slot_1_held = Ok (Returns slot_1_held).
Proof.
  split.
  - apply (held_slot_excludes_others 7 8 CRYPTO_LOCK 1 slot_1_held
             PTHREAD_MUTEX_RECURSIVE 1); [discriminate | lia | reflexivity].
  - apply (held_slot_excludes_others 7 8 CRYPTO_UNLOCK 1 slot_1_held
             PTHREAD_MUTEX_RECURSIVE 1); [discriminate | lia | reflexivity].
Defined.

Lemma thread_id_zero_extends_witness :
  length (ssl_get_thread_id_bytes 8 handle_bytes) = 8%nat
  /\ take (length handle_bytes) (ssl_get_thread_id_bytes 8 handle_bytes) = handle_bytes
  /\ drop (length handle_bytes) (ssl_get_thread_id_bytes 8 handle_bytes)
     = replicate (8 - length handle_bytes) Byte.x00
  /\ little_endian (ssl_get_thread_id_bytes 8 handle_bytes)
     = ssl_get_thread_id (little_endian handle_bytes)
  /\ forall t' : list Byte.byte,
       length t' = length handle_bytes ->
       ssl_get_thread_id_bytes 8 t' = ssl_get_thread_id_bytes 8 handle_bytes ->
       t' = handle_bytes.
Proof. apply (thread_id_zero_extends 8 handle_bytes). cbn. lia. Defined.

Lemma registry_under_interleaving_witness :
  Permutation (tids (shared after_overlapping))
    (tids (shared overlapping)
       ++ recorded (threads overlapping) (threads after_overlapping))
  /\ (all_returned after_overlapping = true ->
      Permutation (tids (shared after_overlapping))
        (tids (shared overlapping) ++ init_callers (threads overlapping))).
Proof.
  apply (registry_under_interleaving three_locks [1; 0; 1]%nat overlapping
           after_overlapping); reflexivity.
Defined.

Lemma init_returns_before_setup_witness :
  exists sched c,
    run three_locks sched (spawn InitEntry [11; 12; 13] initial_state) = Ok c
    /\ threads c !! 0%nat = Some (11, InitSetup (setup_prog three_locks))
    /\ threads c !! 1%nat = Some (12, Returned)
    /\ crypto_refs (shared c) = 2
    /\ tids (shared c) = tids initial_state ++ [12]
    /\ trace (shared c) = trace initial_state ++ record_calls 12
    /\ ssl_mutexes (shared c) = ssl_mutexes initial_state
    /\ ssl_num_locks (shared c) = ssl_num_locks initial_state
    /\ locking_callback (shared c) = locking_callback initial_state
    /\ id_callback (shared c) = id_callback initial_state.
Proof.
  apply (init_returns_before_setup three_locks initial_state 11 12 [13]). reflexivity.
Defined.

Lemma release_overlapping_acquire_witness :
  (exists sched c,
     run three_locks sched
       {| threads := [(7, ShutdownEntry); (9, InitEntry)]; shared := one_holder |} = Ok c
     /\ all_returned c = true
     /\ crypto_refs (shared c) = 1
     /\ at_rest (shared c))
  /\ (exists g, api_run three_locks [call_shutdown false; call_init 9] one_holder = Ok g
                /\ crypto_refs g = 1 /\ live three_locks g)
  /\ (exists g, api_run three_locks [call_init 9; call_shutdown false] one_holder = Ok g
                /\ crypto_refs g = 1 /\ live three_locks g).
Proof.
  apply (release_overlapping_acquire three_locks one_holder 7 9).
  - reflexivity.
  - repeat split.
  - left. reflexivity.
Defined.

Lemma Update_reads_its_range_witness :
  let d := OpenSSLDigest_new (B := sum8_backend) tt in
  (Update d example_memory 100 5 = Fault
   <-> exists a, 100 <= a < 100 + 5 /\ example_memory a = None)
  /\ (forall msg, Update d example_memory 100 5 <> AssertFail msg)
  /\ (forall d', Update d example_memory 100 5 = Ok d' ->
        exists bytes, load example_memory 100 (Z.to_nat 5) = Some bytes
                      /\ Z.of_nat (List.length bytes) = 5
                      /\ mpContext d' = EVP_DigestUpdate sum8_backend (mpContext d) bytes
                      /\ mpType d' = mpType d)
  /\ (forall m' : memory,
        (forall a, 100 <= a < 100 + 5 -> m' a = example_memory a) ->
        Update d m' 100 5 = Update d example_memory 100 5).
Proof.
  cbv zeta.
  apply (Update_reads_its_range sum8_backend (OpenSSLDigest_new (B := sum8_backend) tt)
           example_memory 100 5).
  lia.
Defined.

Lemma sum8_reinitialises : reinitialises sum8_backend.
Proof. intros c c' t. reflexivity. Qed.

Lemma Restart_forgets_history_witness :
  exists (d : OpenSSLDigest sum8_backend) (m : memory),
    apply_ops (OpenSSLDigest_new (B := sum8_backend) tt) example_memory
      [op_Update 100 5; op_Final 200] = Ok (d, m)
    /\ output (apply_ops d example_memory [op_Restart; op_Update 100 5; op_Final 200])
       = output (apply_ops (OpenSSLDigest_new (B := sum8_backend) tt) example_memory
                   [op_Restart; op_Update 100 5; op_Final 200]).
Proof.
  eexists. eexists. split; [reflexivity|].
  apply (Restart_forgets_history sum8_backend _ (OpenSSLDigest_new (B := sum8_backend) tt)
           example_memory [op_Update 100 5; op_Final 200]).
  - exact sum8_reinitialises.
  - reflexivity.
Defined.

Lemma object_ops_at_address_witness :
  match object_ops example_object example_ops example_heap example_memory,
        apply_ops (object_value example_object 0 []) example_memory example_ops with
  | Ok (h', m1), Ok (d', m2) =>
      h' = <[context_at example_object := Some (mpContext d')]> example_heap /\ m1 = m2
      /\ mpType d' = type_of example_object
  | AssertFail a, AssertFail b => a = b
  | Fault, Fault => True
  | _, _ => False
  end.
Proof.
  apply (object_ops_at_address sum8_backend example_object 0 [] example_heap
           example_memory example_ops).
  reflexivity.
Defined.

Lemma setup_is_exclusive_witness :
  (forall c,
     run three_locks [1; 0; 1; 2]%nat (spawn InitEntry [11; 12; 13] initial_state) = Ok c ->
     crypto_refs (shared c)
     = Z.of_nat (length [11; 12; 13] - count_at AtInitEntry (threads c))
     /\ (count_at AtInitSetup (threads c) <= 1)%nat
     /\ (count_at AtInitEntry (threads c) = length [11; 12; 13] ->
         lifecycle (trace (shared c)) = lifecycle (trace initial_state))
     /\ ((count_at AtInitEntry (threads c) < length [11; 12; 13])%nat ->
         count_at AtInitSetup (threads c) = 0%nat ->
         lifecycle (trace (shared c))
         = lifecycle (trace initial_state) ++ setup_calls three_locks
         /\ ssl_num_locks (shared c) = Z.max (CRYPTO_num_locks three_locks) 0
         /\ table_ready (shared c)))
  /\ (new_succeeds three_locks = true \/ CRYPTO_num_locks three_locks <= 0 ->
      exists c,
        run three_locks [1; 0; 1; 2]%nat (spawn InitEntry [11; 12; 13] initial_state)
        = Ok c).
Proof.
  apply (setup_is_exclusive three_locks initial_state [11; 12; 13] [1; 0; 1; 2]%nat).
  - reflexivity.
  - vm_compute. reflexivity.
Defined.

Lemma cleanup_is_exclusive_witness :
  exists c,
    run three_locks [2; 0]%nat (spawn ShutdownEntry [12; 13; 11] (shared after_three_inits))
    = Ok c
    /\ crypto_refs (shared c) = Z.of_nat (count_at AtShutdownEntry (threads c))
    /\ (count_at AtShutdownDrain (threads c)
        + count_at AtShutdownCleanup (threads c) <= 1)%nat
    /\ ((0 < count_at AtShutdownEntry (threads c))%nat ->
        count_at AtShutdownDrain (threads c) = 0%nat
        /\ count_at AtShutdownCleanup (threads c) = 0%nat
        /\ lifecycle (trace (shared c)) = lifecycle (trace (shared after_three_inits))
        /\ tids (shared c) = tids (shared after_three_inits)
        /\ table_ready (shared c)).
Proof.
  apply (cleanup_is_exclusive three_locks (shared after_three_inits) [12; 13; 11]
           [2; 0]%nat).
  - cbn. lia.
  - vm_compute. reflexivity.
  - reflexivity.
  - unfold table_ready. cbn. lia.
Defined.

Lemma acquire_release_completes_witness :
  exists sched1 c1 sched2 c2,
    run three_locks sched1 (spawn InitEntry [11; 12; 13] initial_state) = Ok c1
    /\ all_returned c1 = true
    /\ run three_locks sched2 (spawn ShutdownEntry [12; 13; 11] (shared c1)) = Ok c2
    /\ all_returned c2 = true.
Proof.
  apply (acquire_release_completes three_locks initial_state [11; 12; 13] [12; 13; 11]).
  - reflexivity.
  - cbn. lia.
  - reflexivity.
  - vm_compute. reflexivity.
  - left. reflexivity.
Defined.

Lemma recursive_table_never_hangs_witness :
  ssl_locking_callback 7 CRYPTO_LOCK 1 slot_1_held <> Ok Hangs
  /\ forall g',
       ssl_locking_callback 7 CRYPTO_LOCK 1 slot_1_held = Ok (Returns g') ->
       recursive_table g'.
Proof.
  apply (recursive_table_never_hangs 7 CRYPTO_LOCK 1 slot_1_held).
  unfold recursive_table. cbn. repeat constructor; eauto.
Defined.

Lemma callback_over_initialised_table_witness :
  initialised_table (shared after_three_inits)
  /\ forall (t : CRYPTO_THREADID) (mode i : Z),
       0 <= i < ssl_num_locks (shared after_three_inits) ->
       exists r, ssl_locking_callback t mode i (shared after_three_inits) = Ok r.
Proof.
  apply (callback_over_initialised_table three_locks initial_state [11; 12; 13]
           three_inits after_three_inits).
  - reflexivity.
  - reflexivity.
  - vm_compute. reflexivity.
  - reflexivity.
  - reflexivity.
Defined.

Lemma callback_gone_before_destroy_witness :
  exists c,
    run three_locks three_shutdowns
      (spawn ShutdownEntry [12; 13; 11] (shared after_three_inits)) = Ok c
    /\ (locking_callback (shared c) = true
        -> ssl_mutexes (shared c) = ssl_mutexes (shared after_three_inits)).
Proof.
  apply (callback_gone_before_destroy three_locks (shared after_three_inits) [12; 13; 11]
           three_shutdowns).
  - cbn. lia.
  - vm_compute. reflexivity.
  - reflexivity.
  - unfold table_ready. cbn. lia.
Defined.
